(** * tf2xla_util: graph preparation utilities of the tf2xla ahead-of-time
    compiler front end.

    A shallow embedding of [tensorflow/compiler/tf2xla/tf2xla_util.cc]:
    configuration validation, placeholder synthesis for feeds, pruning of a
    GraphDef down to what the fetches need, associated-function discovery and
    rewriting, node replacement, the function-handle cache and the XLA random
    seed counter.

    Conventions.
    - Protobuf integers and C++ [int]s that hold slot indices are [Z]; no
      conversion between integer widths is modelled for them.  The 32-bit
      seed counter is a [Z] with its wrap-around written out.
    - [std::string] is [string]; [absl::StrCat] is string append, integers
      printed in decimal.
    - [std::map] and [std::set] keyed by strings, whose iteration order the
      code relies on, are lists sorted by the byte-wise lexicographic order;
      hash maps that are only looked up and updated are [gmap]s.
    - A function that returns a [Status] and mutates its arguments returns the
      status together with the new values of what it mutates. *)

From Stdlib Require Import ZArith Lia OrdersEx Ascii.
From stdpp Require Import gmap strings list fin_maps pretty sorting.

Open Scope Z_scope.

(** ** Status *)

Module Status.

Inductive Code := INVALID_ARGUMENT | NOT_FOUND | INTERNAL | UNKNOWN.

(** [tensorflow::Status]: OK, or an error code with its message. *)
Inductive t := OK | Error (code : Code) (error_message : string).

Definition ok (s : t) : bool := match s with OK => true | Error _ _ => false end.

Definition code_is (c : Code) (s : t) : Prop := ∃ msg, s = Error c msg.

(** [errors::InvalidArgument(args...)], [errors::NotFound(args...)]: the
    arguments are concatenated into the message. *)
Definition InvalidArgument (args : list string) : t :=
  Error INVALID_ARGUMENT (String.concat "" args).
Definition NotFound (args : list string) : t :=
  Error NOT_FOUND (String.concat "" args).

#[global] Instance Code_eq_dec : EqDecision Code.
Proof. solve_decision. Defined.
#[global] Instance t_eq_dec : EqDecision t.
Proof. solve_decision. Defined.

End Status.

Abbreviation Status := Status.t.
Abbreviation OK := Status.OK.

(** [TF_RETURN_IF_ERROR(s); k] in a function that returns a bare [Status]. *)
Notation "'TF_RETURN_IF_ERROR' s ';;' k" :=
  (match s with Status.OK => k | Status.Error c m => Status.Error c m end)
  (at level 10, s at level 9, k at level 200).

(** ** Ordered containers: [std::set<string>] and [std::map<string, V>] *)

Module Ordered.

(** [std::less<std::string>]: byte-wise lexicographic comparison. *)
Definition compare (a b : string) : comparison := String_as_OT.compare a b.
Definition lt (a b : string) : Prop := compare a b = Lt.

(** A [std::set<string>]: its elements in iteration (ascending) order. *)
Definition set := list string.

(** [s.insert(x)]: the new set and [.second], true iff [x] was inserted. *)
Fixpoint set_insert (x : string) (s : set) : set * bool :=
  match s with
  | [] => ([x], true)
  | y :: s' =>
      match compare x y with
      | Lt => (x :: y :: s', true)
      | Eq => (s, false)
      | Gt => let '(r, b) := set_insert x s' in (y :: r, b)
      end
  end.

(** [s.find(x) != s.end()] *)
Definition set_contains (x : string) (s : set) : bool :=
  existsb (String.eqb x) s.

(** A [std::map<string, V>]: its entries in iteration (ascending key) order. *)
Definition map (V : Type) := list (string * V).

(** [m.find(k)] *)
Fixpoint map_find {V} (k : string) (m : map V) : option V :=
  match m with
  | [] => None
  | (k', v) :: m' => if String.eqb k k' then Some v else map_find k m'
  end.

(** [m[k] = v]: the entry is created in key order, or overwritten in place. *)
Fixpoint map_set {V} (k : string) (v : V) (m : map V) : map V :=
  match m with
  | [] => [(k, v)]
  | (k', v') :: m' =>
      match compare k k' with
      | Lt => (k, v) :: (k', v') :: m'
      | Eq => (k', v) :: m'
      | Gt => (k', v') :: map_set k v m'
      end
  end.

(** Keys strictly ascending: the representation invariant of a map. *)
Definition sorted {V} (m : map V) : Prop := StronglySorted lt (m.*1).

Lemma compare_eq a b : compare a b = Eq → a = b.
Proof.
  unfold compare. intros H.
  destruct (String_as_OT.compare_spec a b); congruence.
Qed.

Lemma compare_refl a : compare a a = Eq.
Proof.
  unfold compare. destruct (String_as_OT.compare_spec a a) as [|H|H]; auto;
    exfalso; exact (StrictOrder_Irreflexive (R := String_as_OT.lt) _ H).
Qed.

Lemma compare_gt a b : compare a b = Gt → lt b a.
Proof.
  unfold lt, compare. intros H.
  destruct (String_as_OT.compare_spec a b); first [congruence | assumption].
Qed.

Lemma lt_trans a b c : lt a b → lt b c → lt a c.
Proof. exact (StrictOrder_Transitive (R := String_as_OT.lt) a b c). Qed.

Lemma lt_irrefl a : ¬ lt a a.
Proof. exact (StrictOrder_Irreflexive (R := String_as_OT.lt) a). Qed.

Lemma lt_neq a b : lt a b → a ≠ b.
Proof. intros H ->. exact (lt_irrefl _ H). Qed.

Lemma map_find_set_eq {V} k (v : V) m : map_find k (map_set k v m) = Some v.
Proof.
  induction m as [|[k' v'] m IH]; simpl.
  - by rewrite String.eqb_refl.
  - destruct (compare k k') eqn:Hc; simpl.
    + apply compare_eq in Hc as ->. by rewrite String.eqb_refl.
    + by rewrite String.eqb_refl.
    + apply compare_gt, lt_neq in Hc.
      destruct (String.eqb_spec k k'); [congruence | exact IH].
Qed.

Lemma map_find_set_ne {V} k k' (v : V) m :
  k ≠ k' → map_find k' (map_set k v m) = map_find k' m.
Proof.
  intros Hne. induction m as [|[k'' v''] m IH]; simpl.
  - destruct (String.eqb_spec k' k); [congruence | done].
  - destruct (compare k k'') eqn:Hc; simpl.
    + apply compare_eq in Hc as <-.
      destruct (String.eqb_spec k' k); [congruence | done].
    + destruct (String.eqb_spec k' k); [congruence | done].
    + by rewrite IH.
Qed.

Lemma map_set_keys {V} k (v : V) m k' :
  k' ∈ (map_set k v m).*1 ↔ k' = k ∨ k' ∈ m.*1.
Proof.
  induction m as [|[k'' v''] m IH]; simpl.
  - rewrite list_elem_of_singleton. split; [auto|]. by intros [? | ?%elem_of_nil].
  - destruct (compare k k'') eqn:Hc; simpl.
    + apply compare_eq in Hc as <-. rewrite !elem_of_cons. tauto.
    + rewrite !elem_of_cons. tauto.
    + rewrite !elem_of_cons, IH. tauto.
Qed.

Lemma map_set_sorted {V} k (v : V) m : sorted m → sorted (map_set k v m).
Proof.
  unfold sorted. induction m as [|[k' v'] m IH]; simpl; intros Hs.
  - repeat constructor.
  - apply StronglySorted_inv in Hs as [Hs Hall].
    destruct (compare k k') eqn:Hc; simpl.
    + by constructor.
    + constructor; [by constructor|].
      constructor; [exact Hc|].
      eapply Forall_impl; [exact Hall|]. intros x Hx. by eapply lt_trans.
    + constructor; [by apply IH|].
      apply Forall_forall. intros x Hx.
      apply map_set_keys in Hx as [-> | Hx]; [by apply compare_gt|].
      rewrite Forall_forall in Hall. by apply Hall.
Qed.

Lemma map_find_Some {V} k (v : V) m : map_find k m = Some v → (k, v) ∈ m.
Proof.
  induction m as [|[k' v'] m IH]; simpl; [discriminate|].
  destruct (String.eqb_spec k k') as [-> | Hne].
  - intros [= ->]. apply list_elem_of_here.
  - intros H. by apply list_elem_of_further, IH.
Qed.

Lemma map_find_None {V} k (m : map V) : k ∉ m.*1 → map_find k m = None.
Proof.
  induction m as [|[k' v'] m IH]; simpl; [done|].
  rewrite not_elem_of_cons. intros [Hne Hk].
  destruct (String.eqb_spec k k'); [congruence | by apply IH].
Qed.

Lemma sorted_head_fresh {V} k (v : V) m : sorted ((k, v) :: m) → k ∉ m.*1.
Proof.
  unfold sorted. simpl. intros [_ Hall]%StronglySorted_inv Hk.
  rewrite Forall_forall in Hall. by apply (lt_irrefl k), Hall.
Qed.

Lemma map_find_elem {V} k (m : map V) : map_find k m = None → k ∈ m.*1 → False.
Proof.
  induction m as [|[k' v'] m IH]; simpl; [by intros _ ?%elem_of_nil|].
  destruct (String.eqb_spec k k') as [-> | Hne]; [discriminate|].
  intros Hnone [-> | Hk]%elem_of_cons; [done | by apply IH].
Qed.

(** A sorted map has one entry for a key. *)
Lemma sorted_unique {V} (m : map V) k (v1 v2 : V) :
  sorted m → (k, v1) ∈ m → (k, v2) ∈ m → v1 = v2.
Proof.
  induction m as [|[k' v'] m IH]; [by intros _ ?%elem_of_nil|].
  intros Hs H1 H2. pose proof (sorted_head_fresh _ _ _ Hs) as Hfresh.
  unfold sorted in Hs. simpl in Hs. apply StronglySorted_inv in Hs as [Hs _].
  apply elem_of_cons in H1 as [E1 | H1]; apply elem_of_cons in H2 as [E2 | H2].
  - congruence.
  - exfalso. apply Hfresh. apply (list_elem_of_fmap_2 fst) in H2. simpl in H2. congruence.
  - exfalso. apply Hfresh. apply (list_elem_of_fmap_2 fst) in H1. simpl in H1. congruence.
  - by apply IH.
Qed.

(** A sorted map is determined by what [find] returns. *)
Lemma map_ext {V} (m1 m2 : map V) :
  sorted m1 → sorted m2 → (∀ k, map_find k m1 = map_find k m2) → m1 = m2.
Proof.
  revert m2. induction m1 as [|[k1 v1] m1 IH]; intros [|[k2 v2] m2] Hs1 Hs2 Hfind.
  - done.
  - specialize (Hfind k2). simpl in Hfind. by rewrite String.eqb_refl in Hfind.
  - specialize (Hfind k1). simpl in Hfind. by rewrite String.eqb_refl in Hfind.
  - assert (Hk : k1 = k2).
    { pose proof (Hfind k1) as H1. pose proof (Hfind k2) as H2. simpl in H1, H2.
      rewrite String.eqb_refl in H1, H2.
      destruct (String.eqb_spec k1 k2) as [|Hne]; [done|]. exfalso.
      destruct (String.eqb_spec k2 k1) as [|_]; [congruence|].
      symmetry in H1. apply map_find_Some, (list_elem_of_fmap_2 fst) in H1.
      apply map_find_Some, (list_elem_of_fmap_2 fst) in H2. simpl in H1, H2.
      unfold sorted in Hs1, Hs2. simpl in Hs1, Hs2.
      apply StronglySorted_inv in Hs1 as [_ Hall1].
      apply StronglySorted_inv in Hs2 as [_ Hall2].
      rewrite Forall_forall in Hall1, Hall2.
      apply (lt_irrefl k1), (lt_trans _ k2); [by apply Hall1 | by apply Hall2]. }
    subst k2.
    assert (Hv : v1 = v2).
    { specialize (Hfind k1). simpl in Hfind. rewrite String.eqb_refl in Hfind.
      congruence. }
    subst v2. f_equal. apply IH.
    + unfold sorted in *. simpl in Hs1. by apply StronglySorted_inv in Hs1 as [? _].
    + unfold sorted in *. simpl in Hs2. by apply StronglySorted_inv in Hs2 as [? _].
    + intros k. destruct (decide (k = k1)) as [-> | Hne].
      * rewrite !map_find_None; [done | by eapply sorted_head_fresh..].
      * specialize (Hfind k). simpl in Hfind.
        destruct (String.eqb_spec k k1); [congruence | done].
Qed.

(** *** The set of strings *)

Definition set_sorted (s : set) : Prop := StronglySorted lt s.

Lemma set_contains_spec x s : set_contains x s = true ↔ x ∈ s.
Proof.
  unfold set_contains. rewrite existsb_exists. split.
  - intros (y & Hy & ->%String.eqb_eq). by apply list_elem_of_In.
  - intros Hx. exists x. split; [by apply list_elem_of_In | apply String.eqb_refl].
Qed.

Lemma set_insert_elem x s y : y ∈ (set_insert x s).1 ↔ y = x ∨ y ∈ s.
Proof.
  induction s as [|z s IH]; simpl.
  - rewrite list_elem_of_singleton. split; [auto|]. by intros [? | ?%elem_of_nil].
  - destruct (compare x z) eqn:Hc; simpl.
    + apply compare_eq in Hc as <-. rewrite !elem_of_cons. tauto.
    + rewrite !elem_of_cons. tauto.
    + destruct (set_insert x s) as [r b]. simpl in *.
      rewrite !elem_of_cons, IH. tauto.
Qed.

Lemma set_insert_sorted x s : set_sorted s → set_sorted (set_insert x s).1.
Proof.
  unfold set_sorted. induction s as [|z s IH]; simpl; intros Hs.
  - repeat constructor.
  - apply StronglySorted_inv in Hs as [Hs Hall].
    destruct (compare x z) eqn:Hc; simpl.
    + by constructor.
    + constructor; [by constructor|].
      constructor; [exact Hc|].
      eapply Forall_impl; [exact Hall|]. intros y Hy. by eapply lt_trans.
    + pose proof (set_insert_elem x s) as Helem.
      destruct (set_insert x s) as [r b]. simpl in *.
      constructor; [by apply IH|].
      apply Forall_forall. intros y Hy.
      apply Helem in Hy as [-> | Hy]; [by apply compare_gt|].
      rewrite Forall_forall in Hall. by apply Hall.
Qed.

(** [insert(x).second] tells whether [x] was new. *)
Lemma set_insert_new x s : set_sorted s → ((set_insert x s).2 = true ↔ x ∉ s).
Proof.
  unfold set_sorted. induction s as [|z s IH]; simpl; intros Hs.
  - split; [|done]. by intros _ ?%elem_of_nil.
  - apply StronglySorted_inv in Hs as [Hs Hall].
    destruct (compare x z) eqn:Hc; simpl.
    + apply compare_eq in Hc as <-. split; [done|].
      intros H. exfalso. apply H, list_elem_of_here.
    + split; [|done]. intros _ [-> | Hx]%elem_of_cons.
      * by apply lt_irrefl in Hc.
      * rewrite Forall_forall in Hall. apply (lt_irrefl x).
        eapply lt_trans; [exact Hc | by apply Hall].
    + specialize (IH Hs). destruct (set_insert x s) as [r b]. simpl in *.
      rewrite IH, not_elem_of_cons.
      apply compare_gt, lt_neq in Hc. split; [auto | tauto].
Qed.

(** A name that is in the set already leaves the set as it is. *)
Lemma set_insert_old x s : set_sorted s → x ∈ s → (set_insert x s).1 = s.
Proof.
  unfold set_sorted. induction s as [|z s IH]; simpl; intros Hs Hx.
  - by apply elem_of_nil in Hx.
  - apply StronglySorted_inv in Hs as [Hs Hall].
    destruct (compare x z) eqn:Hc; simpl; [done| |].
    + exfalso. apply elem_of_cons in Hx as [-> | Hx].
      * by apply lt_irrefl in Hc.
      * rewrite Forall_forall in Hall. apply (lt_irrefl x).
        eapply lt_trans; [exact Hc | by apply Hall].
    + apply compare_gt, lt_neq in Hc.
      apply elem_of_cons in Hx as [-> | Hx]; [done|].
      specialize (IH Hs Hx). destruct (set_insert x s) as [r b]. simpl in *.
      by rewrite IH.
Qed.

End Ordered.

(** ** The configuration: feeds and fetches (tf2xla.proto) *)

(** [DataType] is the protobuf enum, by number; [DT_INVALID] is 0. *)
Definition DataType := Z.
Definition DT_INVALID : DataType := 0.

Record TensorShapeProto := {
  dim : list Z;            (* dim(i).size() *)
  unknown_rank : bool
}.

Record TensorId := { node_name : string; output_index : Z }.

Record Feed := {
  feed_id : TensorId;
  feed_shape : TensorShapeProto;
  feed_name : string;
  feed_type : DataType
}.

Record Fetch := { fetch_id : TensorId; fetch_name : string }.

Record Config := { feed : list Feed; fetch : list Fetch }.

#[global] Instance TensorShapeProto_eq_dec : EqDecision TensorShapeProto.
Proof. solve_decision. Defined.
#[global] Instance TensorId_eq_dec : EqDecision TensorId.
Proof. solve_decision. Defined.
#[global] Instance Feed_eq_dec : EqDecision Feed.
Proof. solve_decision. Defined.

(** [TensorIdToString]: ["<node_name>:<output_index>"]. *)
Definition TensorIdToString (id : TensorId) : string :=
  node_name id +:+ ":" +:+ pretty (output_index id).

(** ** ValidateConfig *)

Module ConfigValidator.

Definition ValidateTensorId (id : TensorId) : Status :=
  if String.eqb (node_name id) "" then
    Status.InvalidArgument ["TensorId node_name must be non-empty"]
  else if output_index id <? 0 then
    Status.InvalidArgument ["TensorId output_index must be positive"]
  else OK.

(** Modelled from the spec: [TensorShape::IsValidShape] (tensor_shape.cc) is
    not among the sources.  A shape is valid when it has no negative
    dimension; an invalid one is reported as [InvalidArgument]. *)
Definition IsValidShape (shape : TensorShapeProto) : Status :=
  match List.find (λ d, d <? 0) (dim shape) with
  | Some d => Status.InvalidArgument ["Shape has a negative dimension: "; pretty d]
  | None => OK
  end.

(** The status and the updated [*names]. *)
Definition CheckNameDuplicates (kind name : string) (names : Ordered.set)
  : Status * Ordered.set :=
  if negb (String.eqb name "") then
    let '(names', inserted) := Ordered.set_insert name names in
    if negb inserted then
      (Status.InvalidArgument ["duplicate "; kind; " name: "; name], names')
    else (OK, names')
  else (OK, names).

(** The [for (const string& name : names)] loop, over the elements that are
    still to be visited. *)
Fixpoint conflicts_loop (kind : string) (todo : list string) (names : Ordered.set)
  : Status :=
  match todo with
  | [] => OK
  | name :: todo' =>
      let name_data := name +:+ "_data" in
      if Ordered.set_contains name_data names then
        Status.InvalidArgument ["conflicting "; kind; " name: "; name; " and "; name_data]
      else conflicts_loop kind todo' names
  end.

Definition CheckFeedFetchNameConflicts (kind : string) (names : Ordered.set) : Status :=
  conflicts_loop kind names names.

(** The loop over [config.feed()]; on an error the function returns it. *)
Fixpoint feed_loop (feeds : list Feed) (names : Ordered.set) : Status * Ordered.set :=
  match feeds with
  | [] => (OK, names)
  | f :: feeds' =>
      match ValidateTensorId (feed_id f) with
      | Status.Error c m => (Status.Error c m, names)
      | OK =>
          match IsValidShape (feed_shape f) with
          | Status.Error c m => (Status.Error c m, names)
          | OK =>
              match CheckNameDuplicates "feed" (feed_name f) names with
              | (Status.Error c m, names') => (Status.Error c m, names')
              | (OK, names') => feed_loop feeds' names'
              end
          end
      end
  end.

(** The loop over [config.fetch()]. *)
Fixpoint fetch_loop (fetches : list Fetch) (names : Ordered.set) : Status * Ordered.set :=
  match fetches with
  | [] => (OK, names)
  | f :: fetches' =>
      match ValidateTensorId (fetch_id f) with
      | Status.Error c m => (Status.Error c m, names)
      | OK =>
          match CheckNameDuplicates "fetch" (fetch_name f) names with
          | (Status.Error c m, names') => (Status.Error c m, names')
          | (OK, names') => fetch_loop fetches' names'
          end
      end
  end.

Definition ValidateConfig (config : Config) : Status :=
  let names : Ordered.set := [] in
  let '(s, names) := feed_loop (feed config) names in
  TF_RETURN_IF_ERROR s ;;
  TF_RETURN_IF_ERROR (CheckFeedFetchNameConflicts "feed" names) ;;
  let names : Ordered.set := [] in               (* names.clear() *)
  let '(s, names) := fetch_loop (fetch config) names in
  TF_RETURN_IF_ERROR s ;;
  TF_RETURN_IF_ERROR (CheckFeedFetchNameConflicts "fetch" names) ;;
  if bool_decide (fetch config = []) then
    Status.InvalidArgument ["fetches must be specified"]
  else OK.

(** *** Every failure of the validator is an [InvalidArgument]. *)

Definition ok_or_invalid (s : Status) : Prop :=
  s = OK ∨ Status.code_is Status.INVALID_ARGUMENT s.

Lemma InvalidArgument_code args :
  Status.code_is Status.INVALID_ARGUMENT (Status.InvalidArgument args).
Proof. unfold Status.InvalidArgument. eexists. reflexivity. Qed.

#[local] Hint Resolve InvalidArgument_code : core.
#[local] Hint Unfold ok_or_invalid : core.

Lemma ValidateTensorId_code id : ok_or_invalid (ValidateTensorId id).
Proof. unfold ValidateTensorId. repeat case_match; auto. Qed.

Lemma IsValidShape_code shape : ok_or_invalid (IsValidShape shape).
Proof. unfold IsValidShape. case_match; auto. Qed.

Lemma CheckNameDuplicates_code kind name names :
  ok_or_invalid (CheckNameDuplicates kind name names).1.
Proof.
  unfold CheckNameDuplicates.
  destruct (negb _); simpl; auto.
  destruct (Ordered.set_insert name names) as [names' b].
  destruct (negb b); simpl; auto.
Qed.

Lemma conflicts_loop_code kind todo names :
  ok_or_invalid (conflicts_loop kind todo names).
Proof.
  induction todo as [|name todo IH]; simpl; auto.
  destruct (Ordered.set_contains _ names); auto.
Qed.

Lemma ok_or_invalid_error m : ok_or_invalid (Status.Error Status.INVALID_ARGUMENT m).
Proof. right. exists m. reflexivity. Qed.

#[local] Hint Resolve ok_or_invalid_error : core.

Lemma feed_loop_code feeds names : ok_or_invalid (feed_loop feeds names).1.
Proof.
  revert names. induction feeds as [|f feeds IH]; intros names; simpl; auto.
  destruct (ValidateTensorId_code (feed_id f)) as [-> | [m ->]]; [|simpl; auto].
  destruct (IsValidShape_code (feed_shape f)) as [-> | [m ->]]; [|simpl; auto].
  pose proof (CheckNameDuplicates_code "feed" (feed_name f) names) as Hd.
  destruct (CheckNameDuplicates "feed" (feed_name f) names) as [s names'].
  simpl in Hd. destruct Hd as [-> | [m ->]]; [apply IH | simpl; auto].
Qed.

Lemma fetch_loop_code fetches names : ok_or_invalid (fetch_loop fetches names).1.
Proof.
  revert names. induction fetches as [|f fetches IH]; intros names; simpl; auto.
  destruct (ValidateTensorId_code (fetch_id f)) as [-> | [m ->]]; [|simpl; auto].
  pose proof (CheckNameDuplicates_code "fetch" (fetch_name f) names) as Hd.
  destruct (CheckNameDuplicates "fetch" (fetch_name f) names) as [s names'].
  simpl in Hd. destruct Hd as [-> | [m ->]]; [apply IH | simpl; auto].
Qed.

Lemma ValidateConfig_code config : ok_or_invalid (ValidateConfig config).
Proof.
  unfold ValidateConfig.
  pose proof (feed_loop_code (feed config) []) as Hf.
  destruct (feed_loop (feed config) []) as [s names]. simpl in Hf.
  destruct Hf as [-> | [m ->]]; [|auto].
  destruct (conflicts_loop_code "feed" names names) as [He | [m He]];
    unfold CheckFeedFetchNameConflicts; rewrite He; [|auto].
  pose proof (fetch_loop_code (fetch config) []) as Hs.
  destruct (fetch_loop (fetch config) []) as [s' names']. simpl in Hs.
  destruct Hs as [-> | [m ->]]; [|auto].
  destruct (conflicts_loop_code "fetch" names' names') as [He' | [m He']];
    rewrite He'; [|auto].
  case_bool_decide; auto.
Qed.

(** C9.  A config whose fetch sequence is empty is rejected with
    [InvalidArgument], whatever its feeds are: either a feed check fails,
    and feed checks fail with [InvalidArgument], or the final
    "fetches must be specified" check does. *)
Theorem ValidateConfig_empty_fetch (config : Config) :
  fetch config = [] →
  Status.code_is Status.INVALID_ARGUMENT (ValidateConfig config).
Proof.
  intros Hempty.
  destruct (ValidateConfig_code config) as [Hok | Herr]; [|exact Herr].
  exfalso. revert Hok. unfold ValidateConfig. rewrite Hempty.
  destruct (feed_loop (feed config) []) as [s names].
  destruct s; [|discriminate].
  destruct (CheckFeedFetchNameConflicts "feed" names); [|discriminate].
  simpl. discriminate.
Qed.

Definition config_no_fetch : Config :=
  {| feed := [ {| feed_id := {| node_name := "x"; output_index := 0 |};
                  feed_shape := {| dim := [2; 3]; unknown_rank := false |};
                  feed_name := "x_in"; feed_type := 1 |} ];
     fetch := [] |}.

Lemma ValidateConfig_empty_fetch_witness :
  fetch config_no_fetch = [] ∧
  Status.code_is Status.INVALID_ARGUMENT (ValidateConfig config_no_fetch).
Proof.
  split; [reflexivity | apply (ValidateConfig_empty_fetch config_no_fetch); reflexivity].
Defined.

Example ValidateConfig_no_fetch_message :
  ValidateConfig config_no_fetch
  = Status.Error Status.INVALID_ARGUMENT "fetches must be specified".
Proof. reflexivity. Qed.

(** *** When a config is valid *)

(** The names that count: the empty name stands for "no name". *)
Definition nonempty (l : list string) : list string := filter (λ n, n ≠ "") l.

(** Names are pairwise different, and none is another one followed by
    [_data]. *)
Definition unique_names (l : list string) : Prop :=
  NoDup (nonempty l) ∧ ∀ n, n ∈ nonempty l → n +:+ "_data" ∉ nonempty l.

Definition valid_id (id : TensorId) : Prop :=
  node_name id ≠ "" ∧ 0 ≤ output_index id.

(** The checks made on a feed before its name is looked at. *)
Definition feed_checks (f : Feed) : Status :=
  TF_RETURN_IF_ERROR (ValidateTensorId (feed_id f)) ;; IsValidShape (feed_shape f).

(** The shape shared by the two loops of [ValidateConfig]: for each item the
    status of its own checks, then the check of its name. *)
Fixpoint check_loop (kind : string) (items : list (Status * string))
         (names : Ordered.set) : Status * Ordered.set :=
  match items with
  | [] => (OK, names)
  | (Status.Error c m, _) :: _ => (Status.Error c m, names)
  | (OK, n) :: items' =>
      match CheckNameDuplicates kind n names with
      | (Status.Error c m, names') => (Status.Error c m, names')
      | (OK, names') => check_loop kind items' names'
      end
  end.

Lemma feed_loop_check_loop feeds names :
  feed_loop feeds names
  = check_loop "feed" ((λ f, (feed_checks f, feed_name f)) <$> feeds) names.
Proof.
  revert names. induction feeds as [|f feeds IH]; intros names; [done|].
  rewrite fmap_cons. cbn [feed_loop check_loop]. unfold feed_checks at 1.
  destruct (ValidateTensorId (feed_id f)); [|done].
  destruct (IsValidShape (feed_shape f)); [|done].
  destruct (CheckNameDuplicates "feed" (feed_name f) names) as [[|c m] names']; [|done].
  apply IH.
Qed.

Lemma fetch_loop_check_loop fetches names :
  fetch_loop fetches names
  = check_loop "fetch"
      ((λ f, (ValidateTensorId (fetch_id f), fetch_name f)) <$> fetches) names.
Proof.
  revert names. induction fetches as [|f fetches IH]; intros names; [done|].
  rewrite fmap_cons. cbn [fetch_loop check_loop].
  destruct (ValidateTensorId (fetch_id f)); [|done].
  destruct (CheckNameDuplicates "fetch" (fetch_name f) names) as [[|c m] names']; [|done].
  apply IH.
Qed.

Lemma ValidateTensorId_OK id : ValidateTensorId id = OK ↔ valid_id id.
Proof.
  unfold ValidateTensorId, valid_id.
  destruct (String.eqb_spec (node_name id) "") as [He | He].
  - split; [discriminate | tauto].
  - destruct (Z.ltb_spec (output_index id) 0).
    + split; [discriminate|]. intros [_ ?]. lia.
    + split; [|done]. intros _. split; [done | lia].
Qed.

Lemma CheckNameDuplicates_spec kind n names :
  Ordered.set_sorted names →
  ((CheckNameDuplicates kind n names).1 = OK ↔ n = "" ∨ n ∉ names) ∧
  Ordered.set_sorted (CheckNameDuplicates kind n names).2 ∧
  (∀ y, y ∈ (CheckNameDuplicates kind n names).2 ↔ y ∈ names ∨ (y = n ∧ n ≠ "")).
Proof.
  intros Hs. unfold CheckNameDuplicates.
  destruct (String.eqb_spec n "") as [-> | Hn]; simpl.
  - split; [tauto|]. split; [done|]. intros y. tauto.
  - pose proof (Ordered.set_insert_new n names Hs) as Hnew.
    pose proof (Ordered.set_insert_sorted n names Hs) as Hsorted.
    pose proof (Ordered.set_insert_elem n names) as Helem.
    destruct (Ordered.set_insert n names) as [names' inserted]. simpl in *.
    split; [|split].
    + destruct inserted; simpl.
      * split; [|done]. intros _. right. by apply Hnew.
      * split; [done|]. intros [? | Hfresh]; [done|].
        apply Hnew in Hfresh. discriminate.
    + by destruct inserted.
    + intros y. destruct inserted; simpl; rewrite Helem; tauto.
Qed.

Lemma nonempty_cons n l :
  nonempty (n :: l) = if decide (n = "") then nonempty l else n :: nonempty l.
Proof.
  unfold nonempty. rewrite filter_cons.
  destruct (decide (n = "")); [by rewrite decide_False by tauto | by rewrite decide_True].
Qed.

Lemma check_loop_spec kind items names :
  Ordered.set_sorted names →
  ((check_loop kind items names).1 = OK ↔
   (∀ it, it ∈ items → it.1 = OK) ∧ NoDup (nonempty items.*2) ∧
   (∀ y, y ∈ nonempty items.*2 → y ∉ names)) ∧
  ((check_loop kind items names).1 = OK →
   Ordered.set_sorted (check_loop kind items names).2 ∧
   ∀ y, y ∈ (check_loop kind items names).2 ↔ y ∈ names ∨ y ∈ nonempty items.*2).
Proof.
  revert names. induction items as [|[pre n] items IH]; intros names Hs.
  - simpl. split.
    + split; [|done]. intros _. split; [by intros it ?%elem_of_nil|].
      split; [constructor | by intros y ?%elem_of_nil].
    + intros _. split; [done|]. intros y. split; [auto|].
      by intros [? | ?%elem_of_nil].
  - rewrite fmap_cons, nonempty_cons. cbn [check_loop snd].
    destruct pre as [|c m].
    2:{ simpl. split; [|discriminate]. split; [discriminate|].
        intros (Hall & _). by specialize (Hall _ (list_elem_of_here _ _)). }
    destruct (CheckNameDuplicates_spec kind n names Hs) as (Hok & Hs' & Helem).
    destruct (CheckNameDuplicates kind n names) as [[|c m] names']; simpl in *.
    + destruct (IH names' Hs') as [IH1 IH2]. split.
      * rewrite IH1. split.
        -- intros (Hall & Hnd & Hfresh). split.
           { intros it [-> | Hit]%elem_of_cons; [done | by apply Hall]. }
           destruct (decide (n = "")) as [-> | Hn].
           { split; [done|]. intros y Hy Hin. apply (Hfresh y Hy).
             apply Helem. auto. }
           split.
           { apply NoDup_cons. split; [|done]. intros Hin.
             apply (Hfresh n Hin). apply Helem. auto. }
           intros y [-> | Hy]%elem_of_cons.
           { destruct Hok as [Hok _]. destruct (Hok eq_refl); done. }
           intros Hin. apply (Hfresh y Hy). apply Helem. auto.
        -- intros (Hall & Hnd & Hfresh). split.
           { intros it Hit. by apply Hall, list_elem_of_further. }
           destruct (decide (n = "")) as [-> | Hn].
           { split; [done|]. intros y Hy [Hin | [_ ?]]%Helem; [|done].
             by apply (Hfresh y). }
           apply NoDup_cons in Hnd as [Hn' Hnd]. split; [done|].
           intros y Hy [Hin | [-> _]]%Helem; [|done].
           exact (Hfresh y (list_elem_of_further _ _ _ Hy) Hin).
      * intros Hr. destruct (IH2 Hr) as [Hsorted Hel]. split; [done|].
        intros y. rewrite Hel, Helem.
        destruct (decide (n = "")) as [-> | Hn]; [tauto|].
        rewrite elem_of_cons. tauto.
    + split; [|discriminate]. split; [discriminate|].
      intros (_ & Hnd & Hfresh). exfalso.
      assert (Hdup : ¬ (n = "" ∨ n ∉ names)).
      { intros H. apply Hok in H. discriminate. }
      destruct (decide (n = "")) as [-> | Hn]; [tauto|].
      apply Hdup. right. apply Hfresh, list_elem_of_here.
Qed.

Lemma conflicts_loop_spec kind todo names :
  conflicts_loop kind todo names = OK ↔ ∀ n, n ∈ todo → n +:+ "_data" ∉ names.
Proof.
  induction todo as [|n todo IH]; simpl.
  - split; [|done]. by intros _ n ?%elem_of_nil.
  - destruct (Ordered.set_contains (n +:+ "_data") names) eqn:Hc.
    + split; [discriminate|]. intros H. exfalso.
      apply (H n); [apply list_elem_of_here | by apply Ordered.set_contains_spec].
    + rewrite IH. split.
      * intros H m [-> | Hm]%elem_of_cons; [|by apply H].
        intros Hin%Ordered.set_contains_spec. congruence.
      * intros H m Hm. by apply H, list_elem_of_further.
Qed.

Lemma names_check_spec kind items :
  (TF_RETURN_IF_ERROR (check_loop kind items []).1 ;;
   CheckFeedFetchNameConflicts kind (check_loop kind items []).2) = OK
  ↔ (∀ it, it ∈ items → it.1 = OK) ∧ unique_names items.*2.
Proof.
  destruct (check_loop_spec kind items []) as [H1 H2]; [constructor|].
  destruct (check_loop kind items []) as [[|c m] names]; simpl in *.
  - destruct (H2 eq_refl) as [_ Hel].
    destruct H1 as [H1 _]. destruct (H1 eq_refl) as (Hall & Hnd & _).
    unfold CheckFeedFetchNameConflicts, unique_names. rewrite conflicts_loop_spec.
    split.
    + intros Hc. split; [done|]. split; [done|].
      intros n Hn Hin. apply (Hc n); apply Hel; auto.
    + intros (_ & _ & Hc) n [?%elem_of_nil | Hn]%Hel; [done|].
      intros [?%elem_of_nil | Hin]%Hel; [done|]. by apply (Hc n).
  - split; [discriminate|]. intros (Hall & Hnd & _).
    destruct H1 as [_ H1]. discriminate H1.
    split; [done|]. split; [done|]. by intros y _ ?%elem_of_nil.
Qed.

(** X1.  [ValidateConfig] accepts a config exactly when every feed and fetch
    id has a node name and a slot that is not negative, every feed shape is
    valid, the feeds' names, the empty ones apart, are pairwise different
    and none is another one followed by [_data], the same holds of the
    fetches' names on their own, and there is a fetch. *)
Theorem ValidateConfig_OK_iff (config : Config) :
  ValidateConfig config = OK ↔
  (∀ f, f ∈ feed config →
        valid_id (feed_id f) ∧ IsValidShape (feed_shape f) = OK) ∧
  unique_names (feed_name <$> feed config) ∧
  (∀ f, f ∈ fetch config → valid_id (fetch_id f)) ∧
  unique_names (fetch_name <$> fetch config) ∧
  fetch config ≠ [].
Proof.
  unfold ValidateConfig.
  rewrite feed_loop_check_loop, fetch_loop_check_loop.
  pose proof (names_check_spec "feed"
                ((λ f, (feed_checks f, feed_name f)) <$> feed config)) as Hfeed.
  pose proof (names_check_spec "fetch"
                ((λ f, (ValidateTensorId (fetch_id f), fetch_name f)) <$> fetch config))
    as Hfetch.
  rewrite <- list_fmap_compose in Hfeed. rewrite <- list_fmap_compose in Hfetch.
  change (snd ∘ (λ f, (feed_checks f, feed_name f))) with feed_name in Hfeed.
  change (snd ∘ (λ f, (ValidateTensorId (fetch_id f), fetch_name f)))
    with fetch_name in Hfetch.
  assert (Hfeed_all :
    (∀ it, it ∈ (λ f, (feed_checks f, feed_name f)) <$> feed config → it.1 = OK)
    ↔ ∀ f, f ∈ feed config → valid_id (feed_id f) ∧ IsValidShape (feed_shape f) = OK).
  { split.
    - intros H f Hf.
      specialize (H _ (list_elem_of_fmap_2 (λ f, (feed_checks f, feed_name f)) _ _ Hf)).
      simpl in H. unfold feed_checks in H. rewrite <- ValidateTensorId_OK.
      destruct (ValidateTensorId (feed_id f)); [done | discriminate].
    - intros H it (f & -> & Hf)%list_elem_of_fmap. simpl.
      destruct (H f Hf) as [Hid%ValidateTensorId_OK Hshape].
      unfold feed_checks. by rewrite Hid. }
  assert (Hfetch_all :
    (∀ it, it ∈ (λ f, (ValidateTensorId (fetch_id f), fetch_name f)) <$> fetch config
           → it.1 = OK)
    ↔ ∀ f, f ∈ fetch config → valid_id (fetch_id f)).
  { split.
    - intros H f Hf. apply ValidateTensorId_OK.
      exact (H _ (list_elem_of_fmap_2
                    (λ f, (ValidateTensorId (fetch_id f), fetch_name f)) _ _ Hf)).
    - intros H it (f & -> & Hf)%list_elem_of_fmap. simpl.
      by apply ValidateTensorId_OK, H. }
  rewrite Hfeed_all in Hfeed. rewrite Hfetch_all in Hfetch.
  destruct (check_loop "feed" _ []) as [s1 names1]. simpl in Hfeed.
  destruct s1 as [|c m].
  2:{ split; [discriminate|]. intros (H1 & H2 & _).
      destruct Hfeed as [_ Hfeed]. by discriminate Hfeed. }
  destruct (CheckFeedFetchNameConflicts "feed" names1) as [|c m].
  2:{ split; [discriminate|]. intros (H1 & H2 & _).
      destruct Hfeed as [_ Hfeed]. by discriminate Hfeed. }
  destruct Hfeed as [Hfeed _]. destruct (Hfeed eq_refl) as [Hf1 Hf2].
  destruct (check_loop "fetch" _ []) as [s2 names2]. simpl in Hfetch.
  destruct s2 as [|c m].
  2:{ split; [discriminate|]. intros (_ & _ & H1 & H2 & _).
      destruct Hfetch as [_ Hfetch]. by discriminate Hfetch. }
  destruct (CheckFeedFetchNameConflicts "fetch" names2) as [|c m].
  2:{ split; [discriminate|]. intros (_ & _ & H1 & H2 & _).
      destruct Hfetch as [_ Hfetch]. by discriminate Hfetch. }
  destruct Hfetch as [Hfetch _]. destruct (Hfetch eq_refl) as [Hg1 Hg2].
  case_bool_decide as Hempty.
  - split; [discriminate|]. intros (_ & _ & _ & _ & H). done.
  - split; [|done]. intros _. done.
Qed.

End ConfigValidator.

(** ** GetXLARandomSeed *)

Module RandomSeed.

(** Arithmetic of [uint32]: results are reduced modulo [2^32]. *)
Definition uint32 (z : Z) : Z := z mod 2 ^ 32.

(** [InitialRandomSeed]: [rd() | 1], where [rd] stands for the value the
    [std::random_device] produces. *)
Definition InitialRandomSeed (rd : Z) : Z := uint32 (Z.lor rd 1).

(** The function-local [static std::atomic<uint32> counter]: [None] until
    the first call runs its initialiser. *)
Definition State := option Z.

(** [counter.fetch_add(2)] returns the value held before the addition. *)
Definition GetXLARandomSeed (rd : Z) (counter : State) : Z * State :=
  let c := match counter with
           | Some c => c
           | None => InitialRandomSeed rd
           end in
  (c, Some (uint32 (c + 2))).

(** The seeds returned by [n] successive calls. *)
Fixpoint calls (rd : Z) (n : nat) (counter : State) : list Z :=
  match n with
  | O => []
  | S n' =>
      let '(seed, counter') := GetXLARandomSeed rd counter in
      seed :: calls rd n' counter'
  end.

Lemma uint32_odd z : Z.odd (uint32 z) = Z.odd z.
Proof.
  unfold uint32. rewrite <- !Z.bit0_odd.
  apply Z.mod_pow2_bits_low. lia.
Qed.

Lemma InitialRandomSeed_odd rd : Z.odd (InitialRandomSeed rd) = true.
Proof.
  unfold InitialRandomSeed. rewrite uint32_odd, <- Z.bit0_odd, Z.lor_spec.
  apply orb_true_r.
Qed.

Lemma uint32_idem z : uint32 (uint32 z) = uint32 z.
Proof. unfold uint32. apply Z.mod_mod. lia. Qed.

Lemma calls_lookup rd n c (i : nat) :
  (i < n)%nat →
  calls rd n (Some c) !! i = Some (if i is O then c else uint32 (c + 2 * Z.of_nat i)).
Proof.
  revert c i. induction n as [|n IH]; intros c i Hi; [lia|].
  destruct i as [|i]; [reflexivity|].
  cbn [calls GetXLARandomSeed]. rewrite lookup_cons_ne_0 by lia. cbn [Nat.pred].
  rewrite IH by lia. f_equal.
  destruct i as [|i]; [reflexivity|].
  unfold uint32. rewrite Zplus_mod_idemp_l. f_equal. lia.
Qed.

Lemma calls_lookup_init rd n (i : nat) :
  (i < n)%nat →
  calls rd n None !! i = Some (uint32 (InitialRandomSeed rd + 2 * Z.of_nat i)).
Proof.
  intros Hi. destruct n as [|n]; [lia|].
  destruct i as [|i].
  - cbn. f_equal. rewrite Z.add_0_r.
    unfold InitialRandomSeed. symmetry. apply uint32_idem.
  - cbn [calls GetXLARandomSeed]. rewrite lookup_cons_ne_0 by lia. cbn [Nat.pred].
    rewrite calls_lookup by lia. f_equal.
    destruct i as [|i]; [reflexivity|].
    unfold uint32. rewrite Zplus_mod_idemp_l. f_equal. lia.
Qed.

Lemma calls_length rd n counter : length (calls rd n counter) = n.
Proof.
  revert counter. induction n as [|n IH]; intros counter; [reflexivity|].
  cbn. now rewrite IH.
Qed.

Lemma uint32_inj_window a b :
  0 < b - a < 2 ^ 32 → uint32 a ≠ uint32 b.
Proof.
  unfold uint32. intros Hab Heq.
  assert (H0 : (b - a) mod 2 ^ 32 = 0).
  { rewrite Zminus_mod, Heq, Z.sub_diag. reflexivity. }
  rewrite Z.mod_small in H0 by lia. lia.
Qed.

(** C8.  Starting from the uninitialised counter, whatever the random
    device yields, every seed returned by a run of calls is odd (so it is
    never zero) and lies in the [uint32] range, and two calls fewer than
    [2^31] calls apart return different seeds. *)
Theorem GetXLARandomSeed_odd_no_repeat (rd : Z) (n : nat) :
  (∀ (i : nat) (s : Z),
      calls rd n None !! i = Some s →
      Z.odd s = true ∧ s ≠ 0 ∧ 0 ≤ s < 2 ^ 32) ∧
  (∀ (i j : nat) (si sj : Z),
      (i < j)%nat → Z.of_nat j - Z.of_nat i < 2 ^ 31 →
      calls rd n None !! i = Some si →
      calls rd n None !! j = Some sj →
      si ≠ sj).
Proof.
  split.
  - intros i s Hs.
    assert (Hi : (i < n)%nat).
    { apply lookup_lt_Some in Hs. now rewrite calls_length in Hs. }
    rewrite calls_lookup_init in Hs by exact Hi. injection Hs as <-.
    assert (Hodd : Z.odd (uint32 (InitialRandomSeed rd + 2 * Z.of_nat i)) = true).
    { rewrite uint32_odd, Z.odd_add_mul_2. apply InitialRandomSeed_odd. }
    split; [exact Hodd|]. split.
    + intros H0. rewrite H0 in Hodd. discriminate.
    + unfold uint32. apply Z.mod_pos_bound. lia.
  - intros i j si sj Hij Hwin Hsi Hsj.
    assert (Hj : (j < n)%nat).
    { apply lookup_lt_Some in Hsj. now rewrite calls_length in Hsj. }
    rewrite calls_lookup_init in Hsi by lia.
    rewrite calls_lookup_init in Hsj by lia.
    injection Hsi as <-. injection Hsj as <-.
    apply uint32_inj_window. lia.
Qed.

Lemma GetXLARandomSeed_odd_no_repeat_witness :
  calls 6 3 None !! 0%nat = Some 7 ∧ calls 6 3 None !! 2%nat = Some 11 ∧
  Z.odd 7 = true ∧ 7 ≠ 0 ∧ 7 ≠ 11.
Proof.
  split; [reflexivity|]. split; [reflexivity|].
  destruct (GetXLARandomSeed_odd_no_repeat 6 3) as [Hodd Hdistinct].
  destruct (Hodd 0%nat 7 eq_refl) as (H1 & H2 & _).
  split; [exact H1|]. split; [exact H2|].
  apply (Hdistinct 0%nat 2%nat 7 11); [lia | vm_compute; reflexivity | reflexivity..].
Defined.

(** The counter wraps: from [2^32 - 1] the next seed is [1]. *)
Example GetXLARandomSeed_wraps :
  calls 0 3 (Some (2 ^ 32 - 3)) = [2 ^ 32 - 3; 2 ^ 32 - 1; 1].
Proof. reflexivity. Qed.

Example GetXLARandomSeed_first_calls : calls 6 3 None = [7; 9; 11].
Proof. reflexivity. Qed.

Lemma uint32_eq_iff a b : uint32 a = uint32 b ↔ (b - a) mod 2 ^ 32 = 0.
Proof.
  unfold uint32. split; intros H.
  - rewrite Zminus_mod, H, Z.sub_diag. reflexivity.
  - replace b with (a + (b - a)) at 1 by lia.
    rewrite <- Zplus_mod_idemp_r, H, Z.add_0_r. reflexivity.
Qed.

(** X2.  The counter has period [2^31]: two calls of a run return the same
    seed exactly when the number of calls between them is a multiple of
    [2^31]. *)
Theorem GetXLARandomSeed_period (rd : Z) (n i j : nat) (si sj : Z) :
  calls rd n None !! i = Some si →
  calls rd n None !! j = Some sj →
  (si = sj ↔ (Z.of_nat j - Z.of_nat i) mod 2 ^ 31 = 0).
Proof.
  intros Hsi Hsj.
  assert (Hi : (i < n)%nat).
  { apply lookup_lt_Some in Hsi. now rewrite calls_length in Hsi. }
  assert (Hj : (j < n)%nat).
  { apply lookup_lt_Some in Hsj. now rewrite calls_length in Hsj. }
  rewrite calls_lookup_init in Hsi by exact Hi.
  rewrite calls_lookup_init in Hsj by exact Hj.
  injection Hsi as <-. injection Hsj as <-.
  rewrite uint32_eq_iff.
  replace (InitialRandomSeed rd + 2 * Z.of_nat j - (InitialRandomSeed rd + 2 * Z.of_nat i))
    with (2 * (Z.of_nat j - Z.of_nat i)) by lia.
  change (2 ^ 32) with (2 * 2 ^ 31).
  rewrite Z.mul_mod_distr_l by lia. lia.
Qed.

Lemma GetXLARandomSeed_period_witness :
  7 = 11 ↔ (Z.of_nat 2 - Z.of_nat 0) mod 2 ^ 31 = 0.
Proof.
  apply (GetXLARandomSeed_period 6 3 0 2 7 11); reflexivity.
Defined.

End RandomSeed.

(** ** GraphDef: the serialised graph (graph.proto, node_def.proto) *)

#[local] Set Warnings "-register-all".

(** [AttrValue]: the cases of its [value] oneof that this file looks at.  A
    [func] holds a [NameAttrList]: a function name and its own attributes. *)
Inductive AttrValue :=
| AV_none
| AV_s (s : string)
| AV_i (i : Z)
| AV_b (b : bool)
| AV_type (type : DataType)
| AV_shape (shape : TensorShapeProto)
| AV_func (func_name : string) (func_attr : gmap string AttrValue).

Definition has_func (v : AttrValue) : bool :=
  match v with AV_func _ _ => true | _ => false end.

Record NodeDef := {
  name : string;
  op : string;
  input : list string;
  device : string;
  attr : gmap string AttrValue
}.

Record VersionDef := { producer : Z; min_consumer : Z }.

Record FunctionDefLibrary := {
  function : list string;                (* the names of its FunctionDefs *)
  gradient : list (string * string)      (* function_name, gradient_func *)
}.

Record GraphDef := {
  node : list NodeDef;
  versions : VersionDef;
  library : FunctionDefLibrary
}.

(** [out->clear_node()] and the assignment of a new [node] field. *)
Definition set_node (g : GraphDef) (nodes : list NodeDef) : GraphDef :=
  {| node := nodes; versions := versions g; library := library g |}.

(** ** PruneGraphDefInto *)

Module GraphPruner.
Section Prune.

(** [ParseTensorName] (tensor_id.cc) is not among the sources: it maps the
    text of an input to the name of the node it refers to and an output
    slot.  The pruner is modelled for any such function. *)
Variable ParseTensorName : string → string * Z.

(** The [feed_tensors] set, filled by the loop over [config.feed()]. *)
Definition feed_tensors (config : Config) : gset (string * Z) :=
  foldl (λ s f, {[ (node_name (feed_id f), output_index (feed_id f)) ]} ∪ s)
        ∅ (feed config).

(** [node_by_name]: node name to (reached, node), filled by the loop over
    [in.node()]; a later node of the same name overwrites the entry. *)
Definition node_by_name (nodes : list NodeDef) : gmap string (bool * NodeDef) :=
  foldl (λ m nd, <[name nd := (false, nd)]> m) ∅ nodes.

(** The initial [name_queue]: front of the queue at the head of the list. *)
Definition fetch_queue (config : Config) : list string :=
  foldl (λ q f, q ++ [node_name (fetch_id f)]) [] (fetch config).

(** The loop over [map_entry.second->input()]: the producer of every input
    that is not a fed tensor is pushed. *)
Definition push_inputs (feeds : gset (string * Z)) (inputs : list string)
           (name_queue : list string) : list string :=
  foldl (λ q in_edge,
           let id := ParseTensorName in_edge in
           let node_name := id.1 in
           if decide ((node_name, id.2) ∈ feeds) then q else q ++ [node_name])
        name_queue inputs.

Definition not_found (n : string) : Status :=
  Status.InvalidArgument
    ["While pruning graph, node "; n; " needed but not found in the graph."].

(** The [while (!name_queue.empty())] loop.  Each unit of fuel pays for one
    test of the loop condition; [None] means the fuel ran out. *)
Fixpoint traverse (fuel : nat) (feeds : gset (string * Z))
         (node_by_name : gmap string (bool * NodeDef))
         (name_queue : list string)
  : option (Status * gmap string (bool * NodeDef)) :=
  match fuel with
  | O => None
  | S fuel' =>
      match name_queue with
      | [] => Some (OK, node_by_name)
      | name :: name_queue =>
          match node_by_name !! name with
          | None => Some (not_found name, node_by_name)
          | Some (true, _) => traverse fuel' feeds node_by_name name_queue
          | Some (false, nd) =>
              traverse fuel' feeds
                       (<[name := (true, nd)]> node_by_name)
                       (push_inputs feeds (input nd) name_queue)
          end
      end
  end.

(** [node_by_name[node.name()].first]; every name asked for is a key, so
    the entry that [operator[]] would create for a missing one never is. *)
Definition reached (m : gmap string (bool * NodeDef)) (n : string) : bool :=
  match m !! n with Some (b, _) => b | None => false end.

Definition PruneGraphDefInto_fuel (fuel : nat) (config : Config) (in_ : GraphDef)
  : option (Status * GraphDef) :=
  let out := set_node in_ [] in
  match traverse fuel (feed_tensors config) (node_by_name (node in_))
                 (fetch_queue config) with
  | None => None
  | Some (Status.Error c m, _) => Some (Status.Error c m, out)
  | Some (OK, m) =>
      Some (OK, set_node out (List.filter (λ nd, reached m (name nd)) (node in_)))
  end.

(** Enough fuel for the traversal of [in_]: a node is expanded at most
    once, and an expansion pushes at most as many names as the graph has
    inputs in all. *)
Definition total_inputs (nodes : list NodeDef) : nat :=
  list_sum (List.map (λ nd, length (input nd)) nodes).

Definition prune_fuel (config : Config) (in_ : GraphDef) : nat :=
  S (length (fetch config) + length (node in_) * S (total_inputs (node in_))).

(** The status and [*out].  [None] would mean that the loop does not end
    within [prune_fuel]; [PruneGraphDefInto_terminates] rules it out. *)
Definition PruneGraphDefInto (config : Config) (in_ : GraphDef)
  : option (Status * GraphDef) :=
  PruneGraphDefInto_fuel (prune_fuel config in_) config in_.

(** *** What the traversal computes *)

(** The names the fetches need, with respect to the table [m0] of the
    graph's nodes: the fetched nodes, and the producers of the inputs of a
    needed node, fed tensors apart. *)
Inductive needed (feeds : gset (string * Z)) (m0 : gmap string (bool * NodeDef))
          (roots : list string) : string → Prop :=
| needed_root n : n ∈ roots → needed feeds m0 roots n
| needed_input n b nd e :
    needed feeds m0 roots n →
    m0 !! n = Some (b, nd) →
    e ∈ input nd →
    ParseTensorName e ∉ feeds →
    needed feeds m0 roots (ParseTensorName e).1.

Definition visited (m : gmap string (bool * NodeDef)) (n : string) : Prop :=
  ∃ nd, m !! n = Some (true, nd).

(** The loop invariant, for the table [m] and the queue [q]. *)
Record traverse_inv (feeds : gset (string * Z)) (m0 : gmap string (bool * NodeDef))
       (roots : list string) (m : gmap string (bool * NodeDef)) (q : list string)
  : Prop := {
  inv_nodes : ∀ k, snd <$> m !! k = snd <$> m0 !! k;
  inv_visited : ∀ k, visited m k → needed feeds m0 roots k;
  inv_queue : ∀ k, k ∈ q → needed feeds m0 roots k;
  inv_closed : ∀ k nd e,
      m !! k = Some (true, nd) → e ∈ input nd → ParseTensorName e ∉ feeds →
      visited m (ParseTensorName e).1 ∨ (ParseTensorName e).1 ∈ q;
  inv_roots : ∀ r, r ∈ roots → visited m r ∨ r ∈ q
}.

(** *** Facts about the containers *)

Lemma node_by_name_snoc nodes nd :
  node_by_name (nodes ++ [nd]) = <[name nd := (false, nd)]> (node_by_name nodes).
Proof. unfold node_by_name. rewrite foldl_app. reflexivity. Qed.

Lemma node_by_name_lookup nodes k b nd :
  node_by_name nodes !! k = Some (b, nd) → b = false ∧ nd ∈ nodes ∧ name nd = k.
Proof.
  induction nodes as [|x nodes IH] using rev_ind.
  - unfold node_by_name. simpl. rewrite lookup_empty. discriminate.
  - rewrite node_by_name_snoc, lookup_insert. case_decide as Hk.
    + intros [= <- <-]. rewrite elem_of_app, list_elem_of_singleton. auto.
    + intros H. destruct (IH H) as (? & ? & ?).
      rewrite elem_of_app. auto.
Qed.

Lemma node_by_name_None nodes k :
  node_by_name nodes !! k = None ↔ ∀ nd, nd ∈ nodes → name nd ≠ k.
Proof.
  induction nodes as [|x nodes IH] using rev_ind.
  - unfold node_by_name. simpl. rewrite lookup_empty. split; [|done].
    intros _ nd Hnd. inversion Hnd.
  - rewrite node_by_name_snoc, lookup_insert. case_decide as Hk.
    + split; [discriminate|]. intros H. exfalso. apply (H x); [|done].
      rewrite elem_of_app, list_elem_of_singleton. auto.
    + rewrite IH. split.
      * intros H nd. rewrite elem_of_app, list_elem_of_singleton.
        intros [Hnd | ->]; [by apply H | done].
      * intros H nd Hnd. apply H. rewrite elem_of_app. auto.
Qed.

(** The table of a graph filtered by node name is the table restricted to
    the names kept. *)
Lemma node_by_name_filter (keep : string → bool) nodes k :
  node_by_name (List.filter (λ nd, keep (name nd)) nodes) !! k
  = if keep k then node_by_name nodes !! k else None.
Proof.
  induction nodes as [|x nodes IH] using rev_ind.
  - simpl. unfold node_by_name. simpl. rewrite lookup_empty. by destruct (keep k).
  - rewrite List.filter_app. simpl.
    destruct (keep (name x)) eqn:Hx.
    + rewrite !node_by_name_snoc, !lookup_insert. case_decide as Hk.
      * subst k. by rewrite Hx.
      * exact IH.
    + rewrite app_nil_r, IH, node_by_name_snoc, lookup_insert.
      case_decide as Hk; [|done]. subst k. by rewrite Hx.
Qed.

Lemma feed_tensors_spec config p :
  p ∈ feed_tensors config ↔
  ∃ f, f ∈ feed config ∧ p = (node_name (feed_id f), output_index (feed_id f)).
Proof.
  unfold feed_tensors.
  assert (Hgen : ∀ feeds (s : gset (string * Z)),
    p ∈ foldl (λ s f, {[ (node_name (feed_id f), output_index (feed_id f)) ]} ∪ s) s feeds
    ↔ p ∈ s ∨ ∃ f, f ∈ feeds ∧ p = (node_name (feed_id f), output_index (feed_id f))).
  { induction feeds as [|f feeds IH]; intros s; simpl.
    - split; [auto|]. intros [H | (f & Hf & _)]; [done | inversion Hf].
    - rewrite IH, elem_of_union, elem_of_singleton. split.
      + intros [[-> | H] | (f' & Hf' & ->)]; eauto using list_elem_of_here, list_elem_of_further.
      + intros [H | (f' & Hf' & ->)]; [auto|].
        apply elem_of_cons in Hf' as [-> | Hf']; eauto. }
  rewrite Hgen. split; [|auto]. intros [H | H]; [|done]. set_solver.
Qed.

Lemma fetch_queue_spec config n :
  n ∈ fetch_queue config ↔ ∃ f, f ∈ fetch config ∧ n = node_name (fetch_id f).
Proof.
  unfold fetch_queue.
  assert (Hgen : ∀ fetches (q : list string),
    n ∈ foldl (λ q f, q ++ [node_name (fetch_id f)]) q fetches
    ↔ n ∈ q ∨ ∃ f, f ∈ fetches ∧ n = node_name (fetch_id f)).
  { induction fetches as [|f fetches IH]; intros q; simpl.
    - split; [auto|]. intros [H | (f & Hf & _)]; [done | inversion Hf].
    - rewrite IH, elem_of_app, list_elem_of_singleton. split.
      + intros [[H | ->] | (f' & Hf' & ->)]; eauto using list_elem_of_here, list_elem_of_further.
      + intros [H | (f' & Hf' & ->)]; [auto|].
        apply elem_of_cons in Hf' as [-> | Hf']; eauto. }
  rewrite Hgen. split; [|auto]. intros [H | H]; [inversion H | done].
Qed.

Lemma fetch_queue_length config : length (fetch_queue config) = length (fetch config).
Proof.
  unfold fetch_queue.
  assert (Hgen : ∀ fetches (q : list string),
    length (foldl (λ q f, q ++ [node_name (fetch_id f)]) q fetches)
    = (length q + length fetches)%nat).
  { induction fetches as [|f fetches IH]; intros q; simpl; [lia|].
    rewrite IH, length_app. simpl. lia. }
  by rewrite Hgen.
Qed.

Lemma push_inputs_spec feeds inputs q k :
  k ∈ push_inputs feeds inputs q ↔
  k ∈ q ∨ ∃ e, e ∈ inputs ∧ (ParseTensorName e ∉ feeds) ∧ (ParseTensorName e).1 = k.
Proof.
  unfold push_inputs. revert q.
  induction inputs as [|e inputs IH]; intros q; simpl.
  - split; [auto|]. intros [H | (e & He & _)]; [done | inversion He].
  - rewrite IH. destruct (ParseTensorName e) as [n slot] eqn:He. simpl.
    case_decide as Hfed.
    + split.
      * intros [H | (e' & He' & Hn & <-)]; eauto 6 using list_elem_of_further.
      * intros [H | (e' & He' & Hn & <-)]; [auto|].
        apply elem_of_cons in He' as [-> | He']; [|eauto 6].
        rewrite He in Hn. done.
    + rewrite elem_of_app, list_elem_of_singleton. split.
      * intros [[H | ->] | (e' & He' & Hn & <-)]; eauto 6 using list_elem_of_further.
        right. exists e. rewrite He. eauto using list_elem_of_here.
      * intros [H | (e' & He' & Hn & <-)]; [auto|].
        apply elem_of_cons in He' as [-> | He']; [|eauto 6].
        rewrite He. auto.
Qed.

Lemma push_inputs_length feeds inputs q :
  (length (push_inputs feeds inputs q) ≤ length q + length inputs)%nat.
Proof.
  unfold push_inputs. revert q.
  induction inputs as [|e inputs IH]; intros q; simpl; [lia|].
  etrans; [apply IH|]. case_decide; rewrite ?length_app; simpl; lia.
Qed.

(** *** The loop invariant *)

Section Invariant.

Variable feeds : gset (string * Z).
Variable m0 : gmap string (bool * NodeDef).
Variable roots : list string.

Abbreviation inv := (traverse_inv feeds m0 roots).
Abbreviation need := (needed feeds m0 roots).

Hypothesis m0_fresh : ∀ k b nd, m0 !! k = Some (b, nd) → b = false.

Lemma inv_init : inv m0 roots.
Proof.
  split; auto.
  - intros k [nd Hk]. by apply m0_fresh in Hk.
  - intros k Hk. by apply needed_root.
  - intros k nd e Hk. by apply m0_fresh in Hk.
Qed.

Lemma inv_skip m k q nd :
  inv m (k :: q) → m !! k = Some (true, nd) → inv m q.
Proof.
  intros [Hn Hv Hq Hc Hr] Hk. split; auto.
  - intros k' Hk'. apply Hq. by apply list_elem_of_further.
  - intros k' nd' e Hk' He Hfed.
    destruct (Hc k' nd' e Hk' He Hfed) as [H | H]; [auto|].
    apply elem_of_cons in H as [-> | H']; [left; by exists nd | auto].
  - intros r Hroot.
    destruct (Hr r Hroot) as [H | H]; [auto|].
    apply elem_of_cons in H as [-> | H']; [left; by exists nd | auto].
Qed.

Lemma visited_insert m k nd k' :
  visited m k' ∨ k' = k → visited (<[k := (true, nd)]> m) k'.
Proof.
  unfold visited. rewrite lookup_insert. case_decide as Hd; [eauto|].
  intros [Hv | Hv]; [exact Hv | congruence].
Qed.

Lemma inv_visit m k q nd :
  inv m (k :: q) → m !! k = Some (false, nd) →
  inv (<[k := (true, nd)]> m) (push_inputs feeds (input nd) q).
Proof.
  intros [Hn Hv Hq Hc Hr] Hk.
  assert (Hneed : need k) by (apply Hq, list_elem_of_here).
  assert (Hm0 : ∃ b, m0 !! k = Some (b, nd)).
  { specialize (Hn k). rewrite Hk in Hn. simpl in Hn.
    destruct (m0 !! k) as [[b nd']|]; [|discriminate].
    injection Hn as ->. eauto. }
  destruct Hm0 as [b0 Hm0].
  split.
  - intros k'. rewrite lookup_insert. case_decide as Hkk; [|apply Hn].
    subst k'. rewrite <- Hn, Hk. reflexivity.
  - intros k' [nd' Hk']. rewrite lookup_insert in Hk'. case_decide; [by subst|].
    apply Hv. by exists nd'.
  - intros k'. rewrite push_inputs_spec.
    intros [H | (e & He & Hfed & <-)].
    + apply Hq. by apply list_elem_of_further.
    + by eapply needed_input.
  - intros k' nd' e Hk' He Hfed. rewrite push_inputs_spec.
    rewrite lookup_insert in Hk'. case_decide as Hkk.
    + injection Hk' as <-. right. right. eauto.
    + destruct (Hc k' nd' e Hk' He Hfed) as [H | H].
      * left. apply visited_insert. auto.
      * apply elem_of_cons in H as [H' | H']; [|auto].
        left. apply visited_insert. auto.
  - intros r Hroot. rewrite push_inputs_spec.
    destruct (Hr r Hroot) as [H | H].
    + left. apply visited_insert. auto.
    + apply elem_of_cons in H as [H' | H']; [|auto].
      left. apply visited_insert. auto.
Qed.

(** When the queue is empty, the reached names are the needed ones. *)
Lemma inv_final m k : inv m [] → (reached m k = true ↔ need k).
Proof.
  intros [Hn Hv Hq Hc Hr].
  assert (Hreached : ∀ k, reached m k = true ↔ visited m k).
  { intros k'. unfold reached, visited.
    destruct (m !! k') as [[[] nd]|]; split; try done; eauto.
    - intros [? [=]].
    - intros [? [=]]. }
  rewrite Hreached. split; [apply Hv|].
  induction 1 as [r Hroot | n b nd e Hneed IH Hm Hin Hfed].
  - destruct (Hr r Hroot) as [H | H]; [exact H | inversion H].
  - destruct IH as [nd' Hn'].
    assert (nd' = nd) as ->.
    { specialize (Hn n). rewrite Hn', Hm in Hn. by injection Hn. }
    destruct (Hc n nd e Hn' Hin Hfed) as [H | H]; [exact H | inversion H].
Qed.

(** The traversal ends reporting a needed name that the graph lacks, or
    with exactly the needed names reached. *)
Lemma traverse_sound fuel m q s m' :
  traverse fuel feeds m q = Some (s, m') → inv m q →
  (s = OK ∧ inv m' []) ∨ (∃ k, s = not_found k ∧ need k ∧ m0 !! k = None).
Proof.
  revert m q. induction fuel as [|fuel IH]; intros m q; [discriminate|].
  simpl. destruct q as [|k q].
  - intros [= <- <-] Hinv. auto.
  - destruct (m !! k) as [[[] nd]|] eqn:Hk.
    + intros Ht Hinv. eapply IH; [exact Ht|]. eapply inv_skip; eauto.
    + intros Ht Hinv. eapply IH; [exact Ht|]. by apply inv_visit.
    + intros [= <- <-] Hinv. right. exists k. split; [done|].
      split; [apply (inv_queue _ _ _ _ _ Hinv), list_elem_of_here|].
      pose proof (inv_nodes _ _ _ _ _ Hinv k) as Hn. rewrite Hk in Hn.
      destruct (m0 !! k); [discriminate | done].
Qed.

End Invariant.

(** *** The traversal ends within [prune_fuel] *)

(** The nodes of [nodes] whose name is not reached yet. *)
Definition unreached (nodes : list NodeDef) (m : gmap string (bool * NodeDef)) : nat :=
  length (List.filter (λ nd, negb (reached m (name nd))) nodes).

(** Every entry of the table holds a node of the graph under its name. *)
Definition table_of (nodes : list NodeDef) (m : gmap string (bool * NodeDef)) : Prop :=
  ∀ k b nd, m !! k = Some (b, nd) → nd ∈ nodes ∧ name nd = k.

Lemma reached_insert m k nd k' :
  reached (<[k := (true, nd)]> m) k' = if decide (k = k') then true else reached m k'.
Proof. unfold reached. rewrite lookup_insert. by case_decide. Qed.

Lemma unreached_insert_le nodes m k nd :
  (unreached nodes (<[k := (true, nd)]> m) ≤ unreached nodes m)%nat.
Proof.
  unfold unreached. induction nodes as [|x nodes IH]; simpl; [lia|].
  rewrite reached_insert. case_decide; simpl.
  - destruct (negb (reached m (name x))); simpl; lia.
  - destruct (negb (reached m (name x))); simpl; lia.
Qed.

Lemma unreached_insert_lt nodes m k nd :
  reached m k = false → (∃ x, x ∈ nodes ∧ name x = k) →
  (unreached nodes (<[k := (true, nd)]> m) < unreached nodes m)%nat.
Proof.
  intros Hk (x & Hx & <-).
  induction Hx as [x nodes | x y nodes Hx IH].
  - pose proof (unreached_insert_le nodes m (name x) nd) as Hle.
    unfold unreached in *. simpl.
    rewrite reached_insert, decide_True by done. rewrite Hk. simpl. lia.
  - specialize (IH Hk). unfold unreached in *. simpl. rewrite reached_insert.
    case_decide as Hxy; simpl.
    + rewrite <- Hxy, Hk. simpl. lia.
    + destruct (negb (reached m (name y))); simpl; lia.
Qed.

Lemma unreached_le_length nodes m : (unreached nodes m ≤ length nodes)%nat.
Proof. unfold unreached. apply List.filter_length_le. Qed.

Lemma total_inputs_ge nodes nd :
  nd ∈ nodes → (length (input nd) ≤ total_inputs nodes)%nat.
Proof.
  unfold total_inputs. induction 1 as [x nodes | x y nodes Hx IH]; simpl; lia.
Qed.

Lemma table_of_init nodes : table_of nodes (node_by_name nodes).
Proof. intros k b nd H. apply node_by_name_lookup in H. tauto. Qed.

Lemma table_of_insert nodes m k nd :
  table_of nodes m → m !! k = Some (false, nd) →
  table_of nodes (<[k := (true, nd)]> m).
Proof.
  intros Ht Hk k' b nd'. rewrite lookup_insert. case_decide.
  - intros [= <- <-]. subst k'. eapply Ht, Hk.
  - apply Ht.
Qed.

Lemma traverse_fuel_enough nodes feeds fuel m q :
  table_of nodes m →
  (length q + unreached nodes m * S (total_inputs nodes) < fuel)%nat →
  is_Some (traverse fuel feeds m q).
Proof.
  revert m q. induction fuel as [|fuel IH]; intros m q Ht Hfuel; [lia|].
  simpl. destruct q as [|k q]; [eauto|].
  destruct (m !! k) as [[[] nd]|] eqn:Hk; [| |eauto].
  - apply IH; [done|]. simpl in Hfuel. lia.
  - apply IH; [by apply table_of_insert|].
    destruct (Ht _ _ _ Hk) as [Hnd Hname].
    pose proof (push_inputs_length feeds (input nd) q).
    pose proof (total_inputs_ge _ _ Hnd).
    assert (reached m k = false) as Hr by (unfold reached; by rewrite Hk).
    pose proof (unreached_insert_lt nodes m k nd Hr (ex_intro _ nd (conj Hnd Hname))).
    simpl in Hfuel. nia.
Qed.

Theorem PruneGraphDefInto_terminates config in_ :
  is_Some (PruneGraphDefInto config in_).
Proof.
  unfold PruneGraphDefInto, PruneGraphDefInto_fuel.
  destruct (traverse_fuel_enough (node in_) (feed_tensors config)
              (prune_fuel config in_) (node_by_name (node in_)) (fetch_queue config))
    as [[s m] ->].
  - apply table_of_init.
  - unfold prune_fuel. rewrite fetch_queue_length.
    pose proof (unreached_le_length (node in_) (node_by_name (node in_))). nia.
  - destruct s; eauto.
Qed.

(** *** What pruning returns *)

(** The names needed from the graph [g] under [config]. *)
Definition needs (config : Config) (g : GraphDef) : string → Prop :=
  needed (feed_tensors config) (node_by_name (node g)) (fetch_queue config).

Lemma node_by_name_fresh nodes k b nd :
  node_by_name nodes !! k = Some (b, nd) → b = false.
Proof. intros H. apply node_by_name_lookup in H. tauto. Qed.

Lemma prune_ok config g out :
  PruneGraphDefInto config g = Some (OK, out) →
  ∃ keep : string → bool,
    (∀ k, keep k = true ↔ needs config g k) ∧
    out = set_node g (List.filter (λ nd, keep (name nd)) (node g)) ∧
    (∀ k, needs config g k → is_Some (node_by_name (node g) !! k)).
Proof.
  unfold PruneGraphDefInto, PruneGraphDefInto_fuel.
  destruct (traverse _ _ _ _) as [[s m]|] eqn:Ht; [|discriminate].
  destruct s; [|discriminate]. intros [= <-].
  eapply traverse_sound in Ht as [[_ Hinv] | (k & [=] & _)];
    [|apply inv_init, node_by_name_fresh].
  exists (reached m). split; [|split; [reflexivity|]].
  - intros k. by apply inv_final.
  - intros k Hk. apply (inv_final _ _ _ _ _ Hinv) in Hk.
    pose proof (inv_nodes _ _ _ _ _ Hinv k) as Hn.
    unfold reached in Hk. destruct (m !! k) as [[b nd]|]; [|discriminate].
    destruct (node_by_name (node g) !! k); [eauto | discriminate].
Qed.

Lemma prune_error config g c msg out :
  PruneGraphDefInto config g = Some (Status.Error c msg, out) →
  out = set_node g [] ∧
  ∃ k, Status.Error c msg = not_found k ∧ needs config g k ∧
       node_by_name (node g) !! k = None.
Proof.
  unfold PruneGraphDefInto, PruneGraphDefInto_fuel.
  destruct (traverse _ _ _ _) as [[s m]|] eqn:Ht; [|discriminate].
  destruct s as [|c' msg']; [discriminate|]. intros [= <- <- <-].
  split; [reflexivity|].
  eapply traverse_sound in Ht as [[[=] _] | (k & Hs & Hneed & Hnone)];
    [|apply inv_init, node_by_name_fresh].
  eauto.
Qed.

Lemma prune_complete config g :
  (∀ k, needs config g k → is_Some (node_by_name (node g) !! k)) →
  ∃ out, PruneGraphDefInto config g = Some (OK, out).
Proof.
  intros Hall.
  destruct (PruneGraphDefInto_terminates config g) as [[s out] Hp].
  destruct s as [|c msg]; [eauto|].
  apply prune_error in Hp as (_ & k & _ & Hneed & Hnone).
  apply Hall in Hneed as [? Hsome]. congruence.
Qed.

(** *** Reachability over the nodes of the graph *)

(** [(n, slot)] is declared as a feed tensor of [config]. *)
Definition fed (config : Config) (p : string * Z) : Prop :=
  ∃ f, f ∈ feed config ∧ p = (node_name (feed_id f), output_index (feed_id f)).

(** The node names that a fetch reaches backwards along input edges: the
    fetched names, and the producer of each input of a reached node of the
    graph, unless the (producer, slot) pair read by the input is fed. *)
Inductive reachable (config : Config) (g : GraphDef) : string → Prop :=
| reach_fetch f :
    f ∈ fetch config → reachable config g (node_name (fetch_id f))
| reach_input nd e :
    nd ∈ node g → reachable config g (name nd) →
    e ∈ input nd → ¬ fed config (ParseTensorName e) →
    reachable config g (ParseTensorName e).1.

Lemma node_by_name_NoDup nodes nd :
  NoDup (name <$> nodes) → nd ∈ nodes →
  node_by_name nodes !! name nd = Some (false, nd).
Proof.
  induction nodes as [|x nodes IH] using rev_ind; [inversion 2|].
  rewrite fmap_app, NoDup_app. simpl. intros (Hnodes & Hfresh & _).
  rewrite elem_of_app, list_elem_of_singleton, node_by_name_snoc.
  intros [Hnd | ->]; [|by rewrite lookup_insert_eq].
  rewrite lookup_insert_ne; [by apply IH|].
  intros Hname. apply (Hfresh (name x)).
  - rewrite Hname. apply list_elem_of_fmap. eauto.
  - apply list_elem_of_here.
Qed.

Lemma needs_reachable config g k : needs config g k → reachable config g k.
Proof.
  induction 1 as [r Hroot | n b nd e Hneed IH Hm Hin Hfed].
  - apply fetch_queue_spec in Hroot as (f & Hf & ->). by apply reach_fetch.
  - apply node_by_name_lookup in Hm as (_ & Hnd & <-).
    apply reach_input with nd; auto.
    intros Hf. apply Hfed, feed_tensors_spec, Hf.
Qed.

Lemma reachable_needs config g k :
  NoDup (name <$> node g) → reachable config g k → needs config g k.
Proof.
  intros Hnodup. induction 1 as [f Hf | nd e Hnd Hreach IH Hin Hfed].
  - apply needed_root, fetch_queue_spec. eauto.
  - eapply needed_input; [exact IH | by apply node_by_name_NoDup | exact Hin |].
    intros Hf. apply Hfed, feed_tensors_spec, Hf.
Qed.

(** C1.  When pruning a graph whose node names are unique succeeds, the
    output is the input graph filtered by reachability: a node is kept
    exactly when its name is a fetch target or is reached backwards from
    one along inputs that do not read a fed (node, slot) pair; the kept
    nodes stand in their order in the input; the rest of the GraphDef is
    copied.  (For a GraphDef that repeats a name, [prune_ok] says the same
    with the inputs of a name read from the last node that bears it.) *)
Theorem PruneGraphDefInto_reachable (config : Config) (g out : GraphDef) :
  NoDup (name <$> node g) →
  PruneGraphDefInto config g = Some (OK, out) →
  (∃ keep : NodeDef → bool,
      node out = List.filter keep (node g) ∧
      ∀ nd, nd ∈ node g → (keep nd = true ↔ reachable config g (name nd))) ∧
  (∀ nd, nd ∈ node out ↔ nd ∈ node g ∧ reachable config g (name nd)) ∧
  versions out = versions g ∧ library out = library g.
Proof.
  intros Hnodup Hprune.
  apply prune_ok in Hprune as (keep & Hkeep & -> & _).
  assert (Hiff : ∀ k, keep k = true ↔ reachable config g k).
  { intros k. rewrite Hkeep. split; [apply needs_reachable | by apply reachable_needs]. }
  simpl. split; [|split; [|done]].
  - exists (λ nd, keep (name nd)). split; [done|]. intros nd _. apply Hiff.
  - intros nd. rewrite list_elem_of_In, List.filter_In, <- list_elem_of_In, Hiff. done.
Qed.

(** The names needed from a pruned graph are the names needed from the
    graph it was pruned from. *)
Lemma needs_pruned config g (keep : string → bool) k :
  (∀ k, keep k = true ↔ needs config g k) →
  needs config (set_node g (List.filter (λ nd, keep (name nd)) (node g))) k
  ↔ needs config g k.
Proof.
  intros Hkeep. unfold needs at 1. simpl. split.
  - induction 1 as [r Hroot | n b nd e Hneed IH Hm Hin Hfed].
    + by apply needed_root.
    + rewrite node_by_name_filter in Hm.
      destruct (keep n); [|discriminate]. by eapply needed_input.
  - induction 1 as [r Hroot | n b nd e Hneed IH Hm Hin Hfed].
    + by apply needed_root.
    + eapply needed_input; [exact IH | | exact Hin | exact Hfed].
      rewrite node_by_name_filter.
      apply Hkeep in Hneed. by rewrite Hneed.
Qed.

Lemma filter_all {A} (f : A → bool) (l : list A) :
  (∀ x, x ∈ l → f x = true) → List.filter f l = l.
Proof.
  induction l as [|x l IH]; intros Hall; [done|]. simpl.
  rewrite (Hall x) by apply list_elem_of_here.
  f_equal. apply IH. intros y Hy. by apply Hall, list_elem_of_further.
Qed.

(** C6.  Pruning is idempotent: pruning the output of a successful pruning
    again, under the same config, succeeds and returns that output. *)
Theorem PruneGraphDefInto_idempotent (config : Config) (g out : GraphDef) :
  PruneGraphDefInto config g = Some (OK, out) →
  PruneGraphDefInto config out = Some (OK, out).
Proof.
  intros Hprune.
  apply prune_ok in Hprune as (keep & Hkeep & -> & Hfound).
  set (out := set_node g (List.filter (λ nd, keep (name nd)) (node g))).
  assert (Hneeds : ∀ k, needs config out k ↔ needs config g k)
    by (intros k; by apply needs_pruned).
  destruct (prune_complete config out) as [out2 Hout2].
  { intros k Hk. apply Hneeds in Hk. simpl.
    rewrite node_by_name_filter.
    pose proof Hk as Hk'. apply Hkeep in Hk' as ->. by apply Hfound. }
  rewrite Hout2. do 2 f_equal.
  apply prune_ok in Hout2 as (keep2 & Hkeep2 & -> & _).
  unfold out, set_node. simpl. f_equal.
  apply filter_all. intros nd.
  rewrite list_elem_of_In, List.filter_In. intros [_ Hnd].
  apply Hkeep2, Hneeds, Hkeep, Hnd.
Qed.

(** *** More on what pruning returns *)

Lemma traverse_fuel_mono fuel fuel' feeds m q r :
  traverse fuel feeds m q = Some r → (fuel ≤ fuel')%nat →
  traverse fuel' feeds m q = Some r.
Proof.
  revert fuel' m q. induction fuel as [|fuel IH]; intros fuel' m q; [discriminate|].
  intros Ht Hle. destruct fuel' as [|fuel']; [lia|].
  simpl in *. destruct q as [|k q]; [done|].
  destruct (m !! k) as [[[] nd]|]; [| |done]; apply IH; [done | lia | done | lia].
Qed.

(** X3.  The traversal ends on every graph, cyclic ones included: pruning
    returns a result within [prune_fuel] iterations of the loop, and the
    result is the same for any larger number. *)
Theorem PruneGraphDefInto_total (config : Config) (in_ : GraphDef) :
  ∃ r, PruneGraphDefInto config in_ = Some r ∧
       ∀ fuel, (prune_fuel config in_ ≤ fuel)%nat →
               PruneGraphDefInto_fuel fuel config in_ = Some r.
Proof.
  destruct (PruneGraphDefInto_terminates config in_) as [r Hr].
  exists r. split; [exact Hr|]. intros fuel Hfuel.
  unfold PruneGraphDefInto, PruneGraphDefInto_fuel in *.
  destruct (traverse (prune_fuel config in_) _ _ _) as [t|] eqn:Ht; [|discriminate].
  by rewrite (traverse_fuel_mono _ fuel _ _ _ _ Ht Hfuel).
Qed.

(** X4.  When pruning fails, the output graph has no node and the error is
    InvalidArgument, naming a node that the fetches reach and the graph does
    not have. *)
Theorem PruneGraphDefInto_failure (config : Config) (g out : GraphDef) c msg :
  PruneGraphDefInto config g = Some (Status.Error c msg, out) →
  out = set_node g [] ∧ c = Status.INVALID_ARGUMENT ∧
  ∃ k, msg = "While pruning graph, node " +:+ k
             +:+ " needed but not found in the graph." ∧
       reachable config g k ∧
       ∀ nd, nd ∈ node g → name nd ≠ k.
Proof.
  intros Hp. apply prune_error in Hp as (-> & k & Hmsg & Hneed & Hnone).
  unfold not_found, Status.InvalidArgument in Hmsg. injection Hmsg as -> ->.
  split; [done|]. split; [done|]. exists k.
  split; [reflexivity|]. split; [by apply needs_reachable|].
  by apply node_by_name_None.
Qed.

(** X5.  On a graph whose node names are unique, pruning succeeds exactly
    when every node name that the fetches reach is the name of a node. *)
Theorem PruneGraphDefInto_succeeds_iff (config : Config) (g : GraphDef) :
  NoDup (name <$> node g) →
  (∃ out, PruneGraphDefInto config g = Some (OK, out)) ↔
  (∀ k, reachable config g k → ∃ nd, nd ∈ node g ∧ name nd = k).
Proof.
  intros Hnodup. split.
  - intros [out Hp] k Hk. apply prune_ok in Hp as (_ & _ & _ & Hfound).
    destruct (Hfound k (reachable_needs config g k Hnodup Hk)) as [[b nd] Hnd].
    apply node_by_name_lookup in Hnd as (_ & Hin & Hname). eauto.
  - intros Hall. apply prune_complete. intros k Hk%needs_reachable.
    destruct (Hall k Hk) as (nd & Hnd & Hname).
    destruct (node_by_name (node g) !! k) eqn:Hlook; [eauto|].
    rewrite node_by_name_None in Hlook. by destruct (Hlook nd Hnd).
Qed.

Lemma needs_no_fetch config g k : fetch config = [] → ¬ needs config g k.
Proof.
  intros Hempty. unfold needs, fetch_queue. rewrite Hempty. simpl.
  induction 1 as [r Hroot | n b nd e Hneed IH Hm Hin Hfed]; [|done].
  by apply elem_of_nil in Hroot.
Qed.

(** X6.  Without a fetch nothing is needed: pruning succeeds and returns the
    graph with no node, whatever the graph holds. *)
Theorem PruneGraphDefInto_no_fetch (config : Config) (g : GraphDef) :
  fetch config = [] →
  PruneGraphDefInto config g = Some (OK, set_node g []).
Proof.
  intros Hempty.
  destruct (prune_complete config g) as [out Hout].
  { intros k Hk. by apply needs_no_fetch in Hk. }
  rewrite Hout. do 2 f_equal.
  apply prune_ok in Hout as (keep & Hkeep & -> & _). f_equal.
  induction (node g) as [|nd nodes IH]; [done|]. simpl.
  destruct (keep (name nd)) eqn:Hk; [|exact IH].
  apply Hkeep in Hk. by apply needs_no_fetch in Hk.
Qed.

(** X7.  Every fetched node is in the pruned graph, also when the fetched
    tensor is itself fed. *)
Theorem PruneGraphDefInto_keeps_fetches (config : Config) (g out : GraphDef) f :
  PruneGraphDefInto config g = Some (OK, out) →
  f ∈ fetch config →
  ∃ nd, nd ∈ node out ∧ name nd = node_name (fetch_id f).
Proof.
  intros Hp Hf. apply prune_ok in Hp as (keep & Hkeep & -> & Hfound).
  assert (Hneed : needs config g (node_name (fetch_id f))).
  { apply needed_root, fetch_queue_spec. eauto. }
  destruct (Hfound _ Hneed) as [[b nd] Hnd].
  apply node_by_name_lookup in Hnd as (_ & Hin & Hname).
  exists nd. split; [|done]. simpl.
  apply list_elem_of_In, List.filter_In. split; [by apply list_elem_of_In|].
  rewrite Hname. by apply Hkeep.
Qed.

(** X8.  The pruned graph is closed under the inputs that are not fed: the
    producer of every input of a kept node, unless the input reads a fed
    tensor, is a kept node. *)
Theorem PruneGraphDefInto_closed (config : Config) (g out : GraphDef) nd e :
  NoDup (name <$> node g) →
  PruneGraphDefInto config g = Some (OK, out) →
  nd ∈ node out → e ∈ input nd → ¬ fed config (ParseTensorName e) →
  ∃ nd', nd' ∈ node out ∧ name nd' = (ParseTensorName e).1.
Proof.
  intros Hnodup Hp Hnd He Hfed.
  apply prune_ok in Hp as (keep & Hkeep & -> & Hfound). simpl in *.
  apply list_elem_of_In, List.filter_In in Hnd as [Hnd%list_elem_of_In Hk].
  apply Hkeep in Hk.
  assert (Hneed : needs config g (ParseTensorName e).1).
  { eapply needed_input; [exact Hk | by apply node_by_name_NoDup | exact He |].
    intros Hf. apply Hfed, feed_tensors_spec, Hf. }
  destruct (Hfound _ Hneed) as [[b nd'] Hnd'].
  apply node_by_name_lookup in Hnd' as (_ & Hin & Hname).
  exists nd'. split; [|done].
  apply list_elem_of_In, List.filter_In. split; [by apply list_elem_of_In|].
  rewrite Hname. by apply Hkeep.
Qed.

Lemma needs_more_feeds c1 c2 g k :
  (∀ f, f ∈ feed c1 → f ∈ feed c2) → fetch c1 = fetch c2 →
  needs c2 g k → needs c1 g k.
Proof.
  intros Hfeeds Hfetch. unfold needs, fetch_queue. rewrite Hfetch.
  induction 1 as [r Hroot | n b nd e Hneed IH Hm Hin Hfed].
  - by apply needed_root.
  - eapply needed_input; [exact IH | exact Hm | exact Hin |].
    intros (f & Hf & Heq)%feed_tensors_spec. apply Hfed, feed_tensors_spec.
    eauto.
Qed.

(** X9.  Feeds only cut: when pruning succeeds under a config, it succeeds
    under any config with the same fetches and more feeds, and keeps no
    node that it did not keep before. *)
Theorem PruneGraphDefInto_more_feeds (c1 c2 : Config) (g out1 : GraphDef) :
  (∀ f, f ∈ feed c1 → f ∈ feed c2) → fetch c1 = fetch c2 →
  PruneGraphDefInto c1 g = Some (OK, out1) →
  ∃ out2, PruneGraphDefInto c2 g = Some (OK, out2) ∧
          ∀ nd, nd ∈ node out2 → nd ∈ node out1.
Proof.
  intros Hfeeds Hfetch Hp1.
  apply prune_ok in Hp1 as (keep1 & Hkeep1 & -> & Hfound1).
  destruct (prune_complete c2 g) as [out2 Hp2].
  { intros k Hk. by apply Hfound1, (needs_more_feeds c1 c2). }
  exists out2. split; [exact Hp2|].
  apply prune_ok in Hp2 as (keep2 & Hkeep2 & -> & _). simpl.
  intros nd [Hnd Hk]%list_elem_of_In%List.filter_In.
  apply list_elem_of_In, List.filter_In. split; [done|].
  by apply Hkeep1, (needs_more_feeds c1 c2), Hkeep2.
Qed.

End Prune.

(** *** Examples *)

(** A reading of the three textual forms of an input, [name],
    [name:digits] and [^name] (a control input, at slot [-1]), given to the
    pruner as its [ParseTensorName] in the examples. *)
Definition is_digit (c : ascii) : bool :=
  let n := nat_of_ascii c in (48 <=? n)%nat && (n <=? 57)%nat.

(** Splits the reversed text after its leading digits, leaving at least
    one character: the digits read, most significant first, and the rest. *)
Fixpoint trailing_digits (rev_text : list ascii) (digits : list ascii)
  : list ascii * list ascii :=
  match rev_text with
  | c :: ((_ :: _) as rest) =>
      if is_digit c then trailing_digits rest (c :: digits) else (digits, rev_text)
  | _ => (digits, rev_text)
  end.

Definition digits_value (digits : list ascii) : Z :=
  foldl (λ acc c, 10 * acc + (Z.of_nat (nat_of_ascii c) - 48)) 0 digits.

Definition parse_tensor_name (text : string) : string * Z :=
  let chars := String.list_ascii_of_string text in
  match trailing_digits (rev chars) [] with
  | ((_ :: _) as digits, ":"%char :: ((_ :: _) as rev_name)) =>
      (String.string_of_list_ascii (rev rev_name), digits_value digits)
  | _ =>
      match chars with
      | "^"%char :: rest => (String.string_of_list_ascii rest, -1)
      | _ => (text, 0)
      end
  end.

Example parse_tensor_name_forms :
  parse_tensor_name "A" = ("A", 0) ∧
  parse_tensor_name "A:12" = ("A", 12) ∧
  parse_tensor_name "^A" = ("A", -1) ∧
  parse_tensor_name "scope/A:0" = ("scope/A", 0).
Proof. repeat split; vm_compute; reflexivity. Qed.

Definition mk_node (n : string) (inputs : list string) : NodeDef :=
  {| name := n; op := "Op"; input := inputs; device := ""; attr := ∅ |}.

Definition mk_graph (nodes : list NodeDef) : GraphDef :=
  {| node := nodes;
     versions := {| producer := 0; min_consumer := 0 |};
     library := {| function := []; gradient := [] |} |}.

Definition mk_feed (n : string) (slot : Z) : Feed :=
  {| feed_id := {| node_name := n; output_index := slot |};
     feed_shape := {| dim := []; unknown_rank := false |};
     feed_name := ""; feed_type := DT_INVALID |}.

Definition mk_fetch (n : string) (slot : Z) : Fetch :=
  {| fetch_id := {| node_name := n; output_index := slot |}; fetch_name := "" |}.

(** [D] is listed first and reached last; [A:1] is fed, yet [A] is needed
    through [A:0]; [E] is only behind the fed [E:0]; [U] is unrelated. *)
Definition example_graph : GraphDef :=
  mk_graph [ mk_node "D" []; mk_node "U" ["D"]; mk_node "A" ["D:0"];
             mk_node "E" []; mk_node "B" ["A:1"; "E"; "A"];
             mk_node "C" ["B"; "^B"] ].

Definition example_config : Config :=
  {| feed := [mk_feed "A" 1; mk_feed "E" 0]; fetch := [mk_fetch "C" 0] |}.

Definition example_pruned : GraphDef :=
  mk_graph [ mk_node "D" []; mk_node "A" ["D:0"];
             mk_node "B" ["A:1"; "E"; "A"]; mk_node "C" ["B"; "^B"] ].

Example PruneGraphDefInto_example :
  PruneGraphDefInto parse_tensor_name example_config example_graph
  = Some (OK, example_pruned).
Proof. vm_compute. reflexivity. Qed.

Example PruneGraphDefInto_missing_node :
  PruneGraphDefInto parse_tensor_name example_config
                    (mk_graph [mk_node "C" ["B"]])
  = Some (Status.Error Status.INVALID_ARGUMENT
            "While pruning graph, node B needed but not found in the graph.",
          mk_graph []).
Proof. vm_compute. reflexivity. Qed.

(** Of two nodes of one name the table keeps the later: its inputs are
    followed, and both nodes are copied. *)
Example PruneGraphDefInto_repeated_name :
  PruneGraphDefInto parse_tensor_name
    {| feed := []; fetch := [mk_fetch "X" 0] |}
    (mk_graph [mk_node "X" ["A"]; mk_node "X" ["B"]; mk_node "A" []; mk_node "B" []])
  = Some (OK, mk_graph [mk_node "X" ["A"]; mk_node "X" ["B"]; mk_node "B" []]).
Proof. vm_compute. reflexivity. Qed.

Lemma example_graph_NoDup : NoDup (name <$> node example_graph).
Proof. apply (bool_decide_unpack _). vm_compute. reflexivity. Qed.

Lemma PruneGraphDefInto_reachable_witness :
  (∃ keep : NodeDef → bool,
      node example_pruned = List.filter keep (node example_graph) ∧
      ∀ nd, nd ∈ node example_graph →
            (keep nd = true ↔
             reachable parse_tensor_name example_config example_graph (name nd))) ∧
  (∀ nd, nd ∈ node example_pruned ↔
         nd ∈ node example_graph ∧
         reachable parse_tensor_name example_config example_graph (name nd)) ∧
  versions example_pruned = versions example_graph ∧
  library example_pruned = library example_graph.
Proof.
  apply (PruneGraphDefInto_reachable parse_tensor_name example_config
           example_graph example_pruned).
  - exact example_graph_NoDup.
  - vm_compute. reflexivity.
Defined.

Lemma PruneGraphDefInto_idempotent_witness :
  PruneGraphDefInto parse_tensor_name example_config example_pruned
  = Some (OK, example_pruned).
Proof.
  apply (PruneGraphDefInto_idempotent parse_tensor_name example_config
           example_graph example_pruned).
  vm_compute. reflexivity.
Defined.

(** *** Instances of the facts above *)

Lemma PruneGraphDefInto_failure_witness :
  mk_graph [] = set_node (mk_graph [mk_node "C" ["B"]]) [] ∧
  Status.INVALID_ARGUMENT = Status.INVALID_ARGUMENT ∧
  ∃ k, "While pruning graph, node B needed but not found in the graph."
       = "While pruning graph, node " +:+ k
         +:+ " needed but not found in the graph." ∧
       reachable parse_tensor_name example_config (mk_graph [mk_node "C" ["B"]]) k ∧
       ∀ nd, nd ∈ node (mk_graph [mk_node "C" ["B"]]) → name nd ≠ k.
Proof.
  apply (PruneGraphDefInto_failure parse_tensor_name example_config
           (mk_graph [mk_node "C" ["B"]]) (mk_graph [])).
  vm_compute. reflexivity.
Defined.

Lemma PruneGraphDefInto_succeeds_iff_witness :
  (∃ out, PruneGraphDefInto parse_tensor_name example_config example_graph
          = Some (OK, out)) ↔
  (∀ k, reachable parse_tensor_name example_config example_graph k →
        ∃ nd, nd ∈ node example_graph ∧ name nd = k).
Proof.
  apply (PruneGraphDefInto_succeeds_iff parse_tensor_name example_config example_graph).
  exact example_graph_NoDup.
Defined.

Lemma PruneGraphDefInto_no_fetch_witness :
  PruneGraphDefInto parse_tensor_name {| feed := []; fetch := [] |} example_graph
  = Some (OK, set_node example_graph []).
Proof.
  apply (PruneGraphDefInto_no_fetch parse_tensor_name
           {| feed := []; fetch := [] |} example_graph).
  reflexivity.
Defined.

Lemma PruneGraphDefInto_keeps_fetches_witness :
  ∃ nd, nd ∈ node example_pruned ∧ name nd = "C".
Proof.
  apply (PruneGraphDefInto_keeps_fetches parse_tensor_name example_config
           example_graph example_pruned (mk_fetch "C" 0)).
  - vm_compute. reflexivity.
  - apply list_elem_of_here.
Defined.

Lemma example_D_not_fed : ¬ fed example_config (parse_tensor_name "D:0").
Proof.
  intros (f & Hf & Heq). simpl in Hf.
  repeat (apply elem_of_cons in Hf as [-> | Hf]; [vm_compute in Heq; discriminate|]).
  by apply elem_of_nil in Hf.
Qed.

Lemma PruneGraphDefInto_closed_witness :
  ∃ nd', nd' ∈ node example_pruned ∧ name nd' = (parse_tensor_name "D:0").1.
Proof.
  apply (PruneGraphDefInto_closed parse_tensor_name example_config
           example_graph example_pruned (mk_node "A" ["D:0"]) "D:0").
  - exact example_graph_NoDup.
  - vm_compute. reflexivity.
  - apply list_elem_of_further, list_elem_of_here.
  - apply list_elem_of_here.
  - exact example_D_not_fed.
Defined.

Definition example_config_more : Config :=
  {| feed := [mk_feed "A" 1; mk_feed "E" 0; mk_feed "A" 0];
     fetch := [mk_fetch "C" 0] |}.

Lemma PruneGraphDefInto_more_feeds_witness :
  ∃ out2, PruneGraphDefInto parse_tensor_name example_config_more example_graph
          = Some (OK, out2) ∧
          ∀ nd, nd ∈ node out2 → nd ∈ node example_pruned.
Proof.
  apply (PruneGraphDefInto_more_feeds parse_tensor_name example_config
           example_config_more example_graph example_pruned).
  - intros f Hf. simpl in *.
    apply elem_of_cons in Hf as [-> | Hf]; [apply list_elem_of_here|].
    apply elem_of_cons in Hf as [-> | Hf];
      [apply list_elem_of_further, list_elem_of_here | by apply elem_of_nil in Hf].
  - reflexivity.
  - vm_compute. reflexivity.
Defined.

(** With [A:0] fed as well, [A] and [D] are cut off. *)
Example PruneGraphDefInto_more_feeds_example :
  PruneGraphDefInto parse_tensor_name example_config_more example_graph
  = Some (OK, mk_graph [mk_node "B" ["A:1"; "E"; "A"]; mk_node "C" ["B"; "^B"]]).
Proof. vm_compute. reflexivity. Qed.

End GraphPruner.

(** ** AddPlaceholdersForFeeds *)

Module PlaceholderSynthesizer.
Section Placeholders.

(** What the synthesizer takes from code that is not among the sources:
    the op registry and the two uses it is put to, the base type of a
    (possibly reference) type, and the parsing and printing of the
    [TensorId] of an input (tensor_id.cc). *)
Variable OpRegistryInterface : Type.

(** [AddDefaultAttrsToGraphDef(&gd, *op_registry, 0)] on a GraphDef of one
    node: the status, and [gd.node(0)] afterwards. *)
Variable AddDefaultAttrsToGraphDef :
  OpRegistryInterface → VersionDef → NodeDef → Status * NodeDef.

(** [Graph g(op_registry); g.AddNode(node_def, &status)]: the status and, for
    the node built, its output types ([num_outputs] is their number). *)
Variable AddNode_output_types :
  OpRegistryInterface → VersionDef → NodeDef → Status * list DataType.

Variable BaseType : DataType → DataType.
Variable ParseTensorName : string → string * Z.
Variable TensorId_ToString : string * Z → string.

Record PlaceholderInfo := {
  info_feed : Feed;              (* points to the Feed in <config> *)
  placeholder_name : string;
  data_type : DataType
}.

Definition set_data_type (info : PlaceholderInfo) (t : DataType) : PlaceholderInfo :=
  {| info_feed := info_feed info; placeholder_name := placeholder_name info;
     data_type := t |}.

(** The state of the first loop: [placeholder_info] and [*feed_remapping]. *)
Definition collect_step (st : Ordered.map PlaceholderInfo * gmap string string)
           (f : Feed) : Ordered.map PlaceholderInfo * gmap string string :=
  let '(placeholder_info, feed_remapping) := st in
  let name_port := TensorIdToString (feed_id f) in
  (* [placeholder_info[name_port]]: the entry, created with defaults if new *)
  let old_type := match Ordered.map_find name_port placeholder_info with
                  | Some info => data_type info
                  | None => DT_INVALID
                  end in
  let info := {| info_feed := f;
                 placeholder_name :=
                   "aot_feed_" +:+ pretty (output_index (feed_id f)) +:+ "/"
                   +:+ node_name (feed_id f);
                 data_type := old_type |} in
  (Ordered.map_set name_port info placeholder_info,
   <[name_port := placeholder_name info]> feed_remapping).

Definition collect_feeds (config : Config) (feed_remapping : gmap string string)
  : Ordered.map PlaceholderInfo * gmap string string :=
  foldl collect_step ([], feed_remapping) (feed config).

(** [name_to_node]: a later node of the same name overwrites the entry. *)
Definition name_to_node (graph_def : GraphDef) : gmap string NodeDef :=
  foldl (λ m nd, <[name nd := nd]> m) ∅ (node graph_def).

(** The body of the second loop for one entry: the status and the data type
    recorded in the entry. *)
Definition infer_type (op_registry : OpRegistryInterface) (graph_def : GraphDef)
           (name_to_node : gmap string NodeDef) (info : PlaceholderInfo)
  : Status * DataType :=
  let feed_id := feed_id (info_feed info) in
  match name_to_node !! node_name feed_id with
  | None =>
      (Status.NotFound ["Can't find feed node: "; TensorIdToString feed_id],
       data_type info)
  | Some existing =>
      if negb (feed_type (info_feed info) =? DT_INVALID) then
        (OK, feed_type (info_feed info))
      else
        match AddDefaultAttrsToGraphDef op_registry (versions graph_def) existing with
        | (Status.Error c m, _) => (Status.Error c m, data_type info)
        | (OK, node0) =>
            match AddNode_output_types op_registry (versions graph_def) node0 with
            | (Status.Error c m, _) => (Status.Error c m, data_type info)
            | (OK, output_types) =>
                if output_index feed_id <? Z.of_nat (length output_types) then
                  (OK, BaseType (default DT_INVALID
                                   (output_types !! Z.to_nat (output_index feed_id))))
                else
                  (Status.InvalidArgument
                     ["Invalid output_index "; pretty (output_index feed_id);
                      " for feed node "; node_name feed_id],
                   data_type info)
            end
        end
  end.

(** The second loop, over the entries in key order; it stops at the first
    entry that fails. *)
Fixpoint infer_types (op_registry : OpRegistryInterface) (graph_def : GraphDef)
         (name_to_node : gmap string NodeDef)
         (entries : Ordered.map PlaceholderInfo)
  : Status * Ordered.map PlaceholderInfo :=
  match entries with
  | [] => (OK, [])
  | (key, info) :: entries' =>
      match infer_type op_registry graph_def name_to_node info with
      | (Status.Error c m, _) => (Status.Error c m, entries)
      | (OK, t) =>
          let '(s, rest) := infer_types op_registry graph_def name_to_node entries' in
          (s, (key, set_data_type info t) :: rest)
      end
  end.

(** The node added for one entry by the third loop. *)
Definition placeholder_node (info : PlaceholderInfo) : NodeDef :=
  {| name := placeholder_name info;
     op := "PlaceholderV2";
     input := [];
     device := "";
     attr := <["shape" := AV_shape (feed_shape (info_feed info))]>
               (<["dtype" := AV_type (data_type info)]> ∅) |}.

(** The fourth loop, for one input of one node. *)
Definition rewrite_input (placeholder_info : Ordered.map PlaceholderInfo)
           (input_j : string) : string :=
  let id := ParseTensorName input_j in
  match Ordered.map_find (TensorId_ToString id) placeholder_info with
  | Some info => placeholder_name info
  | None => input_j
  end.

Definition rewrite_node (placeholder_info : Ordered.map PlaceholderInfo)
           (node_def : NodeDef) : NodeDef :=
  {| name := name node_def; op := op node_def;
     input := rewrite_input placeholder_info <$> input node_def;
     device := device node_def; attr := attr node_def |}.

(** The status, [*feed_remapping] and [*graph_def]. *)
Definition AddPlaceholdersForFeeds (config : Config) (op_registry : OpRegistryInterface)
           (feed_remapping : gmap string string) (graph_def : GraphDef)
  : Status * gmap string string * GraphDef :=
  let '(placeholder_info, feed_remapping) := collect_feeds config feed_remapping in
  match infer_types op_registry graph_def (name_to_node graph_def) placeholder_info with
  | (Status.Error c m, _) => (Status.Error c m, feed_remapping, graph_def)
  | (OK, placeholder_info) =>
      let graph_def :=
        set_node graph_def
                 (node graph_def ++ (placeholder_node ∘ snd <$> placeholder_info)) in
      let graph_def :=
        set_node graph_def (rewrite_node placeholder_info <$> node graph_def) in
      (OK, feed_remapping, graph_def)
  end.

(** *** The feeds, by canonical tensor string *)

(** The feed that the synthesizer keeps for a tensor: the last one of the
    config whose id prints as [key]. *)
Definition feed_of_tensor (feeds : list Feed) (key : string) : option Feed :=
  last (List.filter (λ f, String.eqb (TensorIdToString (feed_id f)) key) feeds).

(** The record the first loop leaves for a feed. *)
Definition info_of_feed (f : Feed) : PlaceholderInfo :=
  {| info_feed := f;
     placeholder_name :=
       "aot_feed_" +:+ pretty (output_index (feed_id f)) +:+ "/"
       +:+ node_name (feed_id f);
     data_type := DT_INVALID |}.

Lemma feed_of_tensor_snoc feeds f key :
  feed_of_tensor (feeds ++ [f]) key
  = if String.eqb (TensorIdToString (feed_id f)) key then Some f
    else feed_of_tensor feeds key.
Proof.
  unfold feed_of_tensor. rewrite List.filter_app. simpl.
  destruct (String.eqb _ key); [apply last_snoc | by rewrite app_nil_r].
Qed.

Lemma feed_of_tensor_Some feeds key f :
  feed_of_tensor feeds key = Some f →
  f ∈ feeds ∧ TensorIdToString (feed_id f) = key.
Proof.
  induction feeds as [|x feeds IH] using rev_ind; [discriminate|].
  rewrite feed_of_tensor_snoc, elem_of_app, list_elem_of_singleton.
  destruct (String.eqb_spec (TensorIdToString (feed_id x)) key) as [Hk | Hk].
  - intros [= ->]. auto.
  - intros H. apply IH in H. tauto.
Qed.

Lemma feed_of_tensor_elem feeds f :
  f ∈ feeds →
  ∃ f', feed_of_tensor feeds (TensorIdToString (feed_id f)) = Some f'.
Proof.
  induction feeds as [|x feeds IH] using rev_ind; [by intros ?%elem_of_nil|].
  rewrite feed_of_tensor_snoc, elem_of_app, list_elem_of_singleton.
  destruct (String.eqb_spec (TensorIdToString (feed_id x))
                            (TensorIdToString (feed_id f))) as [Hk | Hk]; [eauto|].
  intros [Hf | ->]; [auto | done].
Qed.

(** What the first loop computes: the map is sorted by canonical tensor
    string and holds, for each string, the record of the last feed that
    prints as it; the remapping sends each such string to its placeholder. *)
Lemma collect_feeds_spec feeds (remap : gmap string string) :
  let st := foldl collect_step ([], remap) feeds in
  Ordered.sorted st.1 ∧
  (∀ key, Ordered.map_find key st.1 = info_of_feed <$> feed_of_tensor feeds key) ∧
  (∀ key, st.2 !! key =
          match feed_of_tensor feeds key with
          | Some f => Some (placeholder_name (info_of_feed f))
          | None => remap !! key
          end).
Proof.
  induction feeds as [|f feeds IH] using rev_ind.
  - simpl. split; [constructor | done].
  - rewrite foldl_app. simpl.
    destruct (foldl collect_step ([], remap) feeds) as [pi rm].
    simpl in IH. destruct IH as (Hsorted & Hfind & Hremap).
    unfold collect_step. simpl.
    assert (Hold : match Ordered.map_find (TensorIdToString (feed_id f)) pi with
                   | Some info => data_type info
                   | None => DT_INVALID
                   end = DT_INVALID).
    { rewrite Hfind. by destruct (feed_of_tensor feeds _). }
    rewrite Hold. fold (info_of_feed f).
    split; [by apply Ordered.map_set_sorted|]. split.
    + intros key. rewrite feed_of_tensor_snoc.
      destruct (String.eqb_spec (TensorIdToString (feed_id f)) key) as [<- | Hk].
      * by rewrite Ordered.map_find_set_eq.
      * by rewrite Ordered.map_find_set_ne.
    + intros key. rewrite feed_of_tensor_snoc.
      destruct (String.eqb_spec (TensorIdToString (feed_id f)) key) as [<- | Hk].
      * by rewrite lookup_insert_eq.
      * by rewrite lookup_insert_ne.
Qed.

Lemma collect_feeds_ext c1 c2 (remap : gmap string string) :
  (∀ key, feed_of_tensor (feed c1) key = feed_of_tensor (feed c2) key) →
  collect_feeds c1 remap = collect_feeds c2 remap.
Proof.
  intros Hsame. unfold collect_feeds.
  destruct (collect_feeds_spec (feed c1) remap) as (Hs1 & Hf1 & Hr1).
  destruct (collect_feeds_spec (feed c2) remap) as (Hs2 & Hf2 & Hr2).
  destruct (foldl collect_step ([], remap) (feed c1)) as [pi1 rm1].
  destruct (foldl collect_step ([], remap) (feed c2)) as [pi2 rm2].
  simpl in *. f_equal.
  - apply Ordered.map_ext; [done..|]. intros key. by rewrite Hf1, Hf2, Hsame.
  - apply map_eq. intros key. by rewrite Hr1, Hr2, Hsame.
Qed.

(** C3.  The synthesizer reads the feeds of its config only through the
    association of each canonical tensor string with the last feed that
    prints as it, and walks that association in ascending string order: two
    configs with the same association, however their feeds are listed, give
    the same status, the same feed remapping and the same graph.  In
    particular two runs on identical inputs agree.  The remapping returned
    sends each fed tensor string to the placeholder name made of the slot
    and the node name of its feed, and is the given one elsewhere. *)
Theorem AddPlaceholdersForFeeds_deterministic
        (c1 c2 : Config) (op_registry : OpRegistryInterface)
        (feed_remapping : gmap string string) (graph_def : GraphDef) :
  (∀ key, feed_of_tensor (feed c1) key = feed_of_tensor (feed c2) key) →
  Ordered.sorted (collect_feeds c1 feed_remapping).1 ∧
  (∀ key,
      (AddPlaceholdersForFeeds c1 op_registry feed_remapping graph_def).1.2 !! key
      = match feed_of_tensor (feed c1) key with
        | Some f =>
            Some ("aot_feed_" +:+ pretty (output_index (feed_id f)) +:+ "/"
                  +:+ node_name (feed_id f))
        | None => feed_remapping !! key
        end) ∧
  AddPlaceholdersForFeeds c1 op_registry feed_remapping graph_def
  = AddPlaceholdersForFeeds c2 op_registry feed_remapping graph_def.
Proof.
  intros Hsame. split; [|split].
  - apply (collect_feeds_spec (feed c1) feed_remapping).
  - intros key. unfold AddPlaceholdersForFeeds, collect_feeds.
    destruct (collect_feeds_spec (feed c1) feed_remapping) as (_ & _ & Hremap).
    destruct (foldl collect_step ([], feed_remapping) (feed c1)) as [pi rm].
    simpl in Hremap. rewrite <- Hremap.
    by destruct (infer_types _ _ _ pi) as [[|c m] pi'].
  - unfold AddPlaceholdersForFeeds.
    by rewrite (collect_feeds_ext c1 c2 feed_remapping Hsame).
Qed.

(** *** The canonical string determines the tensor *)

Fixpoint no_colon (s : string) : bool :=
  match s with
  | EmptyString => true
  | String c s' => negb (Ascii.eqb c ":") && no_colon s'
  end.

Lemma no_colon_append a b : no_colon (a +:+ ":" +:+ b) = false.
Proof. induction a as [|c a IH]; simpl; [done|]. rewrite IH. apply andb_false_r. Qed.

Lemma pretty_N_go_no_colon x s :
  no_colon s = true → no_colon (pretty_N_go x s) = true.
Proof.
  revert s. induction (N.lt_wf_0 x) as [x _ IH]; intros s Hs.
  destruct (decide (x = 0)%N) as [-> | Hx]; [by rewrite pretty_N_go_0|].
  rewrite pretty_N_go_step by lia. apply IH.
  - apply N.div_lt; lia.
  - simpl. rewrite Hs, andb_true_r.
    unfold pretty_N_char. by repeat case_match.
Qed.

Lemma pretty_N_no_colon (x : N) : no_colon (pretty x) = true.
Proof.
  unfold pretty, pretty_N. case_decide; [done|]. by apply pretty_N_go_no_colon.
Qed.

Lemma pretty_Z_no_colon (z : Z) : no_colon (pretty z) = true.
Proof.
  destruct z as [|p|p]; unfold pretty, pretty_Z; [done| |].
  - apply pretty_N_no_colon.
  - simpl. apply pretty_N_no_colon.
Qed.

Lemma append_cons c s t : String c s +:+ t = String c (s +:+ t).
Proof. reflexivity. Qed.

Lemma append_nil s : "" +:+ s = s.
Proof. reflexivity. Qed.

Lemma append_colon_inj s1 s2 d1 d2 :
  no_colon d1 = true → no_colon d2 = true →
  s1 +:+ ":" +:+ d1 = s2 +:+ ":" +:+ d2 → s1 = s2 ∧ d1 = d2.
Proof.
  intros Hd1 Hd2. revert s2.
  induction s1 as [|c1 s1 IH]; intros [|c2 s2];
    rewrite ?append_nil, ?append_cons, ?append_nil.
  - by intros [= ->].
  - intros [= <- ->]. pose proof (no_colon_append s2 d2) as Hc.
    rewrite ?append_cons, ?append_nil in Hc. congruence.
  - intros [= -> <-]. pose proof (no_colon_append s1 d1) as Hc.
    rewrite ?append_cons, ?append_nil in Hc. congruence.
  - intros [= -> H]. apply IH in H as [-> ->]. done.
Qed.

Lemma TensorIdToString_inj id1 id2 :
  TensorIdToString id1 = TensorIdToString id2 → id1 = id2.
Proof.
  unfold TensorIdToString. intros H.
  apply append_colon_inj in H as [Hn Hi]; [|apply pretty_Z_no_colon..].
  apply (inj pretty) in Hi. destruct id1, id2; simpl in *. congruence.
Qed.

(** *** A feed whose node is missing *)

Lemma name_to_node_None g n :
  name_to_node g !! n = None ↔ ∀ nd, nd ∈ node g → name nd ≠ n.
Proof.
  unfold name_to_node. induction (node g) as [|x nodes IH] using rev_ind.
  - simpl. rewrite lookup_empty. split; [|done]. by intros _ nd ?%elem_of_nil.
  - rewrite foldl_app. simpl. rewrite lookup_insert. case_decide as Hk.
    + split; [discriminate|]. intros H. exfalso. apply (H x); [|done].
      rewrite elem_of_app, list_elem_of_singleton. auto.
    + rewrite IH. split.
      * intros H nd. rewrite elem_of_app, list_elem_of_singleton.
        intros [Hnd | ->]; [by apply H | done].
      * intros H nd Hnd. apply H. rewrite elem_of_app. auto.
Qed.

Definition feed_node_missing (g : GraphDef) (f : Feed) : Prop :=
  ∀ nd, nd ∈ node g → name nd ≠ node_name (feed_id f).

Definition not_found_feed (f : Feed) : Status :=
  Status.NotFound ["Can't find feed node: "; TensorIdToString (feed_id f)].

Lemma infer_type_missing reg g info :
  feed_node_missing g (info_feed info) →
  (infer_type reg g (name_to_node g) info).1 = not_found_feed (info_feed info).
Proof.
  intros Hmiss. apply name_to_node_None in Hmiss.
  unfold infer_type. by rewrite Hmiss.
Qed.

Lemma infer_type_typed reg g info :
  feed_type (info_feed info) ≠ DT_INVALID →
  (∃ nd, nd ∈ node g ∧ name nd = node_name (feed_id (info_feed info))) →
  infer_type reg g (name_to_node g) info = (OK, feed_type (info_feed info)).
Proof.
  intros Htype (nd & Hnd & Hname). unfold infer_type.
  destruct (name_to_node g !! node_name (feed_id (info_feed info))) eqn:Hn.
  - apply Z.eqb_neq in Htype. by rewrite Htype.
  - exfalso. rewrite name_to_node_None in Hn. by apply (Hn nd).
Qed.

(** The second loop fails when an entry lacks its node. *)
Lemma infer_types_fails reg g entries key info :
  (key, info) ∈ entries → feed_node_missing g (info_feed info) →
  (infer_types reg g (name_to_node g) entries).1 ≠ OK.
Proof.
  intros Hin Hmiss. induction entries as [|[k0 i0] entries IH]; [by apply elem_of_nil in Hin|].
  simpl. apply elem_of_cons in Hin as [[= <- <-] | Hin].
  - pose proof (infer_type_missing reg g info Hmiss) as Hs.
    destruct (infer_type reg g (name_to_node g) info) as [s t]. simpl in Hs. by subst s.
  - destruct (infer_type reg g (name_to_node g) i0) as [[|c m] t]; [|done].
    specialize (IH Hin).
    destruct (infer_types reg g (name_to_node g) entries) as [s rest]. done.
Qed.

(** It fails on that entry when the entries before it pass. *)
Lemma infer_types_not_found reg g entries key info :
  Ordered.sorted entries →
  (key, info) ∈ entries → feed_node_missing g (info_feed info) →
  (∀ k' info', (k', info') ∈ entries → Ordered.lt k' key →
               (infer_type reg g (name_to_node g) info').1 = OK) →
  (infer_types reg g (name_to_node g) entries).1 = not_found_feed (info_feed info).
Proof.
  intros Hsorted Hin Hmiss Hpass.
  induction entries as [|[k0 i0] entries IH]; [by apply elem_of_nil in Hin|].
  unfold Ordered.sorted in Hsorted. simpl in Hsorted.
  apply StronglySorted_inv in Hsorted as [Hsorted Hall].
  simpl. apply elem_of_cons in Hin as [[= <- <-] | Hin].
  - pose proof (infer_type_missing reg g info Hmiss) as Hs.
    destruct (infer_type reg g (name_to_node g) info) as [s t]. simpl in Hs.
    subst s. done.
  - assert (Hlt : Ordered.lt k0 key).
    { rewrite Forall_forall in Hall. apply Hall.
      by apply (list_elem_of_fmap_2 fst) in Hin. }
    pose proof (Hpass k0 i0 (list_elem_of_here _ _) Hlt) as H0.
    destruct (infer_type reg g (name_to_node g) i0) as [s0 t0]. simpl in H0. subst s0.
    assert (IH' := IH Hsorted Hin
                     (λ k' info' Hk', Hpass k' info' (list_elem_of_further _ _ _ Hk'))).
    destruct (infer_types reg g (name_to_node g) entries) as [s rest]. done.
Qed.

(** C10, as the code has it.  A feed whose node is not in the graph makes the
    synthesis fail and leaves the graph as it was, whether or not the feed
    declares a data type.  The entries are checked in ascending order of
    their canonical strings and the first failure is returned: the error is
    NotFound, naming this feed's tensor, whenever the check passes for every
    fed tensor whose string sorts before it, whether its feed declares a
    data type or the type is read from the node. *)
Theorem AddPlaceholdersForFeeds_missing_feed_node
        (config : Config) (op_registry : OpRegistryInterface)
        (feed_remapping : gmap string string) (graph_def : GraphDef) (f : Feed) :
  f ∈ feed config →
  feed_node_missing graph_def f →
  let r := AddPlaceholdersForFeeds config op_registry feed_remapping graph_def in
  r.1.1 ≠ OK ∧ r.2 = graph_def ∧
  ((∀ key f', feed_of_tensor (feed config) key = Some f' →
              Ordered.lt key (TensorIdToString (feed_id f)) →
              (infer_type op_registry graph_def (name_to_node graph_def)
                          (info_of_feed f')).1 = OK) →
   r.1.1 = Status.NotFound ["Can't find feed node: "; TensorIdToString (feed_id f)]).
Proof.
  intros Hf Hmiss. simpl.
  unfold AddPlaceholdersForFeeds, collect_feeds.
  destruct (collect_feeds_spec (feed config) feed_remapping) as (Hsorted & Hfind & _).
  destruct (foldl collect_step ([], feed_remapping) (feed config)) as [pi rm].
  simpl in Hsorted, Hfind.
  destruct (feed_of_tensor_elem _ _ Hf) as [f' Hf'].
  pose proof (feed_of_tensor_Some _ _ _ Hf') as [Hf'in Hkey].
  assert (Hid : feed_id f' = feed_id f) by (by apply TensorIdToString_inj).
  assert (Hentry : (TensorIdToString (feed_id f), info_of_feed f') ∈ pi).
  { apply Ordered.map_find_Some. by rewrite Hfind, Hf'. }
  assert (Hmiss' : feed_node_missing graph_def (info_feed (info_of_feed f'))).
  { unfold feed_node_missing. simpl. by rewrite Hid. }
  pose proof (infer_types_fails op_registry graph_def pi _ _ Hentry Hmiss') as Hfail.
  assert (Hnf : (∀ key f', feed_of_tensor (feed config) key = Some f' →
          Ordered.lt key (TensorIdToString (feed_id f)) →
          (infer_type op_registry graph_def (name_to_node graph_def)
                      (info_of_feed f')).1 = OK) →
     (infer_types op_registry graph_def (name_to_node graph_def) pi).1
     = not_found_feed f).
  { intros Hbefore.
    replace (not_found_feed f) with (not_found_feed (info_feed (info_of_feed f')))
      by (unfold not_found_feed; simpl; by rewrite Hid).
    apply (infer_types_not_found op_registry graph_def pi _ _ Hsorted Hentry Hmiss').
    intros k' info' Hk' Hlt.
    assert (Hfind' : Ordered.map_find k' pi = Some info').
    { destruct (Ordered.map_find k' pi) as [i|] eqn:Hi.
      - apply Ordered.map_find_Some in Hi.
        f_equal. eapply (Ordered.sorted_unique pi); eauto.
      - exfalso. apply (list_elem_of_fmap_2 fst) in Hk'. simpl in Hk'.
        revert Hi Hk'. apply Ordered.map_find_elem. }
    rewrite Hfind in Hfind'.
    destruct (feed_of_tensor (feed config) k') as [f0|] eqn:Hf0; [|discriminate].
    injection Hfind' as <-.
    by apply (Hbefore k' f0). }
  destruct (infer_types op_registry graph_def (name_to_node graph_def) pi)
    as [[|c m] pi'] eqn:Hinfer; simpl in *; [done|].
  split; [done|]. split; [done|]. exact Hnf.
Qed.

(** *** More on what the synthesizer returns *)

Lemma name_to_node_Some g n nd :
  name_to_node g !! n = Some nd → nd ∈ node g ∧ name nd = n.
Proof.
  unfold name_to_node. induction (node g) as [|x nodes IH] using rev_ind.
  - simpl. by rewrite lookup_empty.
  - rewrite foldl_app. simpl. rewrite lookup_insert. case_decide as Hk.
    + intros [= <-]. rewrite elem_of_app, list_elem_of_singleton. auto.
    + intros H. destruct (IH H). rewrite elem_of_app. auto.
Qed.

(** X10.  The canonical string of a tensor determines the tensor: two ids
    print alike only if they are the same node name and slot, although a
    node name may itself contain colons. *)
Theorem TensorIdToString_eq_iff (id1 id2 : TensorId) :
  TensorIdToString id1 = TensorIdToString id2 ↔ id1 = id2.
Proof.
  split; [|by intros ->].
  unfold TensorIdToString. intros H.
  apply append_colon_inj in H as [Hn Hi]; [|apply pretty_Z_no_colon..].
  apply (inj pretty) in Hi. destruct id1, id2; simpl in *. congruence.
Qed.

(** The name of the placeholder of a feed. *)
Definition placeholder_of (f : Feed) : string :=
  "aot_feed_" +:+ pretty (output_index (feed_id f)) +:+ "/" +:+ node_name (feed_id f).

(** What the second loop does to the entries when it succeeds: each keeps
    its key, feed and placeholder name and gets the type that its check
    returned. *)
Lemma infer_types_ok reg g ntn entries entries' :
  infer_types reg g ntn entries = (OK, entries') →
  Forall2 (λ e e', e'.1 = e.1 ∧ info_feed e'.2 = info_feed e.2 ∧
                   placeholder_name e'.2 = placeholder_name e.2 ∧
                   infer_type reg g ntn e.2 = (OK, data_type e'.2))
          entries entries'.
Proof.
  revert entries'. induction entries as [|[k info] entries IH]; intros entries'; simpl.
  - intros [= <-]. constructor.
  - destruct (infer_type reg g ntn info) as [[|c m] t] eqn:Hi; [|discriminate].
    destruct (infer_types reg g ntn entries) as [s rest]. intros [= -> <-].
    constructor; [done | by apply IH].
Qed.

Lemma infer_types_ok_iff reg g ntn entries :
  (infer_types reg g ntn entries).1 = OK ↔
  ∀ e, e ∈ entries → (infer_type reg g ntn e.2).1 = OK.
Proof.
  induction entries as [|[k info] entries IH]; cbn [infer_types].
  - split; [|done]. by intros _ e ?%elem_of_nil.
  - destruct (infer_type reg g ntn info) as [[|c m] t] eqn:Hi.
    + destruct (infer_types reg g ntn entries) as [s rest]. cbn [fst] in *.
      rewrite IH. split.
      * intros H e [-> | He]%elem_of_cons; [cbn [snd]; by rewrite Hi | by apply H].
      * intros H e He. by apply H, list_elem_of_further.
    + cbn [fst]. split; [discriminate|]. intros H.
      specialize (H _ (list_elem_of_here _ _)). cbn [snd] in H. by rewrite Hi in H.
Qed.

Lemma map_find_fmap_keys {V W} (R : string * V → string * W → Prop)
      (m : Ordered.map V) (m' : Ordered.map W) k :
  Forall2 (λ e e', e'.1 = e.1 ∧ R e e') m m' →
  match Ordered.map_find k m, Ordered.map_find k m' with
  | Some v, Some w => R (k, v) (k, w)
  | None, None => True
  | _, _ => False
  end.
Proof.
  induction 1 as [|[k1 v] [k2 w] m m' [Hk HR] _ IH]; simpl; [done|].
  simpl in Hk. subst k2.
  destruct (String.eqb_spec k k1) as [-> | Hne]; [exact HR | exact IH].
Qed.

(** X11.  The synthesis succeeds exactly when, for each fed tensor, the
    check of the last feed of that tensor succeeds: its node is in the
    graph and, if the feed declares no type, the node can be built and has
    the slot. *)
Theorem AddPlaceholdersForFeeds_OK_iff
        (config : Config) (op_registry : OpRegistryInterface)
        (feed_remapping : gmap string string) (graph_def : GraphDef) :
  (AddPlaceholdersForFeeds config op_registry feed_remapping graph_def).1.1 = OK ↔
  ∀ key f, feed_of_tensor (feed config) key = Some f →
           (infer_type op_registry graph_def (name_to_node graph_def)
                       (info_of_feed f)).1 = OK.
Proof.
  unfold AddPlaceholdersForFeeds, collect_feeds.
  destruct (collect_feeds_spec (feed config) feed_remapping) as (Hsorted & Hfind & _).
  destruct (foldl collect_step ([], feed_remapping) (feed config)) as [pi rm].
  simpl in Hsorted, Hfind.
  pose proof (infer_types_ok_iff op_registry graph_def (name_to_node graph_def) pi) as Hiff.
  destruct (infer_types op_registry graph_def (name_to_node graph_def) pi)
    as [[|c m] pi']; simpl in *.
  - split; [|done]. intros _ key f Hf.
    destruct Hiff as [Hiff _]. specialize (Hiff eq_refl (key, info_of_feed f)).
    apply Hiff, Ordered.map_find_Some. by rewrite Hfind, Hf.
  - split; [discriminate|]. intros H. apply Hiff. intros [k info] He. simpl.
    assert (Hk : Ordered.map_find k pi = Some info).
    { destruct (Ordered.map_find k pi) as [i|] eqn:Hi.
      - apply Ordered.map_find_Some in Hi. f_equal.
        by eapply (Ordered.sorted_unique pi).
      - exfalso. apply (list_elem_of_fmap_2 fst) in He.
        by eapply Ordered.map_find_elem. }
    rewrite Hfind in Hk.
    destruct (feed_of_tensor (feed config) k) as [f|] eqn:Hf; [|discriminate].
    injection Hk as <-. by eapply H.
Qed.

(** The graph that a successful synthesis returns, in terms of the entries
    of the map. *)
Lemma AddPlaceholdersForFeeds_result config reg rm g rm' g' :
  AddPlaceholdersForFeeds config reg rm g = (OK, rm', g') →
  ∃ pi',
    infer_types reg g (name_to_node g) (collect_feeds config rm).1 = (OK, pi') ∧
    rm' = (collect_feeds config rm).2 ∧
    g' = set_node g ((rewrite_node pi' <$> node g)
                     ++ (placeholder_node ∘ snd <$> pi')).
Proof.
  unfold AddPlaceholdersForFeeds.
  destruct (collect_feeds config rm) as [pi rm0]. simpl.
  destruct (infer_types reg g (name_to_node g) pi) as [[|c m] pi']; [|discriminate].
  intros [= <- <-]. exists pi'. split; [done|]. split; [done|].
  unfold set_node. simpl. f_equal. rewrite fmap_app. f_equal.
  rewrite <- list_fmap_compose. apply list_fmap_ext. by intros i [k info] _.
Qed.

(** X12.  After a successful synthesis every feed has its placeholder: the
    remapping sends the feed's tensor string to the placeholder name made of
    its slot and node name, the graph has a PlaceholderV2 node of that name
    without inputs, whose shape is that of the last feed of the tensor and
    whose type is the one that feed declares, if it declares one; and the
    fed node is a node of the given graph. *)
Theorem AddPlaceholdersForFeeds_placeholder
        (config : Config) (op_registry : OpRegistryInterface)
        (feed_remapping remapping' : gmap string string)
        (graph_def graph_def' : GraphDef) (f : Feed) :
  AddPlaceholdersForFeeds config op_registry feed_remapping graph_def
  = (OK, remapping', graph_def') →
  f ∈ feed config →
  ∃ f' nd,
    feed_of_tensor (feed config) (TensorIdToString (feed_id f)) = Some f' ∧
    feed_id f' = feed_id f ∧
    remapping' !! TensorIdToString (feed_id f) = Some (placeholder_of f) ∧
    nd ∈ node graph_def' ∧
    name nd = placeholder_of f ∧ op nd = "PlaceholderV2" ∧ input nd = [] ∧
    attr nd !! "shape" = Some (AV_shape (feed_shape f')) ∧
    (feed_type f' ≠ DT_INVALID → attr nd !! "dtype" = Some (AV_type (feed_type f'))) ∧
    ∃ existing, existing ∈ node graph_def ∧ name existing = node_name (feed_id f).
Proof.
  intros Hok Hf.
  apply AddPlaceholdersForFeeds_result in Hok as (pi' & Hinfer & -> & ->).
  unfold collect_feeds in *.
  destruct (collect_feeds_spec (feed config) feed_remapping) as (Hsorted & Hfind & Hremap).
  destruct (foldl collect_step ([], feed_remapping) (feed config)) as [pi rm].
  simpl in *.
  destruct (feed_of_tensor_elem _ _ Hf) as [f' Hf'].
  pose proof (feed_of_tensor_Some _ _ _ Hf') as [_ Hkey].
  assert (Hid : feed_id f' = feed_id f) by (by apply TensorIdToString_inj).
  apply infer_types_ok in Hinfer.
  pose proof (map_find_fmap_keys
                (λ e e', info_feed e'.2 = info_feed e.2 ∧
                         placeholder_name e'.2 = placeholder_name e.2 ∧
                         infer_type op_registry graph_def (name_to_node graph_def) e.2
                         = (OK, data_type e'.2))
                pi pi' (TensorIdToString (feed_id f)) Hinfer) as Hentry.
  rewrite Hfind, Hf' in Hentry. simpl in Hentry.
  destruct (Ordered.map_find (TensorIdToString (feed_id f)) pi') as [info'|] eqn:Hfind';
    [|done].
  simpl in Hentry. destruct Hentry as (Hfeed & Hname & Htype).
  exists f', (placeholder_node info').
  split; [done|]. split; [done|].
  split; [by rewrite Hremap, Hf'; unfold placeholder_of; simpl; rewrite Hid|].
  split.
  { apply elem_of_app. right. apply Ordered.map_find_Some in Hfind'.
    apply list_elem_of_fmap. by exists (TensorIdToString (feed_id f), info'). }
  split; [by simpl; rewrite Hname; unfold placeholder_of; rewrite Hid|].
  split; [done|]. split; [done|].
  split; [by simpl; rewrite lookup_insert_eq, Hfeed|].
  unfold infer_type in Htype. simpl in Htype. rewrite Hid in Htype.
  destruct (name_to_node graph_def !! node_name (feed_id f)) as [existing|] eqn:Hnode;
    [|discriminate].
  split.
  - intros Hdeclared. apply Z.eqb_neq in Hdeclared. rewrite Hdeclared in Htype.
    simpl in Htype. injection Htype as Ht.
    simpl. rewrite lookup_insert_ne, lookup_insert_eq by done. by rewrite Ht.
  - exists existing. by apply name_to_node_Some.
Qed.

(** Where the fourth loop sends an input. *)
Definition redirect (config : Config) (e : string) : string :=
  match feed_of_tensor (feed config) (TensorId_ToString (ParseTensorName e)) with
  | Some f => placeholder_of f
  | None => e
  end.

Lemma sorted_keys_NoDup {V} (m : Ordered.map V) : Ordered.sorted m → NoDup m.*1.
Proof.
  unfold Ordered.sorted. generalize (m.*1). intros l.
  induction 1 as [|k l Hs IH Hall]; [constructor|].
  apply NoDup_cons. split; [|done]. intros Hk.
  rewrite Forall_forall in Hall. exact (Ordered.lt_irrefl _ (Hall k Hk)).
Qed.

Lemma collect_feeds_keys config rm :
  (collect_feeds config rm).1.*1
  ≡ₚ remove_dups (TensorIdToString ∘ feed_id <$> feed config).
Proof.
  unfold collect_feeds.
  destruct (collect_feeds_spec (feed config) rm) as (Hsorted & Hfind & _).
  destruct (foldl collect_step ([], rm) (feed config)) as [pi rm0]. simpl in *.
  apply NoDup_Permutation; [by apply sorted_keys_NoDup | apply NoDup_remove_dups|].
  intros k. rewrite elem_of_remove_dups. split.
  - intros Hk. destruct (Ordered.map_find k pi) as [info|] eqn:Hinfo.
    + rewrite Hfind in Hinfo.
      destruct (feed_of_tensor (feed config) k) as [f|] eqn:Hf; [|discriminate].
      apply feed_of_tensor_Some in Hf as [Hf <-].
      by apply (list_elem_of_fmap_2 (TensorIdToString ∘ feed_id)).
    + exfalso. by eapply Ordered.map_find_elem.
  - intros (f & -> & Hf)%list_elem_of_fmap.
    destruct (feed_of_tensor_elem _ _ Hf) as [f' Hf'].
    specialize (Hfind (TensorIdToString (feed_id f))). rewrite Hf' in Hfind.
    apply Ordered.map_find_Some, (list_elem_of_fmap_2 fst) in Hfind. done.
Qed.

(** X13.  A successful synthesis keeps the nodes of the graph where they
    were, with their names, ops, devices and attributes; only inputs change,
    those that read a fed tensor being redirected to its placeholder.  One
    node is added for each distinct fed tensor string, and the versions and
    the library are untouched. *)
Theorem AddPlaceholdersForFeeds_existing_nodes
        (config : Config) (op_registry : OpRegistryInterface)
        (feed_remapping remapping' : gmap string string)
        (graph_def graph_def' : GraphDef) :
  AddPlaceholdersForFeeds config op_registry feed_remapping graph_def
  = (OK, remapping', graph_def') →
  versions graph_def' = versions graph_def ∧
  library graph_def' = library graph_def ∧
  length (node graph_def')
  = (length (node graph_def)
     + length (remove_dups (TensorIdToString ∘ feed_id <$> feed config)))%nat ∧
  ∀ i nd, node graph_def !! i = Some nd →
          ∃ nd', node graph_def' !! i = Some nd' ∧
                 name nd' = name nd ∧ op nd' = op nd ∧ device nd' = device nd ∧
                 attr nd' = attr nd ∧
                 input nd' = redirect config <$> input nd.
Proof.
  intros Hok.
  apply AddPlaceholdersForFeeds_result in Hok as (pi' & Hinfer & -> & ->).
  apply infer_types_ok in Hinfer.
  split; [done|]. split; [done|]. split.
  - simpl. rewrite length_app, !length_fmap.
    rewrite <- (Forall2_length _ _ _ Hinfer).
    by rewrite <- (collect_feeds_keys config feed_remapping), length_fmap.
  - intros i nd Hnd. exists (rewrite_node pi' nd). simpl.
    split.
    { rewrite lookup_app_l by (rewrite length_fmap; by eapply lookup_lt_Some).
      by rewrite list_lookup_fmap, Hnd. }
    do 4 (split; [done|]).
    apply list_fmap_ext. intros j e _. unfold rewrite_input, redirect.
    pose proof (map_find_fmap_keys
                  (λ e e', info_feed e'.2 = info_feed e.2 ∧
                           placeholder_name e'.2 = placeholder_name e.2 ∧
                           infer_type op_registry graph_def (name_to_node graph_def) e.2
                           = (OK, data_type e'.2))
                  _ pi' (TensorId_ToString (ParseTensorName e)) Hinfer) as Hentry.
    unfold collect_feeds in Hentry.
    destruct (collect_feeds_spec (feed config) feed_remapping) as (_ & Hfind & _).
    destruct (foldl collect_step ([], feed_remapping) (feed config)) as [pi rm].
    simpl in Hentry, Hfind. rewrite Hfind in Hentry.
    destruct (feed_of_tensor (feed config) (TensorId_ToString (ParseTensorName e)))
      as [f|]; simpl in Hentry;
      destruct (Ordered.map_find (TensorId_ToString (ParseTensorName e)) pi')
      as [info'|]; try done.
    simpl in Hentry. by destruct Hentry as (_ & -> & _).
Qed.

(** X14.  Without feeds the synthesis is the identity: it succeeds and
    returns the remapping and the graph that it was given. *)
Theorem AddPlaceholdersForFeeds_no_feed
        (config : Config) (op_registry : OpRegistryInterface)
        (feed_remapping : gmap string string) (graph_def : GraphDef) :
  feed config = [] →
  AddPlaceholdersForFeeds config op_registry feed_remapping graph_def
  = (OK, feed_remapping, graph_def).
Proof.
  intros Hempty. unfold AddPlaceholdersForFeeds, collect_feeds.
  rewrite Hempty. simpl. rewrite app_nil_r.
  destruct graph_def as [nodes vs lib]. unfold set_node. simpl. do 2 f_equal.
  induction nodes as [|nd nodes IH]; [done|].
  rewrite fmap_cons, IH. f_equal.
  destruct nd as [n o inputs d a]. unfold rewrite_node. simpl. f_equal.
  induction inputs as [|e inputs IHi]; [done|]. by rewrite fmap_cons, IHi.
Qed.

End Placeholders.

(** *** Examples *)

(** A registry for the examples: every op builds, with one [int32] output
    (type 3) and no default attribute to add; a reference type is its base
    type plus 100; a [TensorId] prints as [^name] at the control slot and as
    [name:slot] otherwise. *)
Definition example_add_default_attrs (_ : unit) (_ : VersionDef) (nd : NodeDef)
  : Status * NodeDef := (OK, nd).

Definition example_output_types (_ : unit) (_ : VersionDef) (_ : NodeDef)
  : Status * list DataType := (OK, [3]).

Definition example_base_type (t : DataType) : DataType :=
  if 100 <? t then t - 100 else t.

Definition example_to_string (id : string * Z) : string :=
  if id.2 =? -1 then "^" +:+ id.1 else id.1 +:+ ":" +:+ pretty id.2.

Definition synthesize :=
  AddPlaceholdersForFeeds unit example_add_default_attrs example_output_types
                          example_base_type GraphPruner.parse_tensor_name
                          example_to_string.

Definition typed_feed (n : string) (slot : Z) (t : DataType) : Feed :=
  {| feed_id := {| node_name := n; output_index := slot |};
     feed_shape := {| dim := [2]; unknown_rank := false |};
     feed_name := ""; feed_type := t |}.

Definition graph_abc : GraphDef :=
  GraphPruner.mk_graph
    [ GraphPruner.mk_node "A" []; GraphPruner.mk_node "B" ["A:0"; "^A"];
      GraphPruner.mk_node "C" ["B"; "A"] ].

(** A feed of [A:0] without a type: one [int32] placeholder is added, and
    the inputs that read [A:0] are redirected to it; the control input is
    not. *)
Example synthesize_infers_type :
  synthesize {| feed := [typed_feed "A" 0 DT_INVALID]; fetch := [] |} tt ∅ graph_abc
  = (OK, {[ "A:0" := "aot_feed_0/A" ]},
     GraphPruner.mk_graph
       [ GraphPruner.mk_node "A" [];
         GraphPruner.mk_node "B" ["aot_feed_0/A"; "^A"];
         GraphPruner.mk_node "C" ["B"; "aot_feed_0/A"];
         {| name := "aot_feed_0/A"; op := "PlaceholderV2"; input := []; device := "";
            attr := <["shape" := AV_shape {| dim := [2]; unknown_rank := false |}]>
                      (<["dtype" := AV_type 3]> ∅) |} ]).
Proof. vm_compute. reflexivity. Qed.

Definition feeds_ab : Config :=
  {| feed := [typed_feed "A" 0 1; typed_feed "B" 0 DT_INVALID]; fetch := [] |}.

Definition feeds_ba : Config :=
  {| feed := [typed_feed "B" 0 DT_INVALID; typed_feed "A" 0 1]; fetch := [] |}.

(** The placeholders are added in the order of the tensor strings, [A:0]
    before [B:0], for both listings of the feeds. *)
Example synthesize_feeds_ba :
  synthesize feeds_ba tt ∅ graph_abc
  = (OK, {[ "A:0" := "aot_feed_0/A"; "B:0" := "aot_feed_0/B" ]},
     GraphPruner.mk_graph
       [ GraphPruner.mk_node "A" [];
         GraphPruner.mk_node "B" ["aot_feed_0/A"; "^A"];
         GraphPruner.mk_node "C" ["aot_feed_0/B"; "aot_feed_0/A"];
         {| name := "aot_feed_0/A"; op := "PlaceholderV2"; input := []; device := "";
            attr := <["shape" := AV_shape {| dim := [2]; unknown_rank := false |}]>
                      (<["dtype" := AV_type 1]> ∅) |};
         {| name := "aot_feed_0/B"; op := "PlaceholderV2"; input := []; device := "";
            attr := <["shape" := AV_shape {| dim := [2]; unknown_rank := false |}]>
                      (<["dtype" := AV_type 3]> ∅) |} ]).
Proof. vm_compute. reflexivity. Qed.

Lemma feeds_ab_ba key :
  feed_of_tensor (feed feeds_ab) key = feed_of_tensor (feed feeds_ba) key.
Proof.
  change (feed feeds_ab)
    with (([] ++ [typed_feed "A" 0 1]) ++ [typed_feed "B" 0 DT_INVALID]).
  change (feed feeds_ba)
    with (([] ++ [typed_feed "B" 0 DT_INVALID]) ++ [typed_feed "A" 0 1]).
  rewrite !feed_of_tensor_snoc.
  destruct (String.eqb_spec (TensorIdToString (feed_id (typed_feed "A" 0 1))) key)
    as [HA | HA];
    destruct (String.eqb_spec (TensorIdToString (feed_id (typed_feed "B" 0 DT_INVALID))) key)
    as [HB | HB]; try reflexivity.
  rewrite <- HB in HA. apply TensorIdToString_inj in HA. discriminate.
Qed.

Lemma AddPlaceholdersForFeeds_deterministic_witness :
  Ordered.sorted (collect_feeds feeds_ab ∅).1 ∧
  (∀ key,
      (synthesize feeds_ab tt ∅ graph_abc).1.2 !! key
      = match feed_of_tensor (feed feeds_ab) key with
        | Some f =>
            Some ("aot_feed_" +:+ pretty (output_index (feed_id f)) +:+ "/"
                  +:+ node_name (feed_id f))
        | None => (∅ : gmap string string) !! key
        end) ∧
  synthesize feeds_ab tt ∅ graph_abc = synthesize feeds_ba tt ∅ graph_abc.
Proof.
  apply (AddPlaceholdersForFeeds_deterministic
           unit example_add_default_attrs example_output_types example_base_type
           GraphPruner.parse_tensor_name example_to_string
           feeds_ab feeds_ba tt ∅ graph_abc).
  exact feeds_ab_ba.
Defined.

(** The feed of [Z:0] declares a type, and its node is missing. *)
Definition feeds_bz : Config :=
  {| feed := [typed_feed "Z" 0 1; typed_feed "B" 0 1]; fetch := [] |}.

Lemma feeds_bz_missing : feed_node_missing graph_abc (typed_feed "Z" 0 1).
Proof.
  intros nd Hnd. simpl in Hnd.
  repeat (apply elem_of_cons in Hnd as [-> | Hnd]; [done|]).
  by apply elem_of_nil in Hnd.
Qed.

(** The feed of [A:0], which sorts first, declares no type: its type is
    read from the node, and the missing node of [Z:0] is what is reported. *)
Definition feeds_za : Config :=
  {| feed := [typed_feed "Z" 0 1; typed_feed "A" 0 DT_INVALID]; fetch := [] |}.

Lemma AddPlaceholdersForFeeds_missing_feed_node_witness :
  (synthesize feeds_za tt ∅ graph_abc).1.1 ≠ OK ∧
  (synthesize feeds_za tt ∅ graph_abc).2 = graph_abc ∧
  (synthesize feeds_za tt ∅ graph_abc).1.1
  = Status.NotFound ["Can't find feed node: "; "Z:0"].
Proof.
  destruct (AddPlaceholdersForFeeds_missing_feed_node
              unit example_add_default_attrs example_output_types example_base_type
              GraphPruner.parse_tensor_name example_to_string
              feeds_za tt ∅ graph_abc (typed_feed "Z" 0 1))
    as (Hfail & Hgraph & Hnf).
  - apply list_elem_of_here.
  - exact feeds_bz_missing.
  - split; [exact Hfail|]. split; [exact Hgraph|]. apply Hnf.
    intros key f' Hkey Hlt.
    apply (feed_of_tensor_Some example_base_type GraphPruner.parse_tensor_name
             example_to_string) in Hkey as [Hf' <-].
    simpl in Hf'.
    apply elem_of_cons in Hf' as [-> | Hf'].
    + vm_compute in Hlt. discriminate.
    + apply elem_of_cons in Hf' as [-> | Hf']; [|by apply elem_of_nil in Hf'].
      vm_compute. reflexivity.
Defined.

(** A missing feed node is not always what is reported: [Z]'s node is
    missing, but the entry of [A:5], which comes first and names a slot that
    [A] does not have, fails before it, with InvalidArgument. *)
Definition feeds_az : Config :=
  {| feed := [typed_feed "Z" 0 1; typed_feed "A" 5 DT_INVALID]; fetch := [] |}.

Lemma AddPlaceholdersForFeeds_missing_feed_node_other_error :
  typed_feed "Z" 0 1 ∈ feed feeds_az ∧
  feed_node_missing graph_abc (typed_feed "Z" 0 1) ∧
  (synthesize feeds_az tt ∅ graph_abc).1.1
  = Status.Error Status.INVALID_ARGUMENT "Invalid output_index 5 for feed node A".
Proof.
  split; [apply list_elem_of_here|]. split; [exact feeds_bz_missing|].
  vm_compute. reflexivity.
Qed.

(** *** Instances of the facts on the result *)

Definition feeds_ba_remapping : gmap string string :=
  {[ "A:0" := "aot_feed_0/A"; "B:0" := "aot_feed_0/B" ]}.

Definition feeds_ba_graph : GraphDef :=
  GraphPruner.mk_graph
    [ GraphPruner.mk_node "A" [];
      GraphPruner.mk_node "B" ["aot_feed_0/A"; "^A"];
      GraphPruner.mk_node "C" ["aot_feed_0/B"; "aot_feed_0/A"];
      {| name := "aot_feed_0/A"; op := "PlaceholderV2"; input := []; device := "";
         attr := <["shape" := AV_shape {| dim := [2]; unknown_rank := false |}]>
                   (<["dtype" := AV_type 1]> ∅) |};
      {| name := "aot_feed_0/B"; op := "PlaceholderV2"; input := []; device := "";
         attr := <["shape" := AV_shape {| dim := [2]; unknown_rank := false |}]>
                   (<["dtype" := AV_type 3]> ∅) |} ].

Lemma synthesize_feeds_ba_result :
  synthesize feeds_ba tt ∅ graph_abc = (OK, feeds_ba_remapping, feeds_ba_graph).
Proof. vm_compute. reflexivity. Qed.

Lemma AddPlaceholdersForFeeds_placeholder_witness :
  ∃ f' nd,
    feed_of_tensor (feed feeds_ba) (TensorIdToString (feed_id (typed_feed "A" 0 1)))
    = Some f' ∧
    feed_id f' = feed_id (typed_feed "A" 0 1) ∧
    feeds_ba_remapping !! TensorIdToString (feed_id (typed_feed "A" 0 1))
    = Some (placeholder_of (typed_feed "A" 0 1)) ∧
    nd ∈ node feeds_ba_graph ∧
    name nd = placeholder_of (typed_feed "A" 0 1) ∧
    op nd = "PlaceholderV2" ∧ input nd = [] ∧
    attr nd !! "shape" = Some (AV_shape (feed_shape f')) ∧
    (feed_type f' ≠ DT_INVALID → attr nd !! "dtype" = Some (AV_type (feed_type f'))) ∧
    ∃ existing, existing ∈ node graph_abc
                ∧ name existing = node_name (feed_id (typed_feed "A" 0 1)).
Proof.
  apply (AddPlaceholdersForFeeds_placeholder
           unit example_add_default_attrs example_output_types example_base_type
           GraphPruner.parse_tensor_name example_to_string
           feeds_ba tt ∅ feeds_ba_remapping graph_abc feeds_ba_graph
           (typed_feed "A" 0 1)).
  - exact synthesize_feeds_ba_result.
  - apply list_elem_of_further, list_elem_of_here.
Defined.

Lemma AddPlaceholdersForFeeds_existing_nodes_witness :
  versions feeds_ba_graph = versions graph_abc ∧
  library feeds_ba_graph = library graph_abc ∧
  length (node feeds_ba_graph)
  = (length (node graph_abc)
     + length (remove_dups (TensorIdToString ∘ feed_id <$> feed feeds_ba)))%nat ∧
  ∀ i nd, node graph_abc !! i = Some nd →
          ∃ nd', node feeds_ba_graph !! i = Some nd' ∧
                 name nd' = name nd ∧ op nd' = op nd ∧ device nd' = device nd ∧
                 attr nd' = attr nd ∧
                 input nd'
                 = redirect GraphPruner.parse_tensor_name example_to_string feeds_ba
                     <$> input nd.
Proof.
  apply (AddPlaceholdersForFeeds_existing_nodes
           unit example_add_default_attrs example_output_types example_base_type
           GraphPruner.parse_tensor_name example_to_string
           feeds_ba tt ∅ feeds_ba_remapping graph_abc feeds_ba_graph).
  exact synthesize_feeds_ba_result.
Defined.

Lemma AddPlaceholdersForFeeds_no_feed_witness :
  synthesize {| feed := []; fetch := [GraphPruner.mk_fetch "C" 0] |} tt ∅ graph_abc
  = (OK, ∅, graph_abc).
Proof.
  apply (AddPlaceholdersForFeeds_no_feed
           unit example_add_default_attrs example_output_types example_base_type
           GraphPruner.parse_tensor_name example_to_string
           {| feed := []; fetch := [GraphPruner.mk_fetch "C" 0] |} tt ∅ graph_abc).
  reflexivity.
Defined.

End PlaceholderSynthesizer.

(** ** The in-memory graph and ReplaceNode *)

Module Graph.

(** [xla::StatusOr<T>] *)
Inductive StatusOr (T : Type) :=
| Value (v : T)
| Failed (code : Status.Code) (error_message : string).
Arguments Value {T} v.
Arguments Failed {T} code error_message.

(** Modelled from the spec: the graph collaborator ([Graph], [Node] and
    [Edge] of core/graph/graph.h) is not among the sources.  A [Node*] is
    the identifier of a node of the graph and a [const Edge*] stands for an
    edge of the graph; an edge carries its two endpoints and their slots. *)
Record Edge := {
  edge_id : nat;
  src : nat;
  src_output : Z;
  dst : nat;
  dst_input : Z
}.

Record Node := {
  def : NodeDef;
  assigned_device_name : string
}.

Record t := {
  nodes : gmap nat Node;
  edges : list Edge;
  next_node_id : nat;
  next_edge_id : nat
}.

(** Modelled from the spec: a control edge carries no value and its slot
    indices are not meaningful; as [AddEdge] takes the endpoints and the slots
    only, it is the reserved source slot that marks it. *)
Definition kControlSlot : Z := -1.
Definition IsControlEdge (e : Edge) : bool := src_output e =? kControlSlot.

(** Modelled from the spec: per-node iteration over in/out edges. *)
Definition in_edges (g : t) (n : nat) : list Edge :=
  List.filter (λ e, Nat.eqb (dst e) n) (edges g).
Definition out_edges (g : t) (n : nat) : list Edge :=
  List.filter (λ e, Nat.eqb (src e) n) (edges g).

(** Modelled from the spec: add/remove edge. *)
Definition AddEdge (g : t) (source : nat) (x : Z) (dest : nat) (y : Z) : t :=
  {| nodes := nodes g;
     edges := edges g ++ [ {| edge_id := next_edge_id g; src := source; src_output := x;
                              dst := dest; dst_input := y |} ];
     next_node_id := next_node_id g;
     next_edge_id := S (next_edge_id g) |}.

Definition RemoveEdge (g : t) (e : Edge) : t :=
  {| nodes := nodes g;
     edges := List.filter (λ e', negb (Nat.eqb (edge_id e') (edge_id e))) (edges g);
     next_node_id := next_node_id g;
     next_edge_id := next_edge_id g |}.

(** Modelled from the spec: removing a node removes the edges from and to
    it (every edge's endpoints are nodes of the graph). *)
Definition RemoveNode (g : t) (n : nat) : t :=
  {| nodes := delete n (nodes g);
     edges := List.filter (λ e, negb (Nat.eqb (src e) n) && negb (Nat.eqb (dst e) n))
                          (edges g);
     next_node_id := next_node_id g;
     next_edge_id := next_edge_id g |}.

Section Operations.

(** Whether a node can be constructed from a definition (the op is known,
    the attributes are well formed) is decided outside these sources. *)
Variable ValidateNodeDef : NodeDef → Status.

(** Modelled from the spec: add node.  The status, the graph and the new
    node; on failure the graph is unchanged and no node is returned. *)
Definition AddNode (g : t) (node_def : NodeDef) : Status * t * nat :=
  match ValidateNodeDef node_def with
  | Status.Error c m => (Status.Error c m, g, O)
  | OK =>
      (OK,
       {| nodes := <[next_node_id g := {| def := node_def; assigned_device_name := "" |}]>
                     (nodes g);
          edges := edges g;
          next_node_id := S (next_node_id g);
          next_edge_id := next_edge_id g |},
       next_node_id g)
  end.

Record OutEdgeInfo := {
  info_dst : nat;
  info_src_output : Z;
  info_dst_input : Z
}.

(** [ReplaceNode]: the result and the graph [*g]. *)
Definition ReplaceNode (g : t) (n : nat) (node_def : NodeDef) : StatusOr nat * t :=
  (* Create the replacement node. *)
  match AddNode g node_def with
  | (Status.Error c m, g, _) => (Failed c m, g)
  | (OK, g, new_node) =>
      (* Record original node's output edges and remove them first. *)
      let out_edges := out_edges g n in
      let out_edge_info :=
        (λ edge, {| info_dst := dst edge; info_src_output := src_output edge;
                    info_dst_input := dst_input edge |}) <$> out_edges in
      let g := foldl RemoveEdge g out_edges in
      (* Add original node's input and output edges to the replacement node. *)
      let g := foldl (λ g in_edge,
                        AddEdge g (src in_edge) (src_output in_edge) new_node
                                (dst_input in_edge))
                     g (in_edges g n) in
      let g := foldl (λ g out_edge,
                        AddEdge g new_node (info_src_output out_edge)
                                (info_dst out_edge) (info_dst_input out_edge))
                     g out_edge_info in
      (* Remove the original node. *)
      let g := RemoveNode g n in
      (Value new_node, g)
  end.

(** *** Well-formed graphs and what an edge looks like from a node *)

Record wf (g : t) : Prop := {
  wf_node_ids : ∀ i, is_Some (nodes g !! i) → (i < next_node_id g)%nat;
  wf_endpoints : ∀ e, e ∈ edges g →
                      is_Some (nodes g !! src e) ∧ is_Some (nodes g !! dst e);
  wf_edge_ids : NoDup (edge_id <$> edges g)
}.

(** An edge without its identity: endpoints and slots. *)
Definition ends (e : Edge) : nat * Z * nat * Z :=
  (src e, src_output e, dst e, dst_input e).

(** An incoming edge as its destination sees it, an outgoing edge as its
    source sees it: the other endpoint, the two slots, the control flag. *)
Definition in_view (e : Edge) : nat * Z * Z * bool :=
  (src e, src_output e, dst_input e, IsControlEdge e).
Definition out_view (e : Edge) : nat * Z * Z * bool :=
  (dst e, src_output e, dst_input e, IsControlEdge e).

Definition no_self_edge (g : t) (n : nat) : Prop :=
  ∀ e, e ∈ edges g → ¬ (src e = n ∧ dst e = n).

(** *** Lists of edges *)

Lemma filter_true {A} (f : A → bool) (l : list A) :
  (∀ x, x ∈ l → f x = true) → List.filter f l = l.
Proof.
  induction l as [|x l IH]; intros Hall; [done|]. simpl.
  rewrite (Hall x) by apply list_elem_of_here.
  f_equal. apply IH. intros y Hy. by apply Hall, list_elem_of_further.
Qed.

Lemma filter_false {A} (f : A → bool) (l : list A) :
  (∀ x, x ∈ l → f x = false) → List.filter f l = [].
Proof.
  induction l as [|x l IH]; intros Hall; [done|]. simpl.
  rewrite (Hall x) by apply list_elem_of_here.
  apply IH. intros y Hy. by apply Hall, list_elem_of_further.
Qed.

Lemma filter_agree {A} (f f' : A → bool) (l : list A) :
  (∀ x, x ∈ l → f x = f' x) → List.filter f l = List.filter f' l.
Proof.
  intros H. apply List.filter_ext_in. intros x Hx. apply H. by apply list_elem_of_In.
Qed.

Lemma filter_elem {A} (f : A → bool) (l : list A) x :
  x ∈ List.filter f l ↔ x ∈ l ∧ f x = true.
Proof. by rewrite !list_elem_of_In, List.filter_In. Qed.

Lemma edge_id_inj (l : list Edge) e e' :
  NoDup (edge_id <$> l) → e ∈ l → e' ∈ l → edge_id e = edge_id e' → e = e'.
Proof.
  induction l as [|x l IH]; [by intros _ ?%elem_of_nil|].
  rewrite fmap_cons, NoDup_cons. intros [Hx Hl] He He' Hid.
  apply elem_of_cons in He as [-> | He]; apply elem_of_cons in He' as [-> | He'].
  - done.
  - exfalso. apply Hx. rewrite Hid. by apply list_elem_of_fmap_2.
  - exfalso. apply Hx. rewrite <- Hid. by apply list_elem_of_fmap_2.
  - by apply IH.
Qed.

(** *** The steps of ReplaceNode *)

Lemma remove_edges_fields g l :
  nodes (foldl RemoveEdge g l) = nodes g ∧
  next_node_id (foldl RemoveEdge g l) = next_node_id g ∧
  edges (foldl RemoveEdge g l)
  = List.filter (λ e, bool_decide (edge_id e ∉ edge_id <$> l)) (edges g).
Proof.
  revert g. induction l as [|x l IH]; intros g; simpl.
  - split; [done|]. split; [done|]. symmetry. apply filter_true.
    intros e _.
    first [reflexivity | apply bool_decide_eq_true_2; by intros ?%elem_of_nil].
  - destruct (IH (RemoveEdge g x)) as (-> & -> & ->). simpl.
    split; [done|]. split; [done|].
    induction (edges g) as [|e es IHes]; simpl; [done|].
    destruct (Nat.eqb_spec (edge_id e) (edge_id x)) as [Hid | Hid]; simpl.
    + rewrite bool_decide_eq_false_2; [exact IHes|].
      intros H. apply H. rewrite Hid. apply list_elem_of_here.
    + rewrite IHes.
      destruct (decide (edge_id e ∈ edge_id <$> l)) as [Hin | Hin].
      * rewrite !bool_decide_eq_false_2; [done| |]; intros H; apply H; [|done].
        by apply list_elem_of_further.
      * rewrite !bool_decide_eq_true_2; [done| |done].
        by intros [? | ?]%elem_of_cons.
Qed.

(** Removing the edges out of [n] leaves the edges whose source is not [n]. *)
Lemma remove_out_edges g n :
  NoDup (edge_id <$> edges g) →
  edges (foldl RemoveEdge g (out_edges g n))
  = List.filter (λ e, negb (Nat.eqb (src e) n)) (edges g).
Proof.
  intros Hids. destruct (remove_edges_fields g (out_edges g n)) as (_ & _ & ->).
  apply filter_agree. intros e He.
  destruct (Nat.eqb_spec (src e) n) as [Hsrc | Hsrc]; simpl.
  - apply bool_decide_eq_false_2. intros H. apply H.
    apply list_elem_of_fmap_2, filter_elem. split; [done|]. by apply Nat.eqb_eq.
  - apply bool_decide_eq_true_2. intros (e' & Hid & He')%list_elem_of_fmap.
    apply filter_elem in He' as [He' Hsrc'%Nat.eqb_eq].
    by rewrite (edge_id_inj _ _ _ Hids He He' Hid) in Hsrc.
Qed.

Lemma add_in_edges_fields g new l :
  let g' := foldl (λ g in_edge,
                     AddEdge g (src in_edge) (src_output in_edge) new
                             (dst_input in_edge)) g l in
  nodes g' = nodes g ∧ next_node_id g' = next_node_id g ∧
  ends <$> edges g'
  = (ends <$> edges g) ++ ((λ e, (src e, src_output e, new, dst_input e)) <$> l).
Proof.
  revert g. induction l as [|x l IH]; intros g; simpl.
  - by rewrite app_nil_r.
  - destruct (IH (AddEdge g (src x) (src_output x) new (dst_input x)))
      as (-> & -> & ->). simpl.
    split; [done|]. split; [done|]. by rewrite fmap_app, <- app_assoc.
Qed.

Lemma add_out_edges_fields g new l :
  let g' := foldl (λ g out_edge,
                     AddEdge g new (info_src_output out_edge)
                             (info_dst out_edge) (info_dst_input out_edge)) g l in
  nodes g' = nodes g ∧ next_node_id g' = next_node_id g ∧
  ends <$> edges g'
  = (ends <$> edges g)
    ++ ((λ i, (new, info_src_output i, info_dst i, info_dst_input i)) <$> l).
Proof.
  revert g. induction l as [|x l IH]; intros g; simpl.
  - by rewrite app_nil_r.
  - destruct (IH (AddEdge g new (info_src_output x) (info_dst x) (info_dst_input x)))
      as (-> & -> & ->). simpl.
    split; [done|]. split; [done|]. by rewrite fmap_app, <- app_assoc.
Qed.

Lemma filter_ends (f : nat * Z * nat * Z → bool) (l : list Edge) :
  ends <$> List.filter (λ e, f (ends e)) l = List.filter f (ends <$> l).
Proof.
  induction l as [|e l IH]; [done|].
  cbn [List.filter]. rewrite fmap_cons. cbn [List.filter].
  destruct (f (ends e)); [rewrite fmap_cons|]; by rewrite IH.
Qed.

(** The three groups of edges that ReplaceNode has built when it removes
    [n]: the edges it left in place, the copies of the edges into [n] and
    the copies of the edges out of [n]. *)
Definition kept_edges (g : t) (n : nat) : list (nat * Z * nat * Z) :=
  ends <$> List.filter (λ e, negb (Nat.eqb (src e) n)) (edges g).

Definition copied_in_edges (g : t) (n new : nat) : list (nat * Z * nat * Z) :=
  (λ e, (src e, src_output e, new, dst_input e))
    <$> List.filter (λ e, Nat.eqb (dst e) n)
                    (List.filter (λ e, negb (Nat.eqb (src e) n)) (edges g)).

Definition copied_out_edges (g : t) (n new : nat) : list (nat * Z * nat * Z) :=
  (λ e, (new, src_output e, dst e, dst_input e)) <$> out_edges g n.

Definition apart_from (n : nat) (x : nat * Z * nat * Z) : bool :=
  negb (Nat.eqb x.1.1.1 n) && negb (Nat.eqb x.1.2 n).

Lemma ReplaceNode_result g n node_def :
  ValidateNodeDef node_def = OK →
  NoDup (edge_id <$> edges g) →
  ∃ g', ReplaceNode g n node_def = (Value (next_node_id g), g') ∧
        nodes g' = delete n (<[next_node_id g :=
                                 {| def := node_def; assigned_device_name := "" |}]>
                               (nodes g)) ∧
        ends <$> edges g'
        = List.filter (apart_from n)
            (kept_edges g n ++ copied_in_edges g n (next_node_id g)
                            ++ copied_out_edges g n (next_node_id g)).
Proof.
  intros Hvalid Hids. unfold ReplaceNode, AddNode. rewrite Hvalid.
  eexists. split; [reflexivity|].
  set (g1 := {| nodes := <[next_node_id g := _]> (nodes g); edges := edges g;
                next_node_id := S (next_node_id g); next_edge_id := next_edge_id g |}).
  assert (Hout : out_edges g1 n = out_edges g n) by reflexivity.
  set (g2 := foldl RemoveEdge g1 (out_edges g1 n)).
  assert (Hg2 : edges g2 = List.filter (λ e, negb (Nat.eqb (src e) n)) (edges g)).
  { unfold g2. by rewrite (remove_out_edges g1 n Hids). }
  assert (Hg2n : nodes g2 = nodes g1).
  { unfold g2. apply remove_edges_fields. }
  set (g3 := foldl _ g2 (in_edges g2 n)).
  destruct (add_in_edges_fields g2 (next_node_id g) (in_edges g2 n)) as (Hn3 & _ & He3).
  fold g3 in Hn3, He3.
  set (g4 := foldl _ g3 _).
  destruct (add_out_edges_fields g3 (next_node_id g)
              ((λ edge, {| info_dst := dst edge; info_src_output := src_output edge;
                           info_dst_input := dst_input edge |}) <$> out_edges g1 n))
    as (Hn4 & _ & He4).
  fold g4 in Hn4, He4.
  split.
  - simpl. by rewrite Hn4, Hn3, Hg2n.
  - change (edges (RemoveNode g4 n))
      with (List.filter (λ e, apart_from n (ends e)) (edges g4)).
    rewrite (filter_ends (apart_from n)), He4, He3. f_equal.
    rewrite <- app_assoc. f_equal; [|f_equal].
    + unfold kept_edges. by rewrite Hg2.
    + unfold copied_in_edges, in_edges. by rewrite Hg2.
    + unfold copied_out_edges. rewrite Hout, <- list_fmap_compose. done.
Qed.

Definition in_view_of (x : nat * Z * nat * Z) : nat * Z * Z * bool :=
  (x.1.1.1, x.1.1.2, x.2, x.1.1.2 =? kControlSlot).
Definition out_view_of (x : nat * Z * nat * Z) : nat * Z * Z * bool :=
  (x.1.2, x.1.1.2, x.2, x.1.1.2 =? kControlSlot).

Lemma in_view_edges g n :
  in_view <$> in_edges g n
  = in_view_of <$> List.filter (λ x, Nat.eqb x.1.2 n) (ends <$> edges g).
Proof.
  unfold in_edges. rewrite <- (filter_ends (λ x, Nat.eqb x.1.2 n)).
  by rewrite <- list_fmap_compose.
Qed.

Lemma out_view_edges g n :
  out_view <$> out_edges g n
  = out_view_of <$> List.filter (λ x, Nat.eqb x.1.1.1 n) (ends <$> edges g).
Proof.
  unfold out_edges. rewrite <- (filter_ends (λ x, Nat.eqb x.1.1.1 n)).
  by rewrite <- list_fmap_compose.
Qed.

Lemma filter_filter_sub {A} (p q : A → bool) (l : list A) :
  (∀ x, x ∈ l → p x = true → q x = true) →
  List.filter p (List.filter q l) = List.filter p l.
Proof.
  induction l as [|x l IH]; intros Hsub; [done|]. simpl.
  assert (IH' := IH (λ y Hy, Hsub y (list_elem_of_further _ _ _ Hy))).
  pose proof (Hsub x (list_elem_of_here _ _)) as Hx.
  destruct (q x) eqn:Hq; simpl.
  - by rewrite IH'.
  - destruct (p x); [by specialize (Hx eq_refl) | exact IH'].
Qed.

Section Replace.

Variable g : t.
Variable n : nat.
Hypothesis g_wf : wf g.
Hypothesis n_in_g : is_Some (nodes g !! n).
Hypothesis n_no_self_edge : no_self_edge g n.

Let new := next_node_id g.

Lemma n_lt_new : (n < new)%nat.
Proof. by apply (wf_node_ids g g_wf). Qed.

Lemma edge_lt_new e : e ∈ edges g → (src e < new)%nat ∧ (dst e < new)%nat.
Proof.
  intros He. destruct (wf_endpoints g g_wf e He) as [Hs Hd].
  split; by apply (wf_node_ids g g_wf).
Qed.

Lemma kept_edges_elem x :
  x ∈ kept_edges g n → x.1.1.1 ≠ n ∧ x.1.1.1 ≠ new ∧ x.1.2 ≠ new.
Proof.
  unfold kept_edges. intros (e & -> & He)%list_elem_of_fmap.
  apply filter_elem in He as [He Hsrc]. apply edge_lt_new in He. simpl.
  apply negb_true_iff, Nat.eqb_neq in Hsrc. lia.
Qed.

Lemma copied_in_edges_elem x :
  x ∈ copied_in_edges g n new → x.1.1.1 ≠ n ∧ x.1.1.1 ≠ new ∧ x.1.2 = new.
Proof.
  unfold copied_in_edges. intros (e & -> & He)%list_elem_of_fmap.
  apply filter_elem in He as [He _]. apply filter_elem in He as [He Hsrc].
  apply edge_lt_new in He. simpl.
  apply negb_true_iff, Nat.eqb_neq in Hsrc. lia.
Qed.

Lemma copied_out_edges_elem x :
  x ∈ copied_out_edges g n new → x.1.1.1 = new ∧ x.1.2 ≠ n ∧ x.1.2 ≠ new.
Proof.
  unfold copied_out_edges, out_edges. intros (e & -> & He)%list_elem_of_fmap.
  apply filter_elem in He as [He Hsrc%Nat.eqb_eq].
  pose proof (n_no_self_edge e He) as Hself.
  apply edge_lt_new in He. simpl. split; [done|]. split; [tauto | lia].
Qed.

Lemma in_edges_no_self :
  List.filter (λ e, Nat.eqb (dst e) n)
              (List.filter (λ e, negb (Nat.eqb (src e) n)) (edges g))
  = in_edges g n.
Proof.
  apply filter_filter_sub. intros e He Hdst%Nat.eqb_eq.
  apply negb_true_iff, Nat.eqb_neq. intros Hsrc.
  by apply (n_no_self_edge e He).
Qed.

(** The edges into the new node, after ReplaceNode has removed [n]. *)
Lemma replaced_in_edges :
  List.filter (λ x, Nat.eqb x.1.2 new)
    (List.filter (apart_from n)
       (kept_edges g n ++ copied_in_edges g n new ++ copied_out_edges g n new))
  = copied_in_edges g n new.
Proof.
  pose proof n_lt_new as Hn.
  rewrite !List.filter_app.
  rewrite (filter_false _ (List.filter _ (kept_edges g n))).
  2:{ intros x [Hx _]%filter_elem. apply kept_edges_elem in Hx.
      apply Nat.eqb_neq. tauto. }
  rewrite (filter_false _ (List.filter _ (copied_out_edges g n new))).
  2:{ intros x [Hx _]%filter_elem. apply copied_out_edges_elem in Hx.
      apply Nat.eqb_neq. tauto. }
  rewrite app_nil_r. simpl.
  rewrite (filter_true (apart_from n)).
  2:{ intros x Hx%copied_in_edges_elem. unfold apart_from.
      apply andb_true_iff. split; apply negb_true_iff, Nat.eqb_neq; lia. }
  apply filter_true. intros x Hx%copied_in_edges_elem. apply Nat.eqb_eq. tauto.
Qed.

(** The edges out of the new node. *)
Lemma replaced_out_edges :
  List.filter (λ x, Nat.eqb x.1.1.1 new)
    (List.filter (apart_from n)
       (kept_edges g n ++ copied_in_edges g n new ++ copied_out_edges g n new))
  = copied_out_edges g n new.
Proof.
  pose proof n_lt_new as Hn.
  rewrite !List.filter_app.
  rewrite (filter_false _ (List.filter _ (kept_edges g n))).
  2:{ intros x [Hx _]%filter_elem. apply kept_edges_elem in Hx.
      apply Nat.eqb_neq. tauto. }
  rewrite (filter_false _ (List.filter _ (copied_in_edges g n new))).
  2:{ intros x [Hx _]%filter_elem. apply copied_in_edges_elem in Hx.
      apply Nat.eqb_neq. tauto. }
  simpl.
  rewrite (filter_true (apart_from n)).
  2:{ intros x Hx%copied_out_edges_elem. unfold apart_from.
      apply andb_true_iff. split; apply negb_true_iff, Nat.eqb_neq; lia. }
  apply filter_true. intros x Hx%copied_out_edges_elem. apply Nat.eqb_eq. tauto.
Qed.

(** The edges that do not touch the new node. *)
Lemma replaced_other_edges :
  List.filter (apart_from new)
    (List.filter (apart_from n)
       (kept_edges g n ++ copied_in_edges g n new ++ copied_out_edges g n new))
  = ends <$> List.filter (λ e, apart_from n (ends e)) (edges g).
Proof.
  rewrite !List.filter_app.
  rewrite (filter_false _ (List.filter _ (copied_in_edges g n new))).
  2:{ intros x [Hx _]%filter_elem. apply copied_in_edges_elem in Hx.
      unfold apart_from. apply andb_false_iff. right.
      apply negb_false_iff, Nat.eqb_eq. tauto. }
  rewrite (filter_false _ (List.filter _ (copied_out_edges g n new))).
  2:{ intros x [Hx _]%filter_elem. apply copied_out_edges_elem in Hx.
      unfold apart_from. apply andb_false_iff. left.
      apply negb_false_iff, Nat.eqb_eq. tauto. }
  rewrite !app_nil_r.
  rewrite (filter_true (apart_from new)).
  2:{ intros x [Hx _]%filter_elem. apply kept_edges_elem in Hx.
      unfold apart_from. apply andb_true_iff.
      split; apply negb_true_iff, Nat.eqb_neq; tauto. }
  unfold kept_edges. rewrite <- (filter_ends (apart_from n)). f_equal.
  apply filter_filter_sub. intros e _ [H _]%andb_true_iff. exact H.
Qed.

End Replace.

(** X29.  In a well-formed graph, for a node [n] that has
    no edge to itself and a definition from which a node can be built,
    ReplaceNode returns a new node built from the definition and removes
    [n]; the edges into the new node are the edges that went into [n], and
    the edges out of it those that went out of [n], each with the same other
    endpoint, the same source and destination slots and the same control
    flag; no edge of the result touches [n], and the edges that touch neither
    node are the edges of the graph that did not touch [n]. *)
Theorem ReplaceNode_preserves_edges (g : t) (n : nat) (node_def : NodeDef) :
  wf g → is_Some (nodes g !! n) → no_self_edge g n →
  ValidateNodeDef node_def = OK →
  ∃ new g',
    ReplaceNode g n node_def = (Value new, g') ∧
    nodes g !! new = None ∧
    nodes g' !! n = None ∧
    def <$> nodes g' !! new = Some node_def ∧
    (∀ i, i ≠ n → i ≠ new → nodes g' !! i = nodes g !! i) ∧
    in_view <$> in_edges g' new ≡ₚ in_view <$> in_edges g n ∧
    out_view <$> out_edges g' new ≡ₚ out_view <$> out_edges g n ∧
    (∀ e, e ∈ edges g' → src e ≠ n ∧ dst e ≠ n) ∧
    ends <$> List.filter (λ e, apart_from new (ends e)) (edges g')
    = ends <$> List.filter (λ e, apart_from n (ends e)) (edges g).
Proof.
  intros Hwf Hn Hself Hvalid.
  destruct (ReplaceNode_result g n node_def Hvalid (wf_edge_ids g Hwf))
    as (g' & Hres & Hnodes & Hedges).
  pose proof (n_lt_new g n Hwf Hn) as Hlt.
  exists (next_node_id g), g'. split; [exact Hres|].
  split; [|split; [|split; [|split; [|split; [|split; [|split]]]]]].
  - destruct (nodes g !! next_node_id g) eqn:Hnew; [|done].
    pose proof (wf_node_ids g Hwf _ (mk_is_Some _ _ Hnew)). lia.
  - rewrite Hnodes. apply lookup_delete_eq.
  - rewrite Hnodes, lookup_delete_ne, lookup_insert_eq by lia. done.
  - intros i Hi Hnew. by rewrite Hnodes, lookup_delete_ne, lookup_insert_ne.
  - rewrite !in_view_edges, Hedges, (replaced_in_edges g n Hwf Hn Hself).
    unfold copied_in_edges. rewrite (in_edges_no_self g n Hself).
    rewrite <- (filter_ends (λ x, Nat.eqb x.1.2 n)), <- !list_fmap_compose.
    reflexivity.
  - rewrite !out_view_edges, Hedges, (replaced_out_edges g n Hwf Hn Hself).
    unfold copied_out_edges.
    rewrite <- (filter_ends (λ x, Nat.eqb x.1.1.1 n)), <- !list_fmap_compose.
    reflexivity.
  - intros e He. apply (list_elem_of_fmap_2 ends) in He.
    rewrite Hedges in He. apply filter_elem in He as [_ Hap].
    unfold apart_from in Hap. simpl in Hap.
    apply andb_true_iff in Hap as [Hs%negb_true_iff%Nat.eqb_neq Hd%negb_true_iff%Nat.eqb_neq].
    done.
  - rewrite (filter_ends (apart_from (next_node_id g))), Hedges.
    apply (replaced_other_edges g n Hwf Hself).
Qed.

(** ReplaceNode fails, leaving the graph as it was, when the node cannot be
    built. *)
Lemma ReplaceNode_failed (g : t) (n : nat) (node_def : NodeDef) c m :
  ValidateNodeDef node_def = Status.Error c m →
  ReplaceNode g n node_def = (Failed c m, g).
Proof. intros H. unfold ReplaceNode, AddNode. by rewrite H. Qed.

(** A loop that adds one edge for each item of a list: the edges it adds. *)
Lemma add_edges_fields {A} (fs : A → nat) (fx : A → Z) (fd : A → nat) (fy : A → Z)
      g (l : list A) :
  ends <$> edges (foldl (λ g a, AddEdge g (fs a) (fx a) (fd a) (fy a)) g l)
  = (ends <$> edges g) ++ ((λ a, (fs a, fx a, fd a, fy a)) <$> l).
Proof.
  revert g. induction l as [|a l IH]; intros g; simpl.
  - by rewrite app_nil_r.
  - rewrite IH. simpl. by rewrite fmap_app, <- app_assoc.
Qed.

Lemma add_edges_nodes {A} (fs : A → nat) (fx : A → Z) (fd : A → nat)
      (fy : A → Z) g (l : list A) :
  nodes (foldl (λ g a, AddEdge g (fs a) (fx a) (fd a) (fy a)) g l) = nodes g.
Proof.
  revert g. induction l as [|a l IH]; intros g; [done|]. simpl. by rewrite IH.
Qed.

Lemma filter_fmap {A B} (p : B → bool) (f : A → B) (l : list A) :
  List.filter p (f <$> l) = f <$> List.filter (λ x, p (f x)) l.
Proof.
  induction l as [|x l IH]; [done|]. rewrite fmap_cons. simpl.
  destruct (p (f x)); [rewrite fmap_cons|]; by rewrite IH.
Qed.

Lemma filter_comm {A} (p q : A → bool) (l : list A) :
  List.filter p (List.filter q l) = List.filter q (List.filter p l).
Proof.
  induction l as [|x l IH]; [done|]. simpl.
  destruct (p x) eqn:Hp, (q x) eqn:Hq; simpl; rewrite ?Hp, ?Hq, IH; done.
Qed.

(** Two maps over the two halves of a list give the list mapped, up to the
    order. *)
Lemma split_Permutation {A B} (p : A → bool) (f f' h : A → B) (l : list A) :
  (∀ x, x ∈ l → p x = false → f x = h x) →
  (∀ x, x ∈ l → p x = true → f' x = h x) →
  (f <$> List.filter (λ x, negb (p x)) l) ++ (f' <$> List.filter p l) ≡ₚ h <$> l.
Proof.
  induction l as [|x l IH]; intros Hf Hf'; [done|].
  assert (IH' := IH (λ y Hy, Hf y (list_elem_of_further _ _ _ Hy))
                    (λ y Hy, Hf' y (list_elem_of_further _ _ _ Hy))).
  pose proof (Hf x (list_elem_of_here _ _)) as Hx.
  pose proof (Hf' x (list_elem_of_here _ _)) as Hx'.
  cbn [List.filter]. rewrite (fmap_cons h). destruct (p x); cbn [negb].
  - rewrite fmap_cons, <- Permutation_middle, Hx' by done. by constructor.
  - rewrite fmap_cons, Hx by done. simpl. by constructor.
Qed.


(** *** ReplaceNode keeps the graph well formed *)

(** [Graph] gives every new edge the next free identifier: the identifiers
    in use are below [next_edge_id]. *)
Definition fresh_edge_ids (g : t) : Prop :=
  ∀ e, e ∈ edges g → (edge_id e < next_edge_id g)%nat.

Definition well_formed (g : t) : Prop := wf g ∧ fresh_edge_ids g.

Lemma NoDup_fmap_filter {A B} (f : A → B) (p : A → bool) (l : list A) :
  NoDup (f <$> l) → NoDup (f <$> List.filter p l).
Proof.
  induction l as [|x l IH]; [done|].
  rewrite fmap_cons, NoDup_cons. intros [Hx Hl]. simpl.
  destruct (p x); [|by apply IH].
  rewrite fmap_cons. apply NoDup_cons. split; [|by apply IH].
  intros (y & Hy & Hin)%list_elem_of_fmap. apply filter_elem in Hin as [Hin _].
  apply Hx. rewrite Hy. by apply list_elem_of_fmap_2.
Qed.

(** Dropping edges keeps a graph well formed as long as the nodes that are
    dropped with them are not endpoints of the edges that stay. *)
Lemma drop_edges_well_formed g (p : Edge → bool) (ns : gmap nat Node) :
  well_formed g →
  (∀ i, is_Some (ns !! i) → is_Some (nodes g !! i)) →
  (∀ e, e ∈ edges g → p e = true →
        is_Some (ns !! src e) ∧ is_Some (ns !! dst e)) →
  well_formed {| nodes := ns; edges := List.filter p (edges g);
                 next_node_id := next_node_id g; next_edge_id := next_edge_id g |}.
Proof.
  intros [[Hids Hends Hnd] Hfresh] Hsub Hkeep. split; [split|]; simpl.
  - intros i Hi. by apply Hids, Hsub.
  - intros e [He Hp]%filter_elem. by apply Hkeep.
  - by apply NoDup_fmap_filter.
  - intros e [He _]%filter_elem. by apply Hfresh.
Qed.

Lemma RemoveEdge_well_formed g e : well_formed g → well_formed (RemoveEdge g e).
Proof.
  intros Hg. apply drop_edges_well_formed; [done..|].
  intros e' He' _. by apply (wf_endpoints g (proj1 Hg)).
Qed.

Lemma remove_edges_well_formed g l :
  well_formed g → well_formed (foldl RemoveEdge g l).
Proof.
  revert g. induction l as [|e l IH]; intros g Hg; [done|].
  simpl. by apply IH, RemoveEdge_well_formed.
Qed.

Lemma RemoveNode_well_formed g n : well_formed g → well_formed (RemoveNode g n).
Proof.
  intros Hg. apply drop_edges_well_formed; [done| |].
  - intros i [nd Hi]. apply lookup_delete_Some in Hi as [_ Hi]. by eexists.
  - intros e He [Hs%negb_true_iff%Nat.eqb_neq Hd%negb_true_iff%Nat.eqb_neq]%andb_true_iff.
    destruct (wf_endpoints g (proj1 Hg) e He) as [[s Hsrc] [d Hdst]].
    split; eexists; apply lookup_delete_Some; eauto.
Qed.

Lemma AddEdge_well_formed g s x d y :
  well_formed g → is_Some (nodes g !! s) → is_Some (nodes g !! d) →
  well_formed (AddEdge g s x d y).
Proof.
  intros [[Hids Hends Hnd] Hfresh] Hs Hd. split; [split|]; simpl.
  - exact Hids.
  - intros e [He | ->%list_elem_of_singleton]%elem_of_app; [by apply Hends | done].
  - rewrite fmap_app. apply NoDup_app. split; [done|]. split; [|apply NoDup_singleton].
    intros i (e & -> & He)%list_elem_of_fmap Hi%list_elem_of_singleton.
    apply Hfresh in He. simpl in Hi. lia.
  - intros e [He%Hfresh | ->%list_elem_of_singleton]%elem_of_app; simpl; lia.
Qed.

(** A loop that adds one edge for each item of a list, between nodes of the
    graph. *)
Lemma add_edges_well_formed {A} (fs : A → nat) (fx : A → Z) (fd : A → nat)
      (fy : A → Z) g (l : list A) :
  well_formed g →
  (∀ a, a ∈ l → is_Some (nodes g !! fs a) ∧ is_Some (nodes g !! fd a)) →
  well_formed (foldl (λ g a, AddEdge g (fs a) (fx a) (fd a) (fy a)) g l) ∧
  nodes (foldl (λ g a, AddEdge g (fs a) (fx a) (fd a) (fy a)) g l) = nodes g.
Proof.
  revert g. induction l as [|a l IH]; intros g Hg Hl; [done|].
  simpl. destruct (Hl a (list_elem_of_here _ _)) as [Hs Hd].
  destruct (IH (AddEdge g (fs a) (fx a) (fd a) (fy a))) as [Hwf Hnodes].
  - by apply AddEdge_well_formed.
  - intros b Hb. simpl. by apply Hl, list_elem_of_further.
  - by split.
Qed.

Lemma AddNode_well_formed g node_def :
  well_formed g → well_formed (AddNode g node_def).1.2.
Proof.
  intros Hg. unfold AddNode. destruct (ValidateNodeDef node_def); [|done].
  destruct Hg as [[Hids Hends Hnd] Hfresh]. split; [split|]; simpl; [| |done..].
  - intros i [nd Hi]. apply lookup_insert_Some in Hi as [[<- _] | [_ Hi]]; [lia|].
    apply Nat.lt_lt_succ_r, Hids. by eexists.
  - intros e He. destruct (Hends e He) as [Hs Hd].
    split; apply lookup_insert_is_Some'; by right.
Qed.

(** X15.  ReplaceNode keeps a well-formed graph well formed, whatever the
    node and the definition it is given and whether it succeeds or fails:
    every edge of the result joins two nodes of the result, the edge
    identifiers are distinct and below the next free one, and the node
    identifiers are below the next free one. *)
Theorem ReplaceNode_well_formed (g : t) (n : nat) (node_def : NodeDef) :
  well_formed g → well_formed (ReplaceNode g n node_def).2.
Proof.
  intros Hg. pose proof (AddNode_well_formed g node_def Hg) as H1.
  unfold ReplaceNode. unfold AddNode in *.
  destruct (ValidateNodeDef node_def); [|done]. simpl in H1.
  set (g1 := {| nodes := <[next_node_id g := _]> (nodes g); edges := edges g;
                next_node_id := S (next_node_id g);
                next_edge_id := next_edge_id g |}) in *.
  cbn [snd]. apply RemoveNode_well_formed.
  assert (Hnew : is_Some (nodes g1 !! next_node_id g)).
  { simpl. rewrite lookup_insert_eq. by eexists. }
  pose proof (remove_edges_well_formed g1 (out_edges g1 n) H1) as H2.
  destruct (remove_edges_fields g1 (out_edges g1 n)) as (Hn2 & _ & He2).
  set (g2 := foldl RemoveEdge g1 (out_edges g1 n)) in *.
  destruct (add_edges_well_formed src src_output (λ _, next_node_id g) dst_input
              g2 (in_edges g2 n) H2) as [H3 Hn3].
  { intros e [He _]%filter_elem. rewrite Hn2. split; [|done].
    by apply (wf_endpoints g2 (proj1 H2)) in He as [He _]; rewrite Hn2 in He. }
  set (g3 := foldl _ g2 (in_edges g2 n)) in *.
  apply (add_edges_well_formed (λ _, next_node_id g) info_src_output info_dst
           info_dst_input g3 _ H3).
  intros i (e & -> & He)%list_elem_of_fmap. rewrite Hn3, Hn2. split; [done|].
  apply filter_elem in He as [He _]. simpl.
  by apply (wf_endpoints g1 (proj1 H1)) in He as [_ He].
Qed.

(** *** BuildIdentityNode *)

(** [AddNodeAttr("T", dtype, &ndef)] sets the attribute to the type. *)
Definition BuildIdentityNode (graph : t) (node_name : string) (dtype : DataType)
           (input : option Node) (requested_device : option string)
  : StatusOr nat * t :=
  (* Create identity node. *)
  let ndef :=
    {| name := node_name;
       op := "Identity";
       input := match input with Some input => [name (def input)] | None => [] end;
       device := match requested_device with
                 | Some requested_device => requested_device
                 | None => ""
                 end;
       attr := <["T" := AV_type dtype]> ∅ |} in
  match AddNode graph ndef with
  | (Status.Error c m, graph, _) => (Failed c m, graph)
  | (OK, graph, id_node) => (Value id_node, graph)
  end.

(** X16.  In a well-formed graph, BuildIdentityNode either fails and leaves
    the graph as it was, or adds one node and nothing else: the node is new,
    its op is Identity, its only attribute is the type, its definition names
    the input when one is given; all other nodes and all edges are as
    before, so the new node has no edge, not even from the input it names;
    and the graph stays well formed. *)
Theorem BuildIdentityNode_adds_one_node
        (graph : t) (node_name : string) (dtype : DataType) (input_node : option Node)
        (requested_device : option string) :
  well_formed graph →
  match BuildIdentityNode graph node_name dtype input_node requested_device with
  | (Failed _ _, graph') => graph' = graph
  | (Value id_node, graph') =>
      nodes graph !! id_node = None ∧
      (∃ nd, nodes graph' = <[id_node := nd]> (nodes graph) ∧
             name (def nd) = node_name ∧ op (def nd) = "Identity" ∧
             input (def nd) = option_list (name ∘ def <$> input_node) ∧
             device (def nd) = default "" requested_device ∧
             attr (def nd) = {[ "T" := AV_type dtype ]}) ∧
      edges graph' = edges graph ∧
      in_edges graph' id_node = [] ∧ out_edges graph' id_node = [] ∧
      well_formed graph'
  end.
Proof.
  intros Hg. unfold BuildIdentityNode.
  set (ndef := {| name := node_name |}).
  pose proof (AddNode_well_formed graph ndef Hg) as Hwf.
  unfold AddNode in *. destruct (ValidateNodeDef ndef); [|done].
  destruct Hg as [[Hids Hends Hnd] Hfresh].
  assert (Hnew : nodes graph !! next_node_id graph = None).
  { destruct (nodes graph !! next_node_id graph) eqn:H; [|done].
    pose proof (Hids _ (mk_is_Some _ _ H)). lia. }
  split; [done|]. split.
  { eexists. split; [reflexivity|]. simpl.
    split; [done|]. split; [done|]. split; [by destruct input_node|].
    split; [by destruct requested_device | done]. }
  split; [done|].
  split; [|split; [|exact Hwf]]; apply filter_false; simpl; intros e He;
    apply Nat.eqb_neq; intros Heq; destruct (Hends e He) as [[? Hs] [? Hd]];
    congruence.
Qed.

End Operations.

(** *** Examples *)

Definition example_node (nm : string) : Node :=
  {| def := GraphPruner.mk_node nm []; assigned_device_name := "" |}.

Definition mk_edge (i s : nat) (x : Z) (d : nat) (y : Z) : Edge :=
  {| edge_id := i; src := s; src_output := x; dst := d; dst_input := y |}.

(** [a -> n -> c], a control edge [a -> n] and a second output of [n]. *)
Definition example_graph : t :=
  {| nodes := <[2%nat := example_node "c"]>
                (<[1%nat := example_node "n"]> (<[0%nat := example_node "a"]> ∅));
     edges := [ mk_edge 0 0 0 1 0; mk_edge 1 0 (-1) 1 (-1);
                mk_edge 2 1 0 2 0; mk_edge 3 1 1 2 1 ];
     next_node_id := 3;
     next_edge_id := 4 |}.

Definition always_valid (_ : NodeDef) : Status := OK.

Lemma example_graph_wf : wf example_graph.
Proof.
  split.
  - intros i [nd Hi]. simpl in *.
    destruct i as [|[|[|i]]]; [lia..|].
    rewrite !lookup_insert_ne, lookup_empty in Hi by lia. discriminate.
  - intros e He. simpl in He.
    repeat (apply elem_of_cons in He as [-> | He]; [by split; eexists|]).
    by apply elem_of_nil in He.
  - apply (bool_decide_unpack _). vm_compute. reflexivity.
Qed.

Lemma example_graph_no_self_edge : no_self_edge example_graph 1.
Proof.
  intros e He [Hs Hd]. simpl in He.
  repeat (apply elem_of_cons in He as [-> | He]; [simpl in *; lia|]).
  by apply elem_of_nil in He.
Qed.

Example ReplaceNode_example :
  edges (ReplaceNode always_valid example_graph 1 (GraphPruner.mk_node "n2" [])).2
  = [ mk_edge 4 0 0 3 0; mk_edge 5 0 (-1) 3 (-1);
      mk_edge 6 3 0 2 0; mk_edge 7 3 1 2 1 ].
Proof. vm_compute. reflexivity. Qed.

Lemma ReplaceNode_preserves_edges_witness :
  ∃ new g',
    ReplaceNode always_valid example_graph 1 (GraphPruner.mk_node "n2" [])
    = (Value new, g') ∧
    nodes example_graph !! new = None ∧
    nodes g' !! 1%nat = None ∧
    def <$> nodes g' !! new = Some (GraphPruner.mk_node "n2" []) ∧
    (∀ i, i ≠ 1%nat → i ≠ new → nodes g' !! i = nodes example_graph !! i) ∧
    in_view <$> in_edges g' new ≡ₚ in_view <$> in_edges example_graph 1 ∧
    out_view <$> out_edges g' new ≡ₚ out_view <$> out_edges example_graph 1 ∧
    (∀ e, e ∈ edges g' → src e ≠ 1%nat ∧ dst e ≠ 1%nat) ∧
    ends <$> List.filter (λ e, apart_from new (ends e)) (edges g')
    = ends <$> List.filter (λ e, apart_from 1 (ends e)) (edges example_graph).
Proof.
  apply (ReplaceNode_preserves_edges always_valid example_graph 1
           (GraphPruner.mk_node "n2" [])).
  - exact example_graph_wf.
  - by eexists.
  - exact example_graph_no_self_edge.
  - reflexivity.
Defined.

(** A node with an edge to itself loses that edge: the copy made for the
    new node still ends at [n], and goes away with [n]. *)
Definition self_loop_graph : t :=
  {| nodes := <[0%nat := example_node "n"]> ∅;
     edges := [ mk_edge 0 0 0 0 0 ];
     next_node_id := 1;
     next_edge_id := 1 |}.

Lemma self_loop_graph_wf : wf self_loop_graph.
Proof.
  split.
  - intros i [nd Hi]. simpl in *. destruct i as [|i]; [lia|].
    rewrite lookup_insert_ne, lookup_empty in Hi by lia. discriminate.
  - intros e He. simpl in He.
    apply elem_of_cons in He as [-> | He]; [by split; eexists|].
    by apply elem_of_nil in He.
  - apply (bool_decide_unpack _). vm_compute. reflexivity.
Qed.

(** C2.  The claim fails on the code for a node with an edge to itself.  In
    the well-formed graph of one node [n] with a data edge from its output 0
    to its input 0, ReplaceNode succeeds and returns a new node that has no
    edge at all: the result has no edge, where the claim has one edge into
    the new node and one out of it.  The edge is recorded with [n] as its
    destination, added again from the new node to [n], and removed with
    [n]; the loop over the edges into [n] runs when the edges out of [n],
    this one among them, are gone.  RewriteAssociatedFunction, which
    replaces a node by the same steps but reads the edges out of it after
    it has copied the edges into it, keeps such an edge
    ([Functions.RewriteAssociatedFunction_FunctionCall]). *)
Lemma ReplaceNode_drops_self_edge :
  wf self_loop_graph ∧
  is_Some (nodes self_loop_graph !! 0%nat) ∧
  always_valid (GraphPruner.mk_node "n2" []) = OK ∧
  in_view <$> in_edges self_loop_graph 0 = [(0%nat, 0, 0, false)] ∧
  out_view <$> out_edges self_loop_graph 0 = [(0%nat, 0, 0, false)] ∧
  (ReplaceNode always_valid self_loop_graph 0 (GraphPruner.mk_node "n2" [])).1
  = Value 1%nat ∧
  edges (ReplaceNode always_valid self_loop_graph 0 (GraphPruner.mk_node "n2" [])).2
  = [] ∧
  in_view <$> in_edges
    (ReplaceNode always_valid self_loop_graph 0 (GraphPruner.mk_node "n2" [])).2 1
  = [] ∧
  out_view <$> out_edges
    (ReplaceNode always_valid self_loop_graph 0 (GraphPruner.mk_node "n2" [])).2 1
  = [].
Proof.
  split; [exact self_loop_graph_wf|]. split; [by eexists|].
  repeat split; vm_compute; reflexivity.
Qed.

Lemma example_graph_well_formed : well_formed example_graph.
Proof.
  split; [exact example_graph_wf|]. intros e He. simpl in He.
  repeat (apply elem_of_cons in He as [-> | He]; [simpl; lia|]).
  by apply elem_of_nil in He.
Qed.

Lemma ReplaceNode_well_formed_witness :
  well_formed (ReplaceNode always_valid example_graph 1 (GraphPruner.mk_node "n2" [])).2.
Proof.
  apply (ReplaceNode_well_formed always_valid example_graph 1
           (GraphPruner.mk_node "n2" [])).
  exact example_graph_well_formed.
Defined.

(** An identity node for the output of ["n"]: node 3, without edges. *)
Example BuildIdentityNode_example :
  BuildIdentityNode always_valid example_graph "id" 1 (Some (example_node "n")) None
  = (Value 3%nat,
     {| nodes := <[3%nat := {| def := {| name := "id"; op := "Identity"; input := ["n"];
                                         device := "";
                                         attr := <["T" := AV_type 1]> ∅ |};
                               assigned_device_name := "" |}]>
                   (nodes example_graph);
        edges := edges example_graph;
        next_node_id := 4;
        next_edge_id := 4 |}).
Proof. reflexivity. Qed.

Lemma BuildIdentityNode_adds_one_node_witness :
  match BuildIdentityNode always_valid example_graph "id" 1
                          (Some (example_node "n")) None with
  | (Failed _ _, graph') => graph' = example_graph
  | (Value id_node, graph') =>
      nodes example_graph !! id_node = None ∧
      (∃ nd, nodes graph' = <[id_node := nd]> (nodes example_graph) ∧
             name (def nd) = "id" ∧ op (def nd) = "Identity" ∧
             input (def nd) = ["n"] ∧
             device (def nd) = "" ∧
             attr (def nd) = {[ "T" := AV_type 1 ]}) ∧
      edges graph' = edges example_graph ∧
      in_edges graph' id_node = [] ∧ out_edges graph' id_node = [] ∧
      well_formed graph'
  end.
Proof.
  apply (BuildIdentityNode_adds_one_node always_valid example_graph "id" 1
           (Some (example_node "n")) None).
  exact example_graph_well_formed.
Defined.

End Graph.

(** ** SetNodeShardingFromNeighbors *)

Module Sharding.

(** Modelled from the spec: [xla::OpSharding] (xla_data.proto) is not among
    the sources.  A sharding has a kind, of which only the single-core
    ("maximal") one is accepted here, and the devices of its tile
    assignment. *)
Inductive OpSharding_Type := REPLICATED | MAXIMAL | TUPLE | OTHER.

Record OpSharding := {
  type : OpSharding_Type;
  tile_assignment_devices : list Z
}.

(** The conversion of a 64-bit device number to [int]. *)
Definition int (z : Z) : Z := (z + 2 ^ 31) mod 2 ^ 32 - 2 ^ 31.

(** [std::numeric_limits<int32>::max()] *)
Definition int32_max : Z := 2147483647.

(** The node at the end of an edge.  The endpoints of an edge are nodes of
    the graph ([Graph.wf]); the lookup is total for the sake of the
    definitions only. *)
Definition node_of (g : Graph.t) (i : nat) : Graph.Node :=
  default {| Graph.def := {| name := ""; op := ""; input := []; device := "";
                             attr := ∅ |};
             Graph.assigned_device_name := "" |}
          (Graph.nodes g !! i).

(** [n->set_assigned_device_name(m->assigned_device_name())] and
    [n->set_requested_device(m->requested_device())]: the requested device
    is the device of the definition. *)
Definition set_devices (m n : Graph.Node) : Graph.Node :=
  {| Graph.def := {| name := name (Graph.def n); op := op (Graph.def n);
                     input := input (Graph.def n);
                     device := device (Graph.def m);
                     attr := attr (Graph.def n) |};
     Graph.assigned_device_name := Graph.assigned_device_name m |}.

Definition with_devices (g : Graph.t) (n : nat) (m : Graph.Node) : Graph.t :=
  {| Graph.nodes := alter (set_devices m) n (Graph.nodes g);
     Graph.edges := Graph.edges g;
     Graph.next_node_id := Graph.next_node_id g;
     Graph.next_edge_id := Graph.next_edge_id g |}.

Section Neighbors.

(** [ParseShardingFromDevice] (sharding_util.cc) is not among the sources:
    the sharding annotation of a node, if it has one, or an error. *)
Variable ParseShardingFromDevice : Graph.Node → Z → Graph.StatusOr (option OpSharding).

(** The loop over the edges, on [core] and [matching_node].
    [tile_assignment_devices(0)] of a sharding without devices is not
    defined by the source; 0 stands for it. *)
Fixpoint neighbors_loop (g : Graph.t) (out_edges : bool) (edges : list Graph.Edge)
         (core : Z) (matching_node : option nat) : Status * option nat :=
  match edges with
  | [] => (OK, matching_node)
  | edge :: edges' =>
      if Graph.IsControlEdge edge then
        neighbors_loop g out_edges edges' core matching_node
      else
        let possible_match := if out_edges then Graph.dst edge else Graph.src edge in
        match ParseShardingFromDevice (node_of g possible_match) int32_max with
        | Graph.Failed c m => (Status.Error c m, matching_node)
        | Graph.Value None => neighbors_loop g out_edges edges' core matching_node
        | Graph.Value (Some sharding) =>
            match type sharding with
            | MAXIMAL =>
                let core_annotation :=
                  int (default 0 (tile_assignment_devices sharding !! 0%nat)) in
                if (core =? -1) || (core >? core_annotation) then
                  neighbors_loop g out_edges edges' core_annotation (Some possible_match)
                else neighbors_loop g out_edges edges' core matching_node
            | _ =>
                (Status.Error Status.INTERNAL
                   "sharding.value().type() == xla::OpSharding::Type::OpSharding_Type_MAXIMAL",
                 matching_node)
            end
        end
  end.

(** The status and the graph that holds [*n]. *)
Definition SetNodeShardingFromNeighbors (g : Graph.t) (n : nat) (out_edges : bool)
  : Status * Graph.t :=
  match neighbors_loop g out_edges
          (if out_edges then Graph.out_edges g n else Graph.in_edges g n) (-1) None with
  | (Status.Error c m, _) => (Status.Error c m, g)
  | (OK, None) => (OK, g)
  | (OK, Some matching_node) => (OK, with_devices g n (node_of g matching_node))
  end.

(** *** The neighbor that is chosen *)

(** The other end of an edge of the node, and the core of its sharding when
    the edge carries data and the neighbor has a maximal sharding. *)
Definition neighbor (out_edges : bool) (e : Graph.Edge) : nat :=
  if out_edges then Graph.dst e else Graph.src e.

Definition core_of (g : Graph.t) (out_edges : bool) (e : Graph.Edge) : option Z :=
  if Graph.IsControlEdge e then None
  else
    match ParseShardingFromDevice (node_of g (neighbor out_edges e)) int32_max with
    | Graph.Value (Some sharding) =>
        match type sharding with
        | MAXIMAL => Some (int (default 0 (tile_assignment_devices sharding !! 0%nat)))
        | _ => None
        end
    | _ => None
    end.

(** An edge that lets the loop go on: a control edge, or a data edge to a
    neighbor without sharding or with a maximal one. *)
Definition passes (g : Graph.t) (out_edges : bool) (e : Graph.Edge) : Prop :=
  Graph.IsControlEdge e = false →
  match ParseShardingFromDevice (node_of g (neighbor out_edges e)) int32_max with
  | Graph.Failed _ _ => False
  | Graph.Value None => True
  | Graph.Value (Some sharding) => type sharding = MAXIMAL
  end.

(** What the loop has found among the edges [seen]. *)
Definition found (g : Graph.t) (out_edges : bool) (seen : list Graph.Edge)
           (matching_node : option nat) (core : Z) : Prop :=
  (matching_node = None ∧ core = -1 ∧ ∀ e, e ∈ seen → core_of g out_edges e = None)
  ∨ (∃ e, e ∈ seen ∧ matching_node = Some (neighbor out_edges e) ∧
          core_of g out_edges e = Some core ∧
          ∀ e' c', e' ∈ seen → core_of g out_edges e' = Some c' → core ≤ c').

Lemma neighbors_loop_found g out_edges edges seen core matching_node result :
  found g out_edges seen matching_node core →
  (∀ e, e ∈ seen ++ edges → core_of g out_edges e ≠ Some (-1)) →
  neighbors_loop g out_edges edges core matching_node = (OK, result) →
  ∃ core', found g out_edges (seen ++ edges) result core'.
Proof.
  revert seen core matching_node.
  induction edges as [|edge edges IH]; intros seen core matching_node Hfound Hcores.
  { intros [= <-]. exists core. by rewrite app_nil_r. }
  assert (Hnext : ∀ core' matching_node',
             found g out_edges (seen ++ [edge]) matching_node' core' →
             neighbors_loop g out_edges edges core' matching_node' = (OK, result) →
             ∃ core'', found g out_edges (seen ++ edge :: edges) result core'').
  { intros core' matching_node' Hf Hloop. rewrite cons_middle, app_assoc.
    apply (IH _ core' matching_node'); [done| |done].
    intros e He. apply Hcores. by rewrite cons_middle, app_assoc. }
  assert (Hskip : core_of g out_edges edge = None →
                  found g out_edges (seen ++ [edge]) matching_node core).
  { intros Hnone. destruct Hfound as [(-> & -> & Hall) | (e & He & -> & Hc & Hmin)].
    - left. split; [done|]. split; [done|].
      intros e [He | ->%list_elem_of_singleton]%elem_of_app; [by apply Hall | done].
    - right. exists e. split; [by apply elem_of_app; left|]. split; [done|].
      split; [done|].
      intros e' c' [He' | ->%list_elem_of_singleton]%elem_of_app Hc';
        [by apply (Hmin e') | congruence]. }
  pose proof (Hcores edge) as Hedge. unfold core_of, neighbor in Hskip, Hedge.
  cbn [neighbors_loop].
  destruct (Graph.IsControlEdge edge) eqn:Hctrl.
  { intros Hloop. apply (Hnext core matching_node); [by apply Hskip | done]. }
  destruct (ParseShardingFromDevice _ _) as [[sharding|]|c m] eqn:Hparse; [| |done].
  2:{ intros Hloop. apply (Hnext core matching_node); [by apply Hskip | done]. }
  destruct (type sharding) eqn:Htype;
    [done | | done | done].
  set (core_annotation := int (default 0 (tile_assignment_devices sharding !! 0%nat))) in *.
  assert (Hc : core_of g out_edges edge = Some core_annotation).
  { unfold core_of, neighbor. by rewrite Hctrl, Hparse, Htype. }
  assert (Hne : core_annotation ≠ -1).
  { intros Heq. apply Hedge; [|by rewrite Heq].
    apply elem_of_app. right. apply list_elem_of_here. }
  destruct (Z.eqb_spec core (-1)) as [Hcore | Hcore]; cbn [orb].
  - (* nothing was found before, or what was found is replaced *)
    intros Hloop. apply (Hnext _ _) in Hloop; [done|].
    right. exists edge. split; [apply elem_of_app; right; apply list_elem_of_here|].
    split; [done|]. split; [done|].
    intros e' c' [He' | ->%list_elem_of_singleton]%elem_of_app Hc'.
    + destruct Hfound as [(_ & _ & Hall) | (e & He & _ & Hce & _)].
      * rewrite (Hall e' He') in Hc'. discriminate.
      * exfalso. apply (Hcores e); [by apply elem_of_app; left|]. by rewrite Hce, Hcore.
    + rewrite Hc in Hc'. injection Hc' as <-. lia.
  - destruct Hfound as [(_ & Hcore' & _) | (e & He & -> & Hce & Hmin)]; [done|].
    destruct (Z.gtb_spec core core_annotation) as [Hgt | Hle].
    + intros Hloop. apply (Hnext _ _) in Hloop; [done|].
      right. exists edge. split; [apply elem_of_app; right; apply list_elem_of_here|].
      split; [done|]. split; [done|].
      intros e' c' [He' | ->%list_elem_of_singleton]%elem_of_app Hc'.
      * specialize (Hmin e' c' He' Hc'). lia.
      * rewrite Hc in Hc'. injection Hc' as <-. lia.
    + intros Hloop. apply (Hnext _ _) in Hloop; [done|].
      right. exists e. split; [by apply elem_of_app; left|]. split; [done|].
      split; [done|].
      intros e' c' [He' | ->%list_elem_of_singleton]%elem_of_app Hc'.
      * by apply (Hmin e').
      * rewrite Hc in Hc'. injection Hc' as <-. lia.
Qed.

(** X25.  When SetNodeShardingFromNeighbors succeeds and no neighbor is on a
    core that reads -1, then either no data edge of the node in the chosen
    direction leads to a neighbor with a sharding, and the graph is
    unchanged; or the node is given the assigned and the requested device of
    a neighbor on such an edge whose core is the smallest of all of them. *)
Theorem SetNodeShardingFromNeighbors_smallest_core
        (g : Graph.t) (n : nat) (out_edges : bool) (g' : Graph.t) :
  let edges := if out_edges then Graph.out_edges g n else Graph.in_edges g n in
  SetNodeShardingFromNeighbors g n out_edges = (OK, g') →
  (∀ e, e ∈ edges → core_of g out_edges e ≠ Some (-1)) →
  ((∀ e, e ∈ edges → core_of g out_edges e = None) ∧ g' = g)
  ∨ (∃ e c, e ∈ edges ∧ core_of g out_edges e = Some c ∧
            (∀ e' c', e' ∈ edges → core_of g out_edges e' = Some c' → c ≤ c') ∧
            g' = with_devices g n (node_of g (neighbor out_edges e))).
Proof.
  intros edges. unfold SetNodeShardingFromNeighbors. fold edges.
  destruct (neighbors_loop g out_edges edges (-1) None) as [[|c m] result] eqn:Hloop;
    [|by destruct result].
  intros Hres Hcores.
  destruct (neighbors_loop_found g out_edges edges [] (-1) None result)
    as [core [(-> & _ & Hall) | (e & He & -> & Hc & Hmin)]]; [|done|done| |].
  - left. split; [done|]. split; [done|]. by intros e ?%elem_of_nil.
  - left. by injection Hres as <-.
  - right. injection Hres as <-. exists e, core. done.
Qed.

Lemma neighbors_loop_OK g out_edges edges core matching_node :
  (neighbors_loop g out_edges edges core matching_node).1 = OK
  ↔ ∀ e, e ∈ edges → passes g out_edges e.
Proof.
  revert core matching_node.
  induction edges as [|edge edges IH]; intros core matching_node.
  { split; [by intros _ e ?%elem_of_nil | done]. }
  assert (Hcons : ∀ P : Prop,
             (P ↔ passes g out_edges edge ∧ ∀ e, e ∈ edges → passes g out_edges e) →
             (P ↔ ∀ e, e ∈ edge :: edges → passes g out_edges e)).
  { intros P ->. split.
    - intros [He Hes] e [-> | Hin]%elem_of_cons; [done | by apply Hes].
    - intros H. split; [apply H, list_elem_of_here|].
      intros e He. by apply H, list_elem_of_further. }
  apply Hcons. cbn [neighbors_loop]. unfold passes at 1, neighbor.
  destruct (Graph.IsControlEdge edge) eqn:Hctrl.
  { rewrite IH. split; [by intros H; split | by intros [_ H]]. }
  destruct (ParseShardingFromDevice _ _) as [[sharding|]|c m].
  - destruct (type sharding);
      try (split; [discriminate | by intros [H _]; specialize (H eq_refl)]).
    destruct (_ || _); rewrite IH; (split; [by intros H; split | by intros [_ H]]).
  - rewrite IH. split; [by intros H; split | by intros [_ H]].
  - split; [discriminate | by intros [H _]; specialize (H eq_refl)].
Qed.

(** X26.  SetNodeShardingFromNeighbors succeeds exactly when, on every data
    edge of the node in the chosen direction, the sharding of the neighbor
    can be read and is maximal if there is one.  Control edges are not
    looked at. *)
Theorem SetNodeShardingFromNeighbors_OK_iff (g : Graph.t) (n : nat) (out_edges : bool) :
  (SetNodeShardingFromNeighbors g n out_edges).1 = OK
  ↔ ∀ e, e ∈ (if out_edges then Graph.out_edges g n else Graph.in_edges g n) →
         passes g out_edges e.
Proof.
  rewrite <- (neighbors_loop_OK g out_edges _ (-1) None).
  unfold SetNodeShardingFromNeighbors.
  destruct (neighbors_loop _ _ _ _ _) as [[|c m] [matching_node|]]; done.
Qed.

(** X27.  Whatever SetNodeShardingFromNeighbors returns, it changes at most
    the assigned and the requested device of the node: the other nodes, the
    edges and the identifiers are as before, and so are the name, the op,
    the inputs and the attributes of the node; a failure changes nothing. *)
Theorem SetNodeShardingFromNeighbors_devices_only
        (g : Graph.t) (n : nat) (out_edges : bool) :
  let s := (SetNodeShardingFromNeighbors g n out_edges).1 in
  let g' := (SetNodeShardingFromNeighbors g n out_edges).2 in
  Graph.edges g' = Graph.edges g ∧
  Graph.next_node_id g' = Graph.next_node_id g ∧
  Graph.next_edge_id g' = Graph.next_edge_id g ∧
  (∀ i, i ≠ n → Graph.nodes g' !! i = Graph.nodes g !! i) ∧
  (∀ nd, Graph.nodes g !! n = Some nd →
         ∃ nd', Graph.nodes g' !! n = Some nd' ∧
                name (Graph.def nd') = name (Graph.def nd) ∧
                op (Graph.def nd') = op (Graph.def nd) ∧
                input (Graph.def nd') = input (Graph.def nd) ∧
                attr (Graph.def nd') = attr (Graph.def nd)) ∧
  (Graph.nodes g !! n = None → Graph.nodes g' !! n = None) ∧
  (Status.ok s = false → g' = g).
Proof.
  simpl. unfold SetNodeShardingFromNeighbors.
  destruct (neighbors_loop _ _ _ _ _) as [[|c m] [matching_node|]]; simpl.
  2-4: by do 4 (split; [done|]); split; [intros nd Hnd; exists nd|].
  do 3 (split; [done|]).
  split; [by intros i Hi; rewrite lookup_alter_ne|].
  split; [|split; [|done]].
  - intros nd Hnd. eexists. rewrite lookup_alter_eq, Hnd. simpl. split; [done|]. done.
  - intros Hnone. by rewrite lookup_alter_eq, Hnone.
Qed.

End Neighbors.

(** *** Example *)

(** A reading of the sharding for the example: a node without a requested
    device has none, the device ["replicated"] is a replicated sharding, and
    any other device is a maximal sharding on the core that is the length of
    its name. *)
Definition example_parse (nd : Graph.Node) (num_cores_per_replica : Z)
  : Graph.StatusOr (option OpSharding) :=
  let d := device (Graph.def nd) in
  if String.eqb d "" then Graph.Value None
  else if String.eqb d "replicated" then
    Graph.Value (Some {| type := REPLICATED; tile_assignment_devices := [] |})
  else
    Graph.Value (Some {| type := MAXIMAL;
                         tile_assignment_devices := [Z.of_nat (String.length d)] |}).

Definition placed_node (nm requested assigned : string) : Graph.Node :=
  {| Graph.def := {| name := nm; op := "Op"; input := []; device := requested;
                     attr := ∅ |};
     Graph.assigned_device_name := assigned |}.

(** [a] on core 2 and [b] on core 1 feed [n]; [c] has no sharding. *)
Definition sharded_graph : Graph.t :=
  {| Graph.nodes :=
       <[3%nat := placed_node "c" "" ""]>
         (<[2%nat := placed_node "n" "" ""]>
            (<[1%nat := placed_node "b" "x" "/device:1"]>
               (<[0%nat := placed_node "a" "xx" "/device:2"]> ∅)));
     Graph.edges := [ Graph.mk_edge 0 0 0 2 0; Graph.mk_edge 1 1 0 2 1;
                      Graph.mk_edge 2 3 (-1) 2 (-1); Graph.mk_edge 3 2 0 3 0 ];
     Graph.next_node_id := 4;
     Graph.next_edge_id := 4 |}.

Example SetNodeShardingFromNeighbors_example :
  SetNodeShardingFromNeighbors example_parse sharded_graph 2 false
  = (OK, with_devices sharded_graph 2 (placed_node "b" "x" "/device:1"))
  ∧ Graph.nodes (with_devices sharded_graph 2 (placed_node "b" "x" "/device:1")) !! 2%nat
    = Some (placed_node "n" "x" "/device:1")
  ∧ SetNodeShardingFromNeighbors example_parse sharded_graph 2 true
    = (OK, sharded_graph).
Proof. repeat split; vm_compute; reflexivity. Qed.

Lemma SetNodeShardingFromNeighbors_smallest_core_witness :
  ((∀ e, e ∈ Graph.in_edges sharded_graph 2 →
         core_of example_parse sharded_graph false e = None)
   ∧ with_devices sharded_graph 2 (placed_node "b" "x" "/device:1") = sharded_graph)
  ∨ (∃ e c, e ∈ Graph.in_edges sharded_graph 2 ∧
            core_of example_parse sharded_graph false e = Some c ∧
            (∀ e' c', e' ∈ Graph.in_edges sharded_graph 2 →
                      core_of example_parse sharded_graph false e' = Some c' → c ≤ c') ∧
            with_devices sharded_graph 2 (placed_node "b" "x" "/device:1")
            = with_devices sharded_graph 2 (node_of sharded_graph (neighbor false e))).
Proof.
  apply (SetNodeShardingFromNeighbors_smallest_core example_parse sharded_graph 2 false
           (with_devices sharded_graph 2 (placed_node "b" "x" "/device:1"))).
  - vm_compute. reflexivity.
  - intros e He. cbn in He.
    repeat (apply elem_of_cons in He as [-> | He]; [by vm_compute|]).
    by apply elem_of_nil in He.
Defined.

End Sharding.


(** ** AddDtypeToKernalDefConstraint *)

Module KernelConstraints.

(** Modelled from the spec: [KernelDef] (kernel_def.proto) is not among the
    sources.  A kernel definition names its op and device type and holds
    constraints; a constraint names an attribute and holds the values
    allowed for it, an [AttrValue]: its list case, of which the types are
    all that is looked at here, or another case of the oneof. *)
Inductive AllowedValues :=
| list_value (type : list DataType)
| other_value (v : AttrValue).

Record AttrConstraint := {
  constraint_name : string;
  allowed_values : AllowedValues
}.

Record KernelDef := {
  kernel_op : string;
  device_type : string;
  constraint : list AttrConstraint
}.

(** [mutable_list()] gives the list of the value, making the value an empty
    list first when it is another case of the oneof. *)
Definition mutable_list (v : AllowedValues) : list DataType :=
  match v with list_value type => type | other_value _ => [] end.

(** [mutable_allowed_values()->mutable_list()->add_type(dtype)] *)
Definition add_type (c : AttrConstraint) (dtype : DataType) : AttrConstraint :=
  {| constraint_name := constraint_name c;
     allowed_values := list_value (mutable_list (allowed_values c) ++ [dtype]) |}.

(** [*kdef] after the call. *)
Definition AddDtypeToKernalDefConstraint (name : string) (dtype : DataType)
           (kdef : KernelDef) : KernelDef :=
  {| kernel_op := kernel_op kdef;
     device_type := device_type kdef;
     constraint :=
       (λ c, if String.eqb (constraint_name c) name then add_type c dtype else c)
         <$> constraint kdef |}.

Lemma add_type_changes c dtype : add_type c dtype ≠ c.
Proof.
  destruct c as [nm [l | v]]; unfold add_type; simpl; intros H; [|discriminate].
  injection H as H. apply (f_equal length) in H. rewrite length_app in H.
  simpl in H. lia.
Qed.

(** X28.  AddDtypeToKernalDefConstraint keeps the constraints, their names
    and their order, and appends the type to the allowed values of every
    constraint with the given name, also when the type is allowed already;
    the other constraints are as before.  So the kernel definition is
    unchanged exactly when no constraint has the name. *)
Theorem AddDtypeToKernalDefConstraint_appends
        (name : string) (dtype : DataType) (kdef : KernelDef) :
  let kdef' := AddDtypeToKernalDefConstraint name dtype kdef in
  constraint_name <$> constraint kdef' = constraint_name <$> constraint kdef ∧
  (∀ i c, constraint kdef !! i = Some c →
          ∃ c', constraint kdef' !! i = Some c' ∧
                (constraint_name c = name →
                 allowed_values c'
                 = list_value (mutable_list (allowed_values c) ++ [dtype])) ∧
                (constraint_name c ≠ name → c' = c)) ∧
  (kdef' = kdef ↔ ∀ c, c ∈ constraint kdef → constraint_name c ≠ name).
Proof.
  simpl. unfold AddDtypeToKernalDefConstraint. split; [|split].
  - simpl. rewrite <- list_fmap_compose. apply list_fmap_ext.
    intros i c _. simpl. by destruct (String.eqb _ _).
  - intros i c Hc. simpl. rewrite list_lookup_fmap, Hc. simpl.
    eexists. split; [reflexivity|].
    destruct (String.eqb_spec (constraint_name c) name); by split.
  - destruct kdef as [o d cs]. simpl. split.
    + intros [= H] c Hc Hname.
      apply list_elem_of_lookup in Hc as [i Hi].
      apply (f_equal (λ l, l !! i)) in H. rewrite list_lookup_fmap, Hi in H.
      simpl in H. rewrite (proj2 (String.eqb_eq _ _) Hname) in H.
      injection H as H. by apply add_type_changes in H.
    + intros Hno. f_equal. rewrite <- (list_fmap_id cs) at 2.
      apply list_fmap_ext. intros i c Hc. simpl.
      destruct (String.eqb_spec (constraint_name c) name) as [Hname | _]; [|done].
      exfalso. by apply (Hno c); [apply (list_elem_of_lookup_2 _ i)|].
Qed.

End KernelConstraints.


(** ** Associated functions *)

Module Functions.

(** Modelled from the spec: the function library
    ([FunctionLibraryDefinition], core/framework/function.h) is not among the
    sources.  It holds the registered subroutine names and a table from a
    subroutine name to the name of its gradient subroutine. *)
Record FunctionLibraryDefinition := {
  function_defs : gset string;
  func_grad : gmap string string
}.

Record GradientDef := { function_name : string; gradient_func : string }.

(** Modelled from the spec: [contains(name) -> bool]. *)
Definition Contains (fld : FunctionLibraryDefinition) (func : string) : bool :=
  bool_decide (func ∈ function_defs fld).

(** Modelled from the spec: [find_gradient(name) -> name or empty]. *)
Definition FindGradient (fld : FunctionLibraryDefinition) (func : string) : string :=
  default "" (func_grad fld !! func).

Definition set_gradient (fld : FunctionLibraryDefinition) (grad : GradientDef)
  : FunctionLibraryDefinition :=
  {| function_defs := function_defs fld;
     func_grad := <[function_name grad := gradient_func grad]> (func_grad fld) |}.

(** Modelled from the spec: [add_gradient(def) -> Result].  The spec does not
    say when it fails; it is taken to refuse to change a gradient that is
    registered already. *)
Definition AddGradientDef (fld : FunctionLibraryDefinition) (grad : GradientDef)
  : Status * FunctionLibraryDefinition :=
  let entry := FindGradient fld (function_name grad) in
  if negb (String.eqb entry "") && negb (String.eqb entry (gradient_func grad)) then
    (Status.InvalidArgument
       ["Cannot assign gradient function '"; gradient_func grad; "' to '";
        function_name grad; "' because it already has gradient function '";
        entry; "'"], fld)
  else (OK, set_gradient fld grad).

(** Modelled from the spec: [replace_gradient(def) -> Result].  It is taken
    to refuse when no gradient is registered for the function. *)
Definition ReplaceGradient (fld : FunctionLibraryDefinition) (grad : GradientDef)
  : Status * FunctionLibraryDefinition :=
  match func_grad fld !! function_name grad with
  | None =>
      (Status.InvalidArgument
         ["Tried to remove non-existent gradient "; function_name grad], fld)
  | Some _ => (OK, set_gradient fld grad)
  end.

(** Modelled from the spec: [AssociatedFunctionInfo] (tf2xla_util.h) is
    declared outside the sources: the three shapes in which a node refers to
    a subroutine, with the subroutine name, an attribute set and, for a
    function-valued attribute, the name of the attribute. *)
Inductive AssociatedFunctionType :=
| kFunctionAttr
| kFunctionCallNode
| kSymbolicGradient.

Record AssociatedFunctionInfo := {
  type : AssociatedFunctionType;
  func_name : string;
  attr_name : string;
  attrs : gmap string AttrValue
}.

Definition FunctionAttr (func_name : string) (attrs : gmap string AttrValue)
           (attr_name : string) : AssociatedFunctionInfo :=
  {| type := kFunctionAttr; func_name := func_name; attr_name := attr_name;
     attrs := attrs |}.

Definition FunctionCall (func_name : string) (attrs : gmap string AttrValue)
  : AssociatedFunctionInfo :=
  {| type := kFunctionCallNode; func_name := func_name; attr_name := "";
     attrs := attrs |}.

Definition SymbolicGradient (func_name : string) (attrs : gmap string AttrValue)
  : AssociatedFunctionInfo :=
  {| type := kSymbolicGradient; func_name := func_name; attr_name := "";
     attrs := attrs |}.

(** [v.func().name()] and [v.func().attr()] *)
Definition func_name_of (v : AttrValue) : string :=
  match v with AV_func n _ => n | _ => "" end.
Definition func_attr_of (v : AttrValue) : gmap string AttrValue :=
  match v with AV_func _ a => a | _ => ∅ end.

(** Modelled from the spec: [GetNodeAttr] for a function-valued attribute
    (node_def_util.cc): the function reference held by the attribute, or an
    error when the node has no such attribute or it holds something else. *)
Definition GetNodeAttr (attrs : gmap string AttrValue) (attr_name : string)
  : Status * (string * gmap string AttrValue) :=
  match attrs !! attr_name with
  | Some (AV_func n a) => (OK, (n, a))
  | Some _ =>
      (Status.InvalidArgument
         ["AttrValue had value with unexpected type for attr '"; attr_name; "'"],
       ("", ∅))
  | None =>
      (Status.NotFound ["No attr named '"; attr_name; "' in NodeDef"], ("", ∅))
  end.

Section AssociatedFunctions.

(** The reserved names of function.h: the op type of a gradient node and
    the attribute that holds the function it differentiates. *)
Variable kGradientOp : string.
Variable kFuncAttr : string.

Definition HasAssociatedFunction (node_def : NodeDef)
           (fld : FunctionLibraryDefinition) : bool :=
  if Contains fld (op node_def) then true
  else if String.eqb (op node_def) kGradientOp then true
  else existsb (λ iter, has_func iter.2) (map_to_list (attr node_def)).

(** The loop that collects the function attributes; [results.emplace_back]
    appends. *)
Definition collect_function_attrs (attrs : list (string * AttrValue))
  : list AssociatedFunctionInfo :=
  foldl (λ results iter,
           if has_func iter.2 then
             results ++ [FunctionAttr (func_name_of iter.2) (func_attr_of iter.2) iter.1]
           else results)
        [] attrs.

Definition GetAssociatedFunctions (node : Graph.Node) (fld : FunctionLibraryDefinition)
  : list AssociatedFunctionInfo :=
  let op := op (Graph.def node) in
  if Contains fld op then
    (* This is a function call node. *)
    [FunctionCall op (attr (Graph.def node))]
  else if String.eqb op kGradientOp then
    (* This is a SymbolicGradient op. *)
    [SymbolicGradient op (attr (Graph.def node))]
  else
    (* Collect all function attrs for the node. *)
    collect_function_attrs (map_to_list (attr (Graph.def node))).

(** What [RewriteAssociatedFunction] takes from code that is not among the
    sources, for the node it builds in the function-call case: whether a
    definition makes a node, the number and the types of the inputs of a
    node, and [NodeDefBuilder::Finalize]. *)
Variable ValidateNodeDef : NodeDef → Status.
Variable num_inputs : NodeDef → nat.
Variable input_type : NodeDef → nat → DataType.

Record NodeDefBuilder := {
  builder_name : string;
  builder_op : string;
  builder_attrs : gmap string AttrValue;
  builder_inputs : list (string * Z * DataType);
  builder_device : string
}.

Variable Finalize : NodeDefBuilder → Status * NodeDef.

(** [node->input_node(i, &input_node)]: the source of the edge into input
    [i]. *)
Definition input_node (g : Graph.t) (node : nat) (n : Graph.Node) (i : nat)
  : Status * nat :=
  match List.find (λ e, Graph.dst_input e =? Z.of_nat i) (Graph.in_edges g node) with
  | Some e => (OK, Graph.src e)
  | None =>
      (Status.NotFound ["Could not find input edge "; pretty i; " for ";
                        name (Graph.def n)], O)
  end.

(** The loop [for (int i = 0; i < node->num_inputs(); i++)], over the
    indices still to come. *)
Fixpoint builder_input_loop (g : Graph.t) (node : nat) (n : Graph.Node)
         (indices : list nat) (inputs : list (string * Z * DataType))
  : Status * list (string * Z * DataType) :=
  match indices with
  | [] => (OK, inputs)
  | i :: indices' =>
      match input_node g node n i with
      | (Status.Error c m, _) => (Status.Error c m, inputs)
      | (OK, input) =>
          let input_name :=
            match Graph.nodes g !! input with
            | Some n' => name (Graph.def n')
            | None => ""
            end in
          builder_input_loop g node n indices'
            (inputs ++ [(input_name, Z.of_nat i, input_type (Graph.def n) i)])
      end
  end.

(** [node->ClearAttr(name)] followed by [node->AddAttr(name, func)]. *)
Definition set_func_attr (g : Graph.t) (node : nat) (n : Graph.Node)
           (attr_name : string) (func : string * gmap string AttrValue) : Graph.t :=
  let attrs := delete attr_name (attr (Graph.def n)) in
  let attrs := <[attr_name := AV_func func.1 func.2]> attrs in
  {| Graph.nodes :=
       <[node := {| Graph.def :=
                      {| name := name (Graph.def n); op := op (Graph.def n);
                         input := input (Graph.def n);
                         device := device (Graph.def n); attr := attrs |};
                    Graph.assigned_device_name := Graph.assigned_device_name n |}]>
         (Graph.nodes g);
     Graph.edges := Graph.edges g;
     Graph.next_node_id := Graph.next_node_id g;
     Graph.next_edge_id := Graph.next_edge_id g |}.

(** The status, [*graph] and [*fld].  [None] stands for a [node] that is
    not a node of the graph, for which the source has no defined result. *)
Definition RewriteAssociatedFunction (graph : Graph.t) (node : nat)
           (fld : FunctionLibraryDefinition)
           (associated_function : AssociatedFunctionInfo)
           (rewritten_function_name : string)
  : option (Status * Graph.t * FunctionLibraryDefinition) :=
  match Graph.nodes graph !! node with
  | None => None
  | Some n =>
      Some
        match type associated_function with
        | kFunctionCallNode =>
            (* Change this node to call the new function. *)
            match builder_input_loop graph node n
                    (seq 0 (num_inputs (Graph.def n))) [] with
            | (Status.Error c m, _) => (Status.Error c m, graph, fld)
            | (OK, inputs) =>
                let builder :=
                  {| builder_name := name (Graph.def n);
                     builder_op := rewritten_function_name;
                     builder_attrs := attr (Graph.def n);
                     builder_inputs := inputs;
                     builder_device :=
                       if String.eqb (Graph.assigned_device_name n) ""
                       then device (Graph.def n)
                       else Graph.assigned_device_name n |} in
                match Finalize builder with
                | (Status.Error c m, _) => (Status.Error c m, graph, fld)
                | (OK, node_def) =>
                    match Graph.AddNode ValidateNodeDef graph node_def with
                    | (Status.Error c m, graph, _) => (Status.Error c m, graph, fld)
                    | (OK, graph, new_node) =>
                        let graph :=
                          foldl (λ g edge,
                                   Graph.AddEdge g (Graph.src edge) (Graph.src_output edge)
                                                 new_node (Graph.dst_input edge))
                                graph (Graph.in_edges graph node) in
                        let graph :=
                          foldl (λ g edge,
                                   Graph.AddEdge g new_node (Graph.src_output edge)
                                                 (Graph.dst edge) (Graph.dst_input edge))
                                graph (Graph.out_edges graph node) in
                        (OK, Graph.RemoveNode graph node, fld)
                    end
                end
            end
        | kSymbolicGradient =>
            match GetNodeAttr (attr (Graph.def n)) kFuncAttr with
            | (Status.Error c m, _) => (Status.Error c m, graph, fld)
            | (OK, func) =>
                let gradient_def :=
                  {| function_name := func.1;
                     gradient_func := rewritten_function_name |} in
                let original_grad_func := FindGradient fld func.1 in
                if String.eqb original_grad_func "" then
                  let '(s, fld) := AddGradientDef fld gradient_def in (s, graph, fld)
                else if negb (String.eqb original_grad_func rewritten_function_name) then
                  let '(s, fld) := ReplaceGradient fld gradient_def in (s, graph, fld)
                else (OK, graph, fld)
            end
        | kFunctionAttr =>
            (* Change function attr to rewritten functions. *)
            match GetNodeAttr (attr (Graph.def n)) (attr_name associated_function) with
            | (Status.Error c m, _) => (Status.Error c m, graph, fld)
            | (OK, func) =>
                (OK,
                 set_func_attr graph node n (attr_name associated_function)
                               (rewritten_function_name, func.2),
                 fld)
            end
        end
  end.

(** *** The shapes of the associated functions of a node *)

Lemma collect_function_attrs_spec (l : list (string * AttrValue)) :
  collect_function_attrs l
  = (λ iter, FunctionAttr (func_name_of iter.2) (func_attr_of iter.2) iter.1)
      <$> List.filter (λ iter, has_func iter.2) l.
Proof.
  unfold collect_function_attrs.
  induction l as [|x l IH] using rev_ind; [done|].
  rewrite foldl_app, List.filter_app, fmap_app. simpl.
  destruct (has_func x.2); simpl; rewrite IH; [done | by rewrite app_nil_r].
Qed.

(** C5.  The resolver answers in one of three shapes.  For an op type that
    the library contains: one FunctionCallNode entry with that name and all
    the attributes of the node, whatever else the node has.  Otherwise, for
    the gradient op: one SymbolicGradient entry.  Otherwise: FunctionAttr
    entries only, one for each attribute that holds a function, with the
    function's name, its attributes and the name of the attribute.  In every
    case all the entries of the answer have the same shape. *)
Theorem GetAssociatedFunctions_shapes (node : Graph.Node)
        (fld : FunctionLibraryDefinition) :
  let results := GetAssociatedFunctions node fld in
  let node_op := op (Graph.def node) in
  let node_attrs := attr (Graph.def node) in
  (Contains fld node_op = true → results = [FunctionCall node_op node_attrs]) ∧
  (Contains fld node_op = false → node_op = kGradientOp →
   results = [SymbolicGradient node_op node_attrs]) ∧
  (Contains fld node_op = false → node_op ≠ kGradientOp →
   (∀ info, info ∈ results ↔
            ∃ k fname fattr, node_attrs !! k = Some (AV_func fname fattr) ∧
                             info = FunctionAttr fname fattr k) ∧
   NoDup (attr_name <$> results)) ∧
  (∃ shape, ∀ info, info ∈ results → type info = shape).
Proof.
  simpl. unfold GetAssociatedFunctions.
  destruct (Contains fld (op (Graph.def node))) eqn:Hc.
  { split; [done|]. split; [done|]. split; [done|].
    exists kFunctionCallNode. by intros info ->%list_elem_of_singleton. }
  destruct (String.eqb_spec (op (Graph.def node)) kGradientOp) as [Hg | Hg].
  { split; [done|]. split; [done|]. split; [done|].
    exists kSymbolicGradient. by intros info ->%list_elem_of_singleton. }
  rewrite collect_function_attrs_spec.
  split; [done|]. split; [done|]. split.
  - intros _ _. split.
    + intros info. rewrite list_elem_of_fmap. split.
      * intros ([k v] & -> & Hkv). apply Graph.filter_elem in Hkv as [Hkv Hf].
        apply elem_of_map_to_list in Hkv. simpl in *.
        destruct v; try discriminate. eauto.
      * intros (k & fname & fattr & Hk & ->).
        exists (k, AV_func fname fattr). split; [done|].
        apply Graph.filter_elem. split; [by apply elem_of_map_to_list | done].
    + rewrite <- list_fmap_compose.
      pose proof (NoDup_fst_map_to_list (attr (Graph.def node))) as Hnd.
      induction (map_to_list (attr (Graph.def node))) as [|[k v] l IH]; [constructor|].
      rewrite fmap_cons in Hnd. apply NoDup_cons in Hnd as [Hk Hnd].
      simpl. destruct (has_func v); [|by apply IH].
      rewrite fmap_cons. apply NoDup_cons. split; [|by apply IH].
      intros ([k' v'] & Heq & Hin)%list_elem_of_fmap. simpl in Heq. subst k'.
      apply Graph.filter_elem in Hin as [Hin _].
      apply Hk. by apply (list_elem_of_fmap_2 fst) in Hin.
  - exists kFunctionAttr. by intros info ([k v] & -> & _)%list_elem_of_fmap.
Qed.

(** *** Rewriting a SymbolicGradient *)

Lemma set_gradient_same fld f g :
  func_grad fld !! f = Some g →
  set_gradient fld {| function_name := f; gradient_func := g |} = fld.
Proof.
  intros H. destruct fld as [defs grads]. unfold set_gradient. simpl in *.
  f_equal. by apply insert_id.
Qed.

Lemma FindGradient_set_gradient fld grad f :
  FindGradient (set_gradient fld grad) f
  = if decide (function_name grad = f) then gradient_func grad
    else FindGradient fld f.
Proof.
  unfold FindGradient, set_gradient. simpl. rewrite lookup_insert.
  by case_decide.
Qed.

(** C7.  For a node of the graph whose function attribute holds a function
    [fname], rewriting a SymbolicGradient association succeeds and touches
    the gradient table of the library only, at [fname]: the new name is
    added when [fname] has no gradient, it replaces a different one, and
    nothing changes when it is the registered one already.  The graph, and
    so the node, is returned as it was. *)
Theorem RewriteAssociatedFunction_SymbolicGradient
        (graph : Graph.t) (node : nat) (n : Graph.Node)
        (fld : FunctionLibraryDefinition)
        (associated_function : AssociatedFunctionInfo)
        (rewritten_function_name fname : string) (fattr : gmap string AttrValue) :
  Graph.nodes graph !! node = Some n →
  type associated_function = kSymbolicGradient →
  attr (Graph.def n) !! kFuncAttr = Some (AV_func fname fattr) →
  ∃ fld',
    RewriteAssociatedFunction graph node fld associated_function
                              rewritten_function_name
    = Some (OK, graph, fld') ∧
    function_defs fld' = function_defs fld ∧
    FindGradient fld' fname = rewritten_function_name ∧
    (∀ f, f ≠ fname → func_grad fld' !! f = func_grad fld !! f) ∧
    (func_grad fld !! fname = None →
     func_grad fld' = <[fname := rewritten_function_name]> (func_grad fld)) ∧
    (∀ old, func_grad fld !! fname = Some old → old ≠ rewritten_function_name →
            func_grad fld' = <[fname := rewritten_function_name]> (func_grad fld)) ∧
    (func_grad fld !! fname = Some rewritten_function_name → fld' = fld).
Proof.
  intros Hnode Htype Hattr.
  unfold RewriteAssociatedFunction. rewrite Hnode, Htype.
  unfold GetNodeAttr. rewrite Hattr. simpl.
  set (grad := {| function_name := fname; gradient_func := rewritten_function_name |}).
  destruct (String.eqb_spec (FindGradient fld fname) "") as [Hempty | Hnonempty].
  - (* no gradient is found: AddGradientDef *)
    unfold AddGradientDef. simpl. rewrite Hempty. simpl.
    exists (set_gradient fld grad). split; [done|]. split; [done|].
    split; [by rewrite FindGradient_set_gradient, decide_True|].
    split; [by intros f Hf; simpl; rewrite lookup_insert_ne|].
    split; [done|]. split; [done|].
    intros Hsame. by apply set_gradient_same.
  - destruct (String.eqb_spec (FindGradient fld fname) rewritten_function_name)
      as [Hsame | Hdiff]; simpl.
    + (* the gradient found is the new one *)
      exists fld. split; [done|]. split; [done|]. split; [done|].
      split; [done|].
      unfold FindGradient in Hsame, Hnonempty.
      destruct (func_grad fld !! fname) as [old|] eqn:Hold; [|done].
      simpl in Hsame. subst old.
      split; [done|]. split; [|done].
      intros old [= <-] Hne. done.
    + (* a different gradient is found: ReplaceGradient *)
      unfold ReplaceGradient. simpl.
      unfold FindGradient in Hdiff, Hnonempty.
      destruct (func_grad fld !! fname) as [old|] eqn:Hold; [|done].
      simpl in Hdiff.
      exists (set_gradient fld grad). split; [done|]. split; [done|].
      split; [by rewrite FindGradient_set_gradient, decide_True|].
      split; [by intros f Hf; simpl; rewrite lookup_insert_ne|].
      split; [done|]. split; [done|].
      intros [= ->]. done.
Qed.

(** *** Having an associated function, and listing them *)

(** X17.  The test and the resolver agree: [HasAssociatedFunction] answers
    true for the definition of a node exactly when [GetAssociatedFunctions]
    lists at least one function for the node. *)
Theorem HasAssociatedFunction_iff (node : Graph.Node) (fld : FunctionLibraryDefinition) :
  HasAssociatedFunction (Graph.def node) fld = true
  ↔ GetAssociatedFunctions node fld ≠ [].
Proof.
  unfold HasAssociatedFunction, GetAssociatedFunctions.
  destruct (Contains fld (op (Graph.def node))); [done|].
  destruct (String.eqb (op (Graph.def node)) kGradientOp); [done|].
  rewrite collect_function_attrs_spec.
  induction (map_to_list (attr (Graph.def node))) as [|[k v] l IH]; [done|].
  simpl. destruct (has_func v); simpl; [done | exact IH].
Qed.

(** The function attributes of a node that is neither a call nor a
    gradient. *)
Lemma GetAssociatedFunctions_attrs (node : Graph.Node) (fld : FunctionLibraryDefinition)
      (k fname : string) (fattr : gmap string AttrValue) :
  Contains fld (op (Graph.def node)) = false →
  op (Graph.def node) ≠ kGradientOp →
  FunctionAttr fname fattr k ∈ GetAssociatedFunctions node fld
  ↔ attr (Graph.def node) !! k = Some (AV_func fname fattr).
Proof.
  intros Hc Hg. unfold GetAssociatedFunctions. rewrite Hc.
  destruct (String.eqb_spec (op (Graph.def node)) kGradientOp) as [|_]; [done|].
  rewrite collect_function_attrs_spec, list_elem_of_fmap. split.
  - intros ([k' v] & Heq & Hkv). apply Graph.filter_elem in Hkv as [Hkv Hf].
    apply elem_of_map_to_list in Hkv. simpl in *.
    destruct v; try discriminate. simpl in Heq. by injection Heq as -> -> ->.
  - intros Hk. exists (k, AV_func fname fattr). split; [done|].
    apply Graph.filter_elem. split; [by apply elem_of_map_to_list | done].
Qed.

(** *** Rewriting a function attribute *)

(** X18.  For a node of the graph whose attribute [attr_name] holds a
    function, rewriting a FunctionAttr association succeeds and changes that
    attribute of that node only: it holds the new name with the attributes
    the function had; the other attributes, the name, the op, the inputs and
    the devices of the node, the other nodes, the edges and the library are
    as before.  Resolving the node again gives the new name for [attr_name]
    and what it gave before for every other attribute. *)
Theorem RewriteAssociatedFunction_FunctionAttr
        (graph : Graph.t) (node : nat) (n : Graph.Node)
        (fld : FunctionLibraryDefinition)
        (associated_function : AssociatedFunctionInfo)
        (rewritten_function_name fname : string) (fattr : gmap string AttrValue) :
  Graph.nodes graph !! node = Some n →
  type associated_function = kFunctionAttr →
  attr (Graph.def n) !! attr_name associated_function = Some (AV_func fname fattr) →
  ∃ graph' n',
    RewriteAssociatedFunction graph node fld associated_function
                              rewritten_function_name
    = Some (OK, graph', fld) ∧
    Graph.nodes graph' = <[node := n']> (Graph.nodes graph) ∧
    Graph.edges graph' = Graph.edges graph ∧
    Graph.next_node_id graph' = Graph.next_node_id graph ∧
    Graph.next_edge_id graph' = Graph.next_edge_id graph ∧
    name (Graph.def n') = name (Graph.def n) ∧
    op (Graph.def n') = op (Graph.def n) ∧
    input (Graph.def n') = input (Graph.def n) ∧
    device (Graph.def n') = device (Graph.def n) ∧
    Graph.assigned_device_name n' = Graph.assigned_device_name n ∧
    attr (Graph.def n')
    = <[attr_name associated_function := AV_func rewritten_function_name fattr]>
        (attr (Graph.def n)) ∧
    (Contains fld (op (Graph.def n)) = false → op (Graph.def n) ≠ kGradientOp →
     ∀ k f a,
       FunctionAttr f a k ∈ GetAssociatedFunctions n' fld
       ↔ (k = attr_name associated_function ∧ f = rewritten_function_name ∧ a = fattr)
         ∨ (k ≠ attr_name associated_function
            ∧ FunctionAttr f a k ∈ GetAssociatedFunctions n fld)).
Proof.
  intros Hnode Htype Hattr.
  unfold RewriteAssociatedFunction. rewrite Hnode, Htype.
  unfold GetNodeAttr. rewrite Hattr. cbn [snd].
  eexists _, _. split; [reflexivity|]. unfold set_func_attr. cbn.
  split; [reflexivity|]. do 8 (split; [reflexivity|]).
  split; [apply insert_delete_eq|].
  intros Hc Hg k f a.
  rewrite !GetAssociatedFunctions_attrs by done. cbn.
  rewrite insert_delete_eq.
  destruct (decide (k = attr_name associated_function)) as [-> | Hk].
  - rewrite lookup_insert_eq. split.
    + intros [= -> ->]. by left.
    + intros [(_ & -> & ->) | [? _]]; done.
  - rewrite lookup_insert_ne by done. split.
    + intros H. by right.
    + intros [(? & _) | [_ H]]; done.
Qed.

(** *** What a rewrite leaves alone *)

(** X19.  Whatever RewriteAssociatedFunction returns for a node of the
    graph: a failed rewrite leaves the graph as it was; a SymbolicGradient
    rewrite never changes the graph; a rewrite of the other two kinds never
    changes the library. *)
Theorem RewriteAssociatedFunction_unchanged
        (graph : Graph.t) (node : nat) (fld : FunctionLibraryDefinition)
        (associated_function : AssociatedFunctionInfo)
        (rewritten_function_name : string)
        (s : Status) (graph' : Graph.t) (fld' : FunctionLibraryDefinition) :
  RewriteAssociatedFunction graph node fld associated_function
                            rewritten_function_name
  = Some (s, graph', fld') →
  (Status.ok s = false → graph' = graph) ∧
  (type associated_function = kSymbolicGradient → graph' = graph) ∧
  (type associated_function ≠ kSymbolicGradient → fld' = fld).
Proof.
  unfold RewriteAssociatedFunction.
  destruct (Graph.nodes graph !! node) as [n|]; [|done].
  destruct (type associated_function).
  - destruct (GetNodeAttr _ _) as [[|c m] func]; intros [= <- <- <-]; done.
  - destruct (builder_input_loop _ _ _ _ _) as [[|c m] inputs];
      [|intros [= <- <- <-]; done].
    destruct (Finalize _) as [[|c m] node_def]; [|intros [= <- <- <-]; done].
    unfold Graph.AddNode. destruct (ValidateNodeDef node_def);
      intros [= <- <- <-]; done.
  - destruct (GetNodeAttr _ _) as [[|c m] func]; [|intros [= <- <- <-]; done].
    destruct (String.eqb _ ""); [|destruct (negb _)].
    + destruct (AddGradientDef _ _) as [s0 fld0]. intros [= <- <- <-]. done.
    + destruct (ReplaceGradient _ _) as [s0 fld0]. intros [= <- <- <-]. done.
    + intros [= <- <- <-]. done.
Qed.

(** *** A rewrite keeps the graph well formed *)

Lemma set_func_attr_well_formed graph node n attr_name func :
  Graph.well_formed graph → Graph.nodes graph !! node = Some n →
  Graph.well_formed (set_func_attr graph node n attr_name func).
Proof.
  intros [[Hids Hends Hnd] Hfresh] Hn. unfold set_func_attr.
  split; [split|]; simpl; [| |done..].
  - intros i [nd Hi]. apply lookup_insert_Some in Hi as [[<- _] | [_ Hi]];
      apply Hids; by eexists.
  - intros e He. destruct (Hends e He) as [Hs Hd].
    split; apply lookup_insert_is_Some'; by right.
Qed.

(** X20.  Whatever the association and whether it succeeds or fails,
    RewriteAssociatedFunction returns a well-formed graph for a well-formed
    graph: the edges it adds for a function call join nodes of the graph,
    under fresh identifiers, and no edge is left at the node it removes. *)
Theorem RewriteAssociatedFunction_well_formed
        (graph : Graph.t) (node : nat) (fld : FunctionLibraryDefinition)
        (associated_function : AssociatedFunctionInfo)
        (rewritten_function_name : string)
        (s : Status) (graph' : Graph.t) (fld' : FunctionLibraryDefinition) :
  Graph.well_formed graph →
  RewriteAssociatedFunction graph node fld associated_function
                            rewritten_function_name
  = Some (s, graph', fld') →
  Graph.well_formed graph'.
Proof.
  intros Hg. unfold RewriteAssociatedFunction.
  destruct (Graph.nodes graph !! node) as [n|] eqn:Hn; [|done].
  destruct (type associated_function).
  - destruct (GetNodeAttr _ _) as [[|c m] func]; intros [= <- <- <-]; [|done].
    by apply set_func_attr_well_formed.
  - destruct (builder_input_loop _ _ _ _ _) as [[|c m] inputs];
      [|intros [= <- <- <-]; done].
    destruct (Finalize _) as [[|c m] node_def]; [|intros [= <- <- <-]; done].
    pose proof (Graph.AddNode_well_formed ValidateNodeDef graph node_def Hg) as H1.
    unfold Graph.AddNode in *.
    destruct (ValidateNodeDef node_def); intros [= <- <- <-]; [|done].
    simpl in H1.
    set (g1 := {| Graph.nodes := <[Graph.next_node_id graph := _]> (Graph.nodes graph);
                  Graph.edges := Graph.edges graph;
                  Graph.next_node_id := S (Graph.next_node_id graph);
                  Graph.next_edge_id := Graph.next_edge_id graph |}) in *.
    apply Graph.RemoveNode_well_formed.
    assert (Hnew : is_Some (Graph.nodes g1 !! Graph.next_node_id graph)).
    { simpl. rewrite lookup_insert_eq. by eexists. }
    destruct (Graph.add_edges_well_formed Graph.src Graph.src_output
                (λ _, Graph.next_node_id graph) Graph.dst_input
                g1 (Graph.in_edges g1 node) H1) as [H2 Hn2].
    { intros e [He _]%Graph.filter_elem. split; [|done].
      by apply (Graph.wf_endpoints g1 (proj1 H1)) in He as [He _]. }
    set (g2 := foldl _ g1 (Graph.in_edges g1 node)) in *.
    apply (Graph.add_edges_well_formed (λ _, Graph.next_node_id graph)
             Graph.src_output Graph.dst Graph.dst_input g2 _ H2).
    intros e [He _]%Graph.filter_elem. rewrite Hn2. split; [done|].
    apply (Graph.wf_endpoints g2 (proj1 H2)) in He as [_ He]. by rewrite Hn2 in He.
  - destruct (GetNodeAttr _ _) as [[|c m] func]; [|intros [= <- <- <-]; done].
    destruct (String.eqb _ ""); [|destruct (negb _)].
    + destruct (AddGradientDef _ _) as [s0 fld0]. intros [= <- <- <-]. done.
    + destruct (ReplaceGradient _ _) as [s0 fld0]. intros [= <- <- <-]. done.
    + intros [= <- <- <-]. done.
Qed.

(** *** Rewriting a function call *)

(** The node that stands for [i] once [new_node] has taken the place of
    [node]. *)
Definition renamed (node new_node i : nat) : nat :=
  if Nat.eqb i node then new_node else i.

Definition renamed_view (node new_node : nat) (v : nat * Z * Z * bool)
  : nat * Z * Z * bool :=
  (renamed node new_node v.1.1.1, v.1.1.2, v.1.2, v.2).

(** The copy of an edge into [node] that the first loop makes, and the copy
    of an edge out of [node] that the second makes. *)
Definition to_node (new_node : nat) (x : nat * Z * nat * Z) : nat * Z * nat * Z :=
  (x.1.1.1, x.1.1.2, new_node, x.2).
Definition from_node (new_node : nat) (x : nat * Z * nat * Z) : nat * Z * nat * Z :=
  (new_node, x.1.1.2, x.1.2, x.2).

Definition call_in_edges (E : list (nat * Z * nat * Z)) (node new_node : nat)
  : list (nat * Z * nat * Z) :=
  to_node new_node <$> List.filter (λ x, Nat.eqb x.1.2 node) E.

(** The second loop runs over the edges out of [node] as they are after the
    first: the copy of an edge from [node] to itself is among them. *)
Definition call_out_edges (E : list (nat * Z * nat * Z)) (node new_node : nat)
  : list (nat * Z * nat * Z) :=
  from_node new_node
    <$> List.filter (λ x, Nat.eqb x.1.1.1 node) (E ++ call_in_edges E node new_node).

Lemma RewriteAssociatedFunction_call_result
      (graph : Graph.t) (node : nat) (n : Graph.Node) (fld : FunctionLibraryDefinition)
      (associated_function : AssociatedFunctionInfo) (rewritten_function_name : string)
      (inputs : list (string * Z * DataType)) (node_def : NodeDef) :
  Graph.nodes graph !! node = Some n →
  type associated_function = kFunctionCallNode →
  builder_input_loop graph node n (seq 0 (num_inputs (Graph.def n))) [] = (OK, inputs) →
  Finalize {| builder_name := name (Graph.def n);
              builder_op := rewritten_function_name;
              builder_attrs := attr (Graph.def n);
              builder_inputs := inputs;
              builder_device :=
                if String.eqb (Graph.assigned_device_name n) ""
                then device (Graph.def n)
                else Graph.assigned_device_name n |} = (OK, node_def) →
  ValidateNodeDef node_def = OK →
  ∃ graph',
    RewriteAssociatedFunction graph node fld associated_function
                              rewritten_function_name
    = Some (OK, graph', fld) ∧
    Graph.nodes graph'
    = delete node (<[Graph.next_node_id graph :=
                       {| Graph.def := node_def; Graph.assigned_device_name := "" |}]>
                     (Graph.nodes graph)) ∧
    Graph.ends <$> Graph.edges graph'
    = List.filter (Graph.apart_from node)
        ((Graph.ends <$> Graph.edges graph)
           ++ call_in_edges (Graph.ends <$> Graph.edges graph) node
                            (Graph.next_node_id graph)
           ++ call_out_edges (Graph.ends <$> Graph.edges graph) node
                             (Graph.next_node_id graph)).
Proof.
  intros Hn Htype Hloop Hfin Hvalid.
  unfold RewriteAssociatedFunction. rewrite Hn, Htype, Hloop. cbv zeta.
  rewrite Hfin. unfold Graph.AddNode. rewrite Hvalid.
  eexists. split; [reflexivity|].
  set (new := Graph.next_node_id graph).
  set (g1 := {| Graph.nodes := <[new := _]> (Graph.nodes graph);
                Graph.edges := Graph.edges graph;
                Graph.next_node_id := S new;
                Graph.next_edge_id := Graph.next_edge_id graph |}).
  pose proof (Graph.add_edges_fields Graph.src Graph.src_output (λ _, new)
                Graph.dst_input g1 (Graph.in_edges g1 node)) as He2.
  pose proof (Graph.add_edges_nodes Graph.src Graph.src_output (λ _, new)
                Graph.dst_input g1 (Graph.in_edges g1 node)) as Hn2.
  set (g2 := foldl _ g1 (Graph.in_edges g1 node)) in *.
  pose proof (Graph.add_edges_fields (λ _, new) Graph.src_output Graph.dst
                Graph.dst_input g2 (Graph.out_edges g2 node)) as He3.
  pose proof (Graph.add_edges_nodes (λ _, new) Graph.src_output Graph.dst
                Graph.dst_input g2 (Graph.out_edges g2 node)) as Hn3.
  set (g3 := foldl _ g2 (Graph.out_edges g2 node)) in *.
  assert (Hin : Graph.ends <$> Graph.edges g2
                = (Graph.ends <$> Graph.edges graph)
                    ++ call_in_edges (Graph.ends <$> Graph.edges graph) node new).
  { rewrite He2. f_equal. unfold call_in_edges.
    rewrite <- (Graph.filter_ends (λ x, Nat.eqb x.1.2 node)).
    by rewrite <- list_fmap_compose. }
  split.
  - simpl. by rewrite Hn3, Hn2.
  - change (Graph.edges (Graph.RemoveNode g3 node))
      with (List.filter (λ e, Graph.apart_from node (Graph.ends e)) (Graph.edges g3)).
    rewrite (Graph.filter_ends (Graph.apart_from node)), He3, Hin.
    rewrite <- app_assoc. do 3 f_equal. unfold call_out_edges.
    rewrite <- Hin, <- (Graph.filter_ends (λ x, Nat.eqb x.1.1.1 node)).
    by rewrite <- list_fmap_compose.
Qed.

Section CallEdges.

Variable E : list (nat * Z * nat * Z).
Variable node new_node : nat.
Hypothesis E_below : ∀ x, x ∈ E → (x.1.1.1 < new_node)%nat ∧ (x.1.2 < new_node)%nat.
Hypothesis node_below : (node < new_node)%nat.

Lemma call_in_edges_elem x :
  x ∈ call_in_edges E node new_node → (x.1.1.1 < new_node)%nat ∧ x.1.2 = new_node.
Proof.
  intros (y & -> & [Hy _]%Graph.filter_elem)%list_elem_of_fmap.
  apply E_below in Hy. simpl. tauto.
Qed.

Lemma call_out_edges_split :
  call_out_edges E node new_node
  = (from_node new_node <$> List.filter (λ x, Nat.eqb x.1.1.1 node) E)
      ++ (from_node new_node
            <$> List.filter (λ x, Nat.eqb x.1.1.1 node) (call_in_edges E node new_node)).
Proof. unfold call_out_edges. by rewrite List.filter_app, fmap_app. Qed.

Lemma apart_from_node_new x :
  x.1.2 = new_node → Graph.apart_from node x = negb (Nat.eqb x.1.1.1 node).
Proof.
  intros Hx. unfold Graph.apart_from. rewrite Hx.
  rewrite (proj2 (Nat.eqb_neq new_node node)) by lia. apply andb_true_r.
Qed.

Lemma apart_from_new_node x :
  x.1.1.1 = new_node → Graph.apart_from node x = negb (Nat.eqb x.1.2 node).
Proof.
  intros Hx. unfold Graph.apart_from. rewrite Hx.
  by rewrite (proj2 (Nat.eqb_neq new_node node)) by lia.
Qed.

(** The edges into the new node, once [node] is removed. *)
Lemma called_in_edges :
  List.filter (λ x, Nat.eqb x.1.2 new_node)
    (List.filter (Graph.apart_from node)
       (E ++ call_in_edges E node new_node ++ call_out_edges E node new_node))
  = List.filter (λ x, negb (Nat.eqb x.1.1.1 node)) (call_in_edges E node new_node)
      ++ (from_node new_node
            <$> List.filter (λ x, Nat.eqb x.1.1.1 node) (call_in_edges E node new_node)).
Proof.
  rewrite call_out_edges_split, !List.filter_app.
  rewrite (Graph.filter_false _ (List.filter _ E)).
  2:{ intros x [Hx _]%Graph.filter_elem. apply E_below in Hx.
      apply Nat.eqb_neq. lia. }
  rewrite (Graph.filter_false _ (List.filter _ (_ <$> List.filter _ E))).
  2:{ intros x [(y & -> & [Hy _]%Graph.filter_elem)%list_elem_of_fmap _]%Graph.filter_elem.
      apply E_below in Hy. apply Nat.eqb_neq. simpl. lia. }
  cbn [app]. f_equal.
  - rewrite (Graph.filter_true (λ x, Nat.eqb x.1.2 new_node)).
    2:{ intros x [Hx%call_in_edges_elem _]%Graph.filter_elem.
        apply Nat.eqb_eq. tauto. }
    apply Graph.filter_agree. intros x Hx%call_in_edges_elem.
    apply apart_from_node_new. tauto.
  - rewrite (Graph.filter_true (Graph.apart_from node)).
    2:{ intros x (y & -> & [Hy%call_in_edges_elem _]%Graph.filter_elem)%list_elem_of_fmap.
        rewrite apart_from_new_node by done. simpl. destruct Hy as [_ ->].
        apply negb_true_iff, Nat.eqb_neq. lia. }
    apply Graph.filter_true.
    intros x (y & -> & [Hy%call_in_edges_elem _]%Graph.filter_elem)%list_elem_of_fmap.
    apply Nat.eqb_eq. simpl. tauto.
Qed.

(** The edges out of the new node. *)
Lemma called_out_edges :
  List.filter (λ x, Nat.eqb x.1.1.1 new_node)
    (List.filter (Graph.apart_from node)
       (E ++ call_in_edges E node new_node ++ call_out_edges E node new_node))
  = (from_node new_node
       <$> List.filter (λ x, negb (Nat.eqb x.1.2 node))
                       (List.filter (λ x, Nat.eqb x.1.1.1 node) E))
      ++ (from_node new_node
            <$> List.filter (λ x, Nat.eqb x.1.1.1 node) (call_in_edges E node new_node)).
Proof.
  rewrite call_out_edges_split, !List.filter_app.
  rewrite (Graph.filter_false _ (List.filter _ E)).
  2:{ intros x [Hx _]%Graph.filter_elem. apply E_below in Hx.
      apply Nat.eqb_neq. lia. }
  rewrite (Graph.filter_false _ (List.filter _ (call_in_edges E node new_node))).
  2:{ intros x [Hx%call_in_edges_elem _]%Graph.filter_elem.
      apply Nat.eqb_neq. lia. }
  cbn [app]. f_equal.
  - rewrite (Graph.filter_true (λ x, Nat.eqb x.1.1.1 new_node)).
    2:{ intros x [(y & -> & _)%list_elem_of_fmap _]%Graph.filter_elem.
        by apply Nat.eqb_eq. }
    rewrite Graph.filter_fmap. f_equal.
    apply Graph.filter_agree. intros x _. by rewrite apart_from_new_node.
  - rewrite (Graph.filter_true (Graph.apart_from node)).
    2:{ intros x (y & -> & [Hy%call_in_edges_elem _]%Graph.filter_elem)%list_elem_of_fmap.
        rewrite apart_from_new_node by done. simpl. destruct Hy as [_ ->].
        apply negb_true_iff, Nat.eqb_neq. lia. }
    apply Graph.filter_true. intros x (y & -> & _)%list_elem_of_fmap.
    by apply Nat.eqb_eq.
Qed.

(** The edges that do not touch the new node. *)
Lemma called_other_edges :
  List.filter (Graph.apart_from new_node)
    (List.filter (Graph.apart_from node)
       (E ++ call_in_edges E node new_node ++ call_out_edges E node new_node))
  = List.filter (Graph.apart_from node) E.
Proof.
  rewrite !List.filter_app.
  rewrite (Graph.filter_false _ (List.filter _ (call_in_edges E node new_node))).
  2:{ intros x [Hx%call_in_edges_elem _]%Graph.filter_elem.
      unfold Graph.apart_from. apply andb_false_iff. right.
      apply negb_false_iff, Nat.eqb_eq. tauto. }
  rewrite (Graph.filter_false _ (List.filter _ (call_out_edges E node new_node))).
  2:{ intros x [(y & -> & _)%list_elem_of_fmap _]%Graph.filter_elem.
      unfold Graph.apart_from. apply andb_false_iff. left.
      by apply negb_false_iff, Nat.eqb_eq. }
  rewrite !app_nil_r. apply Graph.filter_true.
  intros x [Hx%E_below _]%Graph.filter_elem.
  unfold Graph.apart_from. apply andb_true_iff.
  split; apply negb_true_iff, Nat.eqb_neq; lia.
Qed.

(** Seen from the new node, the edges into it are the edges that went into
    [node], and the edges out of it those that went out of [node]. *)
Lemma called_in_views :
  Graph.in_view_of
    <$> (List.filter (λ x, negb (Nat.eqb x.1.1.1 node)) (call_in_edges E node new_node)
           ++ (from_node new_node
                 <$> List.filter (λ x, Nat.eqb x.1.1.1 node)
                                 (call_in_edges E node new_node)))
  ≡ₚ renamed_view node new_node
       <$> (Graph.in_view_of <$> List.filter (λ x, Nat.eqb x.1.2 node) E).
Proof.
  unfold call_in_edges. rewrite !Graph.filter_fmap, fmap_app, <- !list_fmap_compose.
  apply (Graph.split_Permutation (λ x, Nat.eqb x.1.1.1 node)).
  - intros x _ Hx. unfold renamed_view, renamed. simpl. by rewrite Hx.
  - intros x _ Hx. unfold renamed_view, renamed. simpl. by rewrite Hx.
Qed.

Lemma called_out_views :
  Graph.out_view_of
    <$> ((from_node new_node
            <$> List.filter (λ x, negb (Nat.eqb x.1.2 node))
                            (List.filter (λ x, Nat.eqb x.1.1.1 node) E))
           ++ (from_node new_node
                 <$> List.filter (λ x, Nat.eqb x.1.1.1 node)
                                 (call_in_edges E node new_node)))
  ≡ₚ renamed_view node new_node
       <$> (Graph.out_view_of <$> List.filter (λ x, Nat.eqb x.1.1.1 node) E).
Proof.
  unfold call_in_edges. rewrite Graph.filter_fmap.
  change (List.filter (λ x, Nat.eqb (to_node new_node x).1.1.1 node)
                      (List.filter (λ x, Nat.eqb x.1.2 node) E))
    with (List.filter (λ x, Nat.eqb x.1.1.1 node)
                      (List.filter (λ x, Nat.eqb x.1.2 node) E)).
  rewrite (Graph.filter_comm (λ x, Nat.eqb x.1.1.1 node)).
  rewrite fmap_app, <- !list_fmap_compose.
  apply (Graph.split_Permutation (λ x, Nat.eqb x.1.2 node)).
  - intros x _ Hx. unfold renamed_view, renamed. simpl. by rewrite Hx.
  - intros x _ Hx. unfold renamed_view, renamed. simpl. by rewrite Hx.
Qed.

End CallEdges.

(** X21.  In a well-formed graph, rewriting a FunctionCallNode association
    for a node [node], when the inputs are found and the new definition can
    be built, replaces [node] by a new node built from that definition.  The
    edges into the new node are the edges that went into [node] and the
    edges out of it those that went out of [node], with the same slots and
    control flag and the same other endpoint; an edge from [node] to itself
    becomes an edge from the new node to itself.  No edge is left at [node],
    the other edges and nodes and the library are unchanged. *)
Theorem RewriteAssociatedFunction_FunctionCall
        (graph : Graph.t) (node : nat) (n : Graph.Node)
        (fld : FunctionLibraryDefinition)
        (associated_function : AssociatedFunctionInfo)
        (rewritten_function_name : string)
        (inputs : list (string * Z * DataType)) (node_def : NodeDef) :
  Graph.wf graph →
  Graph.nodes graph !! node = Some n →
  type associated_function = kFunctionCallNode →
  builder_input_loop graph node n (seq 0 (num_inputs (Graph.def n))) [] = (OK, inputs) →
  Finalize {| builder_name := name (Graph.def n);
              builder_op := rewritten_function_name;
              builder_attrs := attr (Graph.def n);
              builder_inputs := inputs;
              builder_device :=
                if String.eqb (Graph.assigned_device_name n) ""
                then device (Graph.def n)
                else Graph.assigned_device_name n |} = (OK, node_def) →
  ValidateNodeDef node_def = OK →
  ∃ new_node graph',
    RewriteAssociatedFunction graph node fld associated_function
                              rewritten_function_name
    = Some (OK, graph', fld) ∧
    Graph.nodes graph !! new_node = None ∧
    Graph.nodes graph' !! node = None ∧
    Graph.def <$> Graph.nodes graph' !! new_node = Some node_def ∧
    (∀ i, i ≠ node → i ≠ new_node →
          Graph.nodes graph' !! i = Graph.nodes graph !! i) ∧
    Graph.in_view <$> Graph.in_edges graph' new_node
    ≡ₚ renamed_view node new_node <$> (Graph.in_view <$> Graph.in_edges graph node) ∧
    Graph.out_view <$> Graph.out_edges graph' new_node
    ≡ₚ renamed_view node new_node <$> (Graph.out_view <$> Graph.out_edges graph node) ∧
    (∀ e, e ∈ Graph.edges graph' → Graph.src e ≠ node ∧ Graph.dst e ≠ node) ∧
    Graph.ends <$> List.filter (λ e, Graph.apart_from new_node (Graph.ends e))
                               (Graph.edges graph')
    = Graph.ends <$> List.filter (λ e, Graph.apart_from node (Graph.ends e))
                                 (Graph.edges graph).
Proof.
  intros Hwf Hn Htype Hloop Hfin Hvalid.
  destruct (RewriteAssociatedFunction_call_result graph node n fld associated_function
              rewritten_function_name inputs node_def Hn Htype Hloop Hfin Hvalid)
    as (graph' & Hres & Hnodes & Hedges).
  set (new := Graph.next_node_id graph) in *.
  set (E := Graph.ends <$> Graph.edges graph) in *.
  assert (Hlt : (node < new)%nat).
  { apply (Graph.wf_node_ids graph Hwf). by eexists. }
  assert (HE : ∀ x, x ∈ E → (x.1.1.1 < new)%nat ∧ (x.1.2 < new)%nat).
  { intros x (e & -> & He)%list_elem_of_fmap.
    destruct (Graph.wf_endpoints graph Hwf e He) as [Hs Hd].
    split; by apply (Graph.wf_node_ids graph Hwf). }
  exists new, graph'. split; [exact Hres|].
  split; [|split; [|split; [|split; [|split; [|split; [|split]]]]]].
  - destruct (Graph.nodes graph !! new) eqn:Hnew; [|done].
    pose proof (Graph.wf_node_ids graph Hwf _ (mk_is_Some _ _ Hnew)). unfold new in *. lia.
  - rewrite Hnodes. apply lookup_delete_eq.
  - rewrite Hnodes, lookup_delete_ne, lookup_insert_eq by lia. done.
  - intros i Hi Hnew. by rewrite Hnodes, lookup_delete_ne, lookup_insert_ne.
  - rewrite !Graph.in_view_edges, Hedges, (called_in_edges E node new HE Hlt).
    apply called_in_views.
  - rewrite !Graph.out_view_edges, Hedges, (called_out_edges E node new HE Hlt).
    apply called_out_views.
  - intros e He. apply (list_elem_of_fmap_2 Graph.ends) in He.
    rewrite Hedges in He. apply Graph.filter_elem in He as [_ Hap].
    unfold Graph.apart_from in Hap. simpl in Hap.
    apply andb_true_iff in Hap
        as [Hs%negb_true_iff%Nat.eqb_neq Hd%negb_true_iff%Nat.eqb_neq].
    done.
  - rewrite !(Graph.filter_ends (Graph.apart_from _)), Hedges.
    apply (called_other_edges E node new HE Hlt).
Qed.

End AssociatedFunctions.

(** *** Examples *)

Definition example_fld : FunctionLibraryDefinition :=
  {| function_defs := {[ "F" ]}; func_grad := {[ "F" := "F_grad" ]} |}.

Definition node_with (node_op : string) (attrs : gmap string AttrValue) : Graph.Node :=
  {| Graph.def := {| name := "n"; op := node_op; input := []; device := "";
                     attr := attrs |};
     Graph.assigned_device_name := "" |}.

(** A node whose ["body"] attribute refers to the subroutine ["F"]. *)
Example GetAssociatedFunctions_attr :
  GetAssociatedFunctions "SymbolicGradient"
    (node_with "While" (<["body" := AV_func "F" ∅]> (<["T" := AV_type 1]> ∅)))
    example_fld
  = [FunctionAttr "F" ∅ "body"].
Proof. vm_compute. reflexivity. Qed.

(** A call of ["F"] is a function call whatever its attributes hold. *)
Example GetAssociatedFunctions_call :
  GetAssociatedFunctions "SymbolicGradient"
    (node_with "F" (<["body" := AV_func "G" ∅]> ∅)) example_fld
  = [FunctionCall "F" (<["body" := AV_func "G" ∅]> ∅)].
Proof. vm_compute. reflexivity. Qed.

Lemma GetAssociatedFunctions_shapes_witness :
  Contains example_fld "While" = false ∧ "While" ≠ "SymbolicGradient" ∧
  (∀ info,
      info ∈ GetAssociatedFunctions "SymbolicGradient"
               (node_with "While" (<["body" := AV_func "F" ∅]> (<["T" := AV_type 1]> ∅)))
               example_fld
      ↔ ∃ k fname fattr,
          (<["body" := AV_func "F" ∅]> (<["T" := AV_type 1]> ∅) : gmap string AttrValue)
            !! k = Some (AV_func fname fattr) ∧
          info = FunctionAttr fname fattr k).
Proof.
  split; [vm_compute; reflexivity|]. split; [discriminate|].
  pose proof (GetAssociatedFunctions_shapes "SymbolicGradient"
                (node_with "While" (<["body" := AV_func "F" ∅]> (<["T" := AV_type 1]> ∅)))
                example_fld) as H.
  simpl in H. destruct H as (_ & _ & H & _).
  apply H; [vm_compute; reflexivity | discriminate].
Defined.

Definition gradient_graph : Graph.t :=
  {| Graph.nodes :=
       <[0%nat := node_with "SymbolicGradient" (<["f" := AV_func "F" ∅]> ∅)]> ∅;
     Graph.edges := [];
     Graph.next_node_id := 1;
     Graph.next_edge_id := 0 |}.

Definition no_inputs (_ : NodeDef) : nat := O.
Definition no_input_type (_ : NodeDef) (_ : nat) : DataType := DT_INVALID.
Definition finalize_as_is (b : NodeDefBuilder) : Status * NodeDef :=
  (OK, {| name := builder_name b; op := builder_op b; input := [];
          device := builder_device b; attr := builder_attrs b |}).

Definition rewrite :=
  RewriteAssociatedFunction "f" Graph.always_valid no_inputs no_input_type
                            finalize_as_is.

Example RewriteAssociatedFunction_replaces :
  rewrite gradient_graph 0 example_fld (SymbolicGradient "SymbolicGradient" ∅) "F_grad2"
  = Some (OK, gradient_graph,
          {| function_defs := {[ "F" ]}; func_grad := {[ "F" := "F_grad2" ]} |}).
Proof. vm_compute. reflexivity. Qed.

Lemma RewriteAssociatedFunction_SymbolicGradient_witness :
  ∃ fld',
    rewrite gradient_graph 0 example_fld (SymbolicGradient "SymbolicGradient" ∅) "F_grad2"
    = Some (OK, gradient_graph, fld') ∧
    function_defs fld' = function_defs example_fld ∧
    FindGradient fld' "F" = "F_grad2" ∧
    (∀ f, f ≠ "F" → func_grad fld' !! f = func_grad example_fld !! f) ∧
    (func_grad example_fld !! "F" = None →
     func_grad fld' = <["F" := "F_grad2"]> (func_grad example_fld)) ∧
    (∀ old, func_grad example_fld !! "F" = Some old → old ≠ "F_grad2" →
            func_grad fld' = <["F" := "F_grad2"]> (func_grad example_fld)) ∧
    (func_grad example_fld !! "F" = Some "F_grad2" → fld' = example_fld).
Proof.
  apply (RewriteAssociatedFunction_SymbolicGradient
           "f" Graph.always_valid no_inputs no_input_type finalize_as_is
           gradient_graph 0
           (node_with "SymbolicGradient" (<["f" := AV_func "F" ∅]> ∅))
           example_fld (SymbolicGradient "SymbolicGradient" ∅) "F_grad2" "F" ∅).
  - reflexivity.
  - reflexivity.
  - reflexivity.
Defined.

(** A node whose ["body"] attribute refers to the subroutine ["F"]. *)
Definition while_graph : Graph.t :=
  {| Graph.nodes :=
       <[0%nat := node_with "While" (<["body" := AV_func "F" ∅]> (<["T" := AV_type 1]> ∅))]>
         ∅;
     Graph.edges := [];
     Graph.next_node_id := 1;
     Graph.next_edge_id := 0 |}.

Example RewriteAssociatedFunction_renames :
  rewrite while_graph 0 example_fld (FunctionAttr "F" ∅ "body") "F_rewritten"
  = Some (OK,
          {| Graph.nodes :=
               <[0%nat := node_with "While" (<["body" := AV_func "F_rewritten" ∅]>
                                               (<["T" := AV_type 1]> ∅))]> ∅;
             Graph.edges := [];
             Graph.next_node_id := 1;
             Graph.next_edge_id := 0 |},
          example_fld).
Proof. vm_compute. reflexivity. Qed.

Lemma RewriteAssociatedFunction_FunctionAttr_witness :
  ∃ graph' n',
    rewrite while_graph 0 example_fld (FunctionAttr "F" ∅ "body") "F_rewritten"
    = Some (OK, graph', example_fld) ∧
    Graph.nodes graph' = <[0%nat := n']> (Graph.nodes while_graph) ∧
    Graph.edges graph' = Graph.edges while_graph ∧
    Graph.next_node_id graph' = Graph.next_node_id while_graph ∧
    Graph.next_edge_id graph' = Graph.next_edge_id while_graph ∧
    name (Graph.def n') = "n" ∧
    op (Graph.def n') = "While" ∧
    input (Graph.def n') = [] ∧
    device (Graph.def n') = "" ∧
    Graph.assigned_device_name n' = "" ∧
    attr (Graph.def n')
    = <["body" := AV_func "F_rewritten" ∅]>
        (<["body" := AV_func "F" ∅]> (<["T" := AV_type 1]> ∅)) ∧
    (Contains example_fld "While" = false → "While" ≠ "SymbolicGradient" →
     ∀ k f a,
       FunctionAttr f a k ∈ GetAssociatedFunctions "SymbolicGradient" n' example_fld
       ↔ (k = "body" ∧ f = "F_rewritten" ∧ a = ∅)
         ∨ (k ≠ "body"
            ∧ FunctionAttr f a k
                ∈ GetAssociatedFunctions "SymbolicGradient"
                    (node_with "While"
                       (<["body" := AV_func "F" ∅]> (<["T" := AV_type 1]> ∅)))
                    example_fld)).
Proof.
  exact (RewriteAssociatedFunction_FunctionAttr
           "SymbolicGradient" "f" Graph.always_valid no_inputs no_input_type
           finalize_as_is while_graph 0
           (node_with "While" (<["body" := AV_func "F" ∅]> (<["T" := AV_type 1]> ∅)))
           example_fld (FunctionAttr "F" ∅ "body") "F_rewritten" "F" ∅
           eq_refl eq_refl eq_refl).
Defined.

(** The node has no attribute ["cond"]: the rewrite fails. *)
Lemma RewriteAssociatedFunction_unchanged_witness :
  (Status.ok (Status.NotFound ["No attr named '"; "cond"; "' in NodeDef"]) = false →
   while_graph = while_graph) ∧
  (type (FunctionAttr "F" ∅ "cond") = kSymbolicGradient → while_graph = while_graph) ∧
  (type (FunctionAttr "F" ∅ "cond") ≠ kSymbolicGradient → example_fld = example_fld).
Proof.
  apply (RewriteAssociatedFunction_unchanged
           "f" Graph.always_valid no_inputs no_input_type finalize_as_is
           while_graph 0 example_fld (FunctionAttr "F" ∅ "cond") "F_rewritten"
           (Status.NotFound ["No attr named '"; "cond"; "' in NodeDef"])
           while_graph example_fld).
  vm_compute. reflexivity.
Defined.

(** A call of ["F"] with an edge from its output to its input. *)
Definition call_graph : Graph.t :=
  {| Graph.nodes := <[0%nat := node_with "F" ∅]> ∅;
     Graph.edges := [ Graph.mk_edge 0 0 0 0 0 ];
     Graph.next_node_id := 1;
     Graph.next_edge_id := 1 |}.

Definition one_input (_ : NodeDef) : nat := 1%nat.
Definition input_type_1 (_ : NodeDef) (_ : nat) : DataType := 1.

Definition rewrite_call :=
  RewriteAssociatedFunction "f" Graph.always_valid one_input input_type_1
                            finalize_as_is.

Definition called_graph : Graph.t :=
  {| Graph.nodes := <[1%nat := node_with "F_rewritten" ∅]> ∅;
     Graph.edges := [ Graph.mk_edge 3 1 0 1 0 ];
     Graph.next_node_id := 2;
     Graph.next_edge_id := 4 |}.

Example RewriteAssociatedFunction_calls :
  rewrite_call call_graph 0 example_fld (FunctionCall "F" ∅) "F_rewritten"
  = Some (OK, called_graph, example_fld).
Proof. vm_compute. reflexivity. Qed.

Lemma call_graph_well_formed : Graph.well_formed call_graph.
Proof.
  split; [split|].
  - intros i [nd Hi]. simpl in *. destruct i as [|i]; [lia|].
    rewrite lookup_insert_ne, lookup_empty in Hi by lia. discriminate.
  - intros e He. simpl in He.
    apply elem_of_cons in He as [-> | He]; [by split; eexists|].
    by apply elem_of_nil in He.
  - apply (bool_decide_unpack _). vm_compute. reflexivity.
  - intros e He. simpl in He.
    apply elem_of_cons in He as [-> | He]; [simpl; lia|].
    by apply elem_of_nil in He.
Qed.

Lemma RewriteAssociatedFunction_well_formed_witness : Graph.well_formed called_graph.
Proof.
  apply (RewriteAssociatedFunction_well_formed
           "f" Graph.always_valid one_input input_type_1 finalize_as_is
           call_graph 0 example_fld (FunctionCall "F" ∅) "F_rewritten"
           OK called_graph example_fld).
  - exact call_graph_well_formed.
  - vm_compute. reflexivity.
Defined.

Lemma RewriteAssociatedFunction_FunctionCall_witness :
  ∃ new_node graph',
    rewrite_call call_graph 0 example_fld (FunctionCall "F" ∅) "F_rewritten"
    = Some (OK, graph', example_fld) ∧
    Graph.nodes call_graph !! new_node = None ∧
    Graph.nodes graph' !! 0%nat = None ∧
    Graph.def <$> Graph.nodes graph' !! new_node
    = Some {| name := "n"; op := "F_rewritten"; input := []; device := ""; attr := ∅ |} ∧
    (∀ i, i ≠ 0%nat → i ≠ new_node →
          Graph.nodes graph' !! i = Graph.nodes call_graph !! i) ∧
    Graph.in_view <$> Graph.in_edges graph' new_node
    ≡ₚ renamed_view 0 new_node <$> (Graph.in_view <$> Graph.in_edges call_graph 0) ∧
    Graph.out_view <$> Graph.out_edges graph' new_node
    ≡ₚ renamed_view 0 new_node <$> (Graph.out_view <$> Graph.out_edges call_graph 0) ∧
    (∀ e, e ∈ Graph.edges graph' → Graph.src e ≠ 0%nat ∧ Graph.dst e ≠ 0%nat) ∧
    Graph.ends <$> List.filter (λ e, Graph.apart_from new_node (Graph.ends e))
                               (Graph.edges graph')
    = Graph.ends <$> List.filter (λ e, Graph.apart_from 0 (Graph.ends e))
                                 (Graph.edges call_graph).
Proof.
  apply (RewriteAssociatedFunction_FunctionCall
           "f" Graph.always_valid one_input input_type_1 finalize_as_is
           call_graph 0 (node_with "F" ∅) example_fld (FunctionCall "F" ∅)
           "F_rewritten" [("n", 0, 1)]
           {| name := "n"; op := "F_rewritten"; input := []; device := ""; attr := ∅ |}).
  - exact (proj1 call_graph_well_formed).
  - reflexivity.
  - reflexivity.
  - vm_compute. reflexivity.
  - reflexivity.
  - reflexivity.
Defined.

End Functions.

(** ** CachedFunctionHandles *)

Module FunctionHandleCache.
Section Cache.

(** The function runtime behind the cache ([FunctionLibraryRuntime]) and
    [Status::Update] (status.cc) are not among the sources.  The runtime is a
    state that [Instantiate] and [ReleaseHandle] read and change;
    [Update result s] is the value of [result] after [result.Update(s)]. *)
Variable Handle : Type.
Variable Runtime : Type.
Variable Canonicalize : string → gmap string AttrValue → string.
(** [Instantiate] is handed the caller's [handle] pointer: it is given the
    value at [*handle] and returns the value it leaves there, whether it
    succeeds or fails. *)
Variable Instantiate :
  string → gmap string AttrValue → Handle → Runtime → Status * Handle * Runtime.
Variable ReleaseHandle : Handle → Runtime → Status * Runtime.
Variable Update : Status → Status → Status.

Record CachedFunctionHandles := { handles_ : gmap string Handle }.

(** The status, [*handle], the cache and the runtime; [handle] is the value
    at [*handle] when the call is made. *)
Definition GetOrInstantiate (cache : CachedFunctionHandles) (flr_ : Runtime)
           (func_name : string) (attrs : gmap string AttrValue) (handle : Handle)
  : Status * Handle * CachedFunctionHandles * Runtime :=
  let canonicalized_name := Canonicalize func_name attrs in
  match handles_ cache !! canonicalized_name with
  | Some iter => (OK, iter, cache, flr_)
  | None =>
      match Instantiate func_name attrs handle flr_ with
      | (Status.Error c m, handle, flr_) => (Status.Error c m, handle, cache, flr_)
      | (OK, handle, flr_) =>
          (OK, handle,
           {| handles_ := <[canonicalized_name := handle]> (handles_ cache) |}, flr_)
      end
  end.

(** The body of [for (auto iter : handles_)], on [result] and the runtime. *)
Definition release_step (st : Status * Runtime) (iter : string * Handle)
  : Status * Runtime :=
  let '(result, flr_) := st in
  let '(s, flr_) := ReleaseHandle iter.2 flr_ in
  (Update result s, flr_).

(** The status, the cache and the runtime. *)
Definition ReleaseAllHandles (cache : CachedFunctionHandles) (flr_ : Runtime)
  : Status * CachedFunctionHandles * Runtime :=
  let '(result, flr_) := foldl release_step (OK, flr_) (map_to_list (handles_ cache)) in
  (result, {| handles_ := ∅ |}, flr_).

(** *** Releasing every handle *)

(** What the spec asks of [release_all], in its words: every handle is
    released through the runtime, in turn and whatever the earlier releases
    returned; the statuses of the releases are collected. *)
Fixpoint release_each (hs : list Handle) (flr_ : Runtime) : list Status * Runtime :=
  match hs with
  | [] => ([], flr_)
  | h :: hs' =>
      let '(s, flr_) := ReleaseHandle h flr_ in
      let '(statuses, flr_) := release_each hs' flr_ in
      (s :: statuses, flr_)
  end.

(** The failures are combined into one status with [Status::Update]. *)
Definition combine (statuses : list Status) : Status := foldl Update OK statuses.

Lemma release_each_length hs flr_ : length (release_each hs flr_).1 = length hs.
Proof.
  revert flr_. induction hs as [|h hs IH]; intros flr_; simpl; [done|].
  destruct (ReleaseHandle h flr_) as [s flr1].
  specialize (IH flr1). destruct (release_each hs flr1) as [ss flr2].
  simpl in *. by rewrite IH.
Qed.

Lemma release_loop_spec (l : list (string * Handle)) result flr_ :
  foldl release_step (result, flr_) l
  = (foldl Update result (release_each l.*2 flr_).1, (release_each l.*2 flr_).2).
Proof.
  revert result flr_. induction l as [|[k h] l IH]; intros result flr_; [done|].
  rewrite fmap_cons. cbn [foldl release_step release_each snd].
  destruct (ReleaseHandle h flr_) as [s flr1]. rewrite IH.
  destruct (release_each l.*2 flr1) as [ss flr2]. reflexivity.
Qed.

(** C4.  Whatever the cache holds, [ReleaseAllHandles] releases every cached
    handle, one release for each entry and whatever the releases before it
    returned, returns the statuses of all the releases combined by
    [Status::Update], and leaves the cache empty in every case. *)
Theorem ReleaseAllHandles_releases_all (cache : CachedFunctionHandles) (flr_ : Runtime) :
  let handles := (map_to_list (handles_ cache)).*2 in
  ReleaseAllHandles cache flr_
  = (combine (release_each handles flr_).1, {| handles_ := ∅ |},
     (release_each handles flr_).2) ∧
  length (release_each handles flr_).1 = size (handles_ cache) ∧
  (∀ h, h ∈ handles ↔ ∃ key, handles_ cache !! key = Some h).
Proof.
  simpl. split; [|split].
  - unfold ReleaseAllHandles, combine. by rewrite release_loop_spec.
  - by rewrite release_each_length, length_fmap, length_map_to_list.
  - intros h. rewrite list_elem_of_fmap. split.
    + intros ([k h'] & -> & Hin). exists k. by apply elem_of_map_to_list.
    + intros [k Hk]. exists (k, h). split; [done|]. by apply elem_of_map_to_list.
Qed.

(** When [Update] takes the first status it is given and never turns an
    error into a success, the combined status is OK exactly when every
    release succeeded: a failed release is reported wherever it happens. *)
Lemma combine_ok statuses :
  (∀ s, Update OK s = s) →
  (∀ c m s, Status.ok (Update (Status.Error c m) s) = false) →
  Status.ok (combine statuses) = forallb Status.ok statuses.
Proof.
  intros Hfirst Hkeep. unfold combine.
  assert (Herr : ∀ l acc, Status.ok acc = false → Status.ok (foldl Update acc l) = false).
  { induction l as [|s l IH]; intros acc Hacc; [done|]. simpl. apply IH.
    destruct acc as [|c m]; [discriminate | apply Hkeep]. }
  induction statuses as [|s statuses IH]; [done|]. simpl. rewrite Hfirst.
  destruct s as [|c m]; [exact IH | by apply Herr].
Qed.

(** *** Looking a handle up *)

(** X22.  Whatever GetOrInstantiate returns, the cache keeps every handle it
    held, and at most the entry of the canonical name is new.  A failure
    leaves the cache as it was.  After a success the cache holds the handle
    that is returned, under the canonical name.  When the canonical name is
    in the cache, the call succeeds and changes neither the cache nor the
    runtime: [Instantiate] is not called.  When it is not, the status, the
    handle and the runtime are what [Instantiate] returned, given the
    caller's handle: after a failure [*handle] holds what [Instantiate] left
    there. *)
Theorem GetOrInstantiate_keeps_handles
        (cache : CachedFunctionHandles) (flr_ : Runtime)
        (func_name : string) (attrs : gmap string AttrValue) (handle : Handle)
        (s : Status) (handle' : Handle)
        (cache' : CachedFunctionHandles) (flr' : Runtime) :
  GetOrInstantiate cache flr_ func_name attrs handle = (s, handle', cache', flr') →
  (∀ k h, handles_ cache !! k = Some h → handles_ cache' !! k = Some h) ∧
  (∀ k, k ≠ Canonicalize func_name attrs →
        handles_ cache' !! k = handles_ cache !! k) ∧
  (Status.ok s = false → cache' = cache) ∧
  (s = OK → handles_ cache' !! Canonicalize func_name attrs = Some handle') ∧
  (is_Some (handles_ cache !! Canonicalize func_name attrs) →
   s = OK ∧ cache' = cache ∧ flr' = flr_) ∧
  (handles_ cache !! Canonicalize func_name attrs = None →
   (s, handle', flr') = Instantiate func_name attrs handle flr_).
Proof.
  unfold GetOrInstantiate.
  destruct (handles_ cache !! Canonicalize func_name attrs) as [h|] eqn:Hfind.
  { intros [= <- <- <- <-].
    split; [done|]. split; [done|]. split; [done|]. split; [done|]. split; done. }
  destruct (Instantiate func_name attrs handle flr_) as [[[|c m] h] flr1];
    intros [= <- <- <- <-]; simpl.
  - split.
    { intros k h0 Hk. rewrite lookup_insert_ne; [done|]. congruence. }
    split; [by intros k Hk; rewrite lookup_insert_ne|].
    split; [done|].
    split; [by rewrite lookup_insert_eq|].
    split; [by intros [? ?] | done].
  - split; [done|]. split; [done|]. split; [done|]. split; [done|].
    split; [by intros [? ?] | done].
Qed.


(** *** After the handles are released *)

(** X24.  ReleaseAllHandles forgets every handle.  Releasing again returns
    OK and does not touch the runtime; and GetOrInstantiate on the cache it
    leaves goes to [Instantiate] for every function, also for one that was
    cached before: the status, the handle and the runtime are those of
    [Instantiate]. *)
Theorem ReleaseAllHandles_forgets (cache : CachedFunctionHandles) (flr_ : Runtime) :
  let cache' := (ReleaseAllHandles cache flr_).1.2 in
  (∀ flr', ReleaseAllHandles cache' flr' = (OK, cache', flr')) ∧
  (∀ flr' func_name attrs handle,
      (GetOrInstantiate cache' flr' func_name attrs handle).1.1.1
      = (Instantiate func_name attrs handle flr').1.1 ∧
      (GetOrInstantiate cache' flr' func_name attrs handle).1.1.2
      = (Instantiate func_name attrs handle flr').1.2 ∧
      (GetOrInstantiate cache' flr' func_name attrs handle).2
      = (Instantiate func_name attrs handle flr').2).
Proof.
  assert (Hempty : (ReleaseAllHandles cache flr_).1.2 = {| handles_ := ∅ |}).
  { unfold ReleaseAllHandles. by destruct (foldl _ _ _). }
  simpl. rewrite Hempty. split.
  - intros flr'. unfold ReleaseAllHandles. simpl. by rewrite map_to_list_empty.
  - intros flr' func_name attrs handle. unfold GetOrInstantiate. simpl.
    rewrite lookup_empty.
    by destruct (Instantiate func_name attrs handle flr') as [[[|c m] h] flr1].
Qed.

End Cache.

(** *** Example *)

(** A runtime that logs the handles it is asked to release and fails to
    release the odd ones; [Update] keeps the first error it is given. *)
Definition logging_release (h : nat) (log : list nat) : Status * list nat :=
  (if Nat.odd h then Status.Error Status.INTERNAL ("cannot release " +:+ pretty h)
   else OK,
   log ++ [h]).

Definition keep_first_error (result s : Status) : Status :=
  if Status.ok result then s else result.

Definition example_cache : CachedFunctionHandles nat :=
  {| handles_ := <["h" := 4%nat]> (<["g" := 3%nat]> (<["f" := 1%nat]> ∅)) |}.

Example ReleaseAllHandles_example :
  let '(result, cache, log) :=
    ReleaseAllHandles nat (list nat) logging_release keep_first_error example_cache [] in
  Status.ok result = false ∧ handles_ nat cache = ∅ ∧ log ≡ₚ [1%nat; 3%nat; 4%nat].
Proof.
  vm_compute. split; [done|]. split; [done|].
  apply (bool_decide_unpack _). vm_compute. reflexivity.
Qed.

(** A runtime that hands out the next number as the handle and logs it; it
    knows no function without a name, and leaves the caller's handle alone
    when it fails.  The canonical name is the name. *)
Definition counting_instantiate (func_name : string) (attrs : gmap string AttrValue)
           (handle : nat) (log : list nat) : Status * nat * list nat :=
  if String.eqb func_name "" then
    (Status.Error Status.NOT_FOUND "no function", handle, log)
  else (OK, length log, log ++ [length log]).

Definition by_name (func_name : string) (attrs : gmap string AttrValue) : string :=
  func_name.

Definition lookup_handle := GetOrInstantiate nat (list nat) by_name counting_instantiate.

Definition example_cache_k : CachedFunctionHandles nat :=
  {| handles_ := <["k" := 0%nat]> (handles_ nat example_cache) |}.

(** A miss, a hit and a failure; the caller's handle is 9. *)
Example GetOrInstantiate_example :
  lookup_handle example_cache [] "k" ∅ 9%nat = (OK, 0%nat, example_cache_k, [0%nat])
  ∧ lookup_handle example_cache_k [0%nat] "k" ∅ 9%nat
    = (OK, 0%nat, example_cache_k, [0%nat])
  ∧ lookup_handle example_cache_k [0%nat] "" ∅ 9%nat
    = (Status.Error Status.NOT_FOUND "no function", 9%nat, example_cache_k, [0%nat]).
Proof. repeat split; vm_compute; reflexivity. Qed.

Lemma GetOrInstantiate_keeps_handles_witness :
  (∀ k h, handles_ nat example_cache !! k = Some h →
          handles_ nat example_cache_k !! k = Some h) ∧
  (∀ k, k ≠ "k" → handles_ nat example_cache_k !! k = handles_ nat example_cache !! k) ∧
  (Status.ok OK = false → example_cache_k = example_cache) ∧
  (OK = OK → handles_ nat example_cache_k !! "k" = Some 0%nat) ∧
  (is_Some (handles_ nat example_cache !! "k") →
   OK = OK ∧ example_cache_k = example_cache ∧ [0%nat] = []) ∧
  (handles_ nat example_cache !! "k" = None →
   (OK, 0%nat, [0%nat]) = counting_instantiate "k" ∅ 9%nat []).
Proof.
  apply (GetOrInstantiate_keeps_handles nat (list nat) by_name counting_instantiate
           example_cache [] "k" ∅ 9%nat OK 0%nat example_cache_k [0%nat]).
  vm_compute. reflexivity.
Defined.


End FunctionHandleCache.
